(** * Loomwork mobile editor: the draft / commit lifecycle

    A shallow embedding of [src/components/mobile/github.ts] and of the
    session logic of [src/components/mobile/MobileApp.tsx].

    - JavaScript strings are [string]s; the operations used here
      (regular expressions over single characters, concatenation) do not
      depend on the width of a code unit.
    - [async] functions are functions in a state-and-exception monad over
      the remote store; a [throw] / rejected promise is [Throw].
    - The GitHub REST API is the environment: [fetch] is a parameter of
      the development and answers each request with a response or a
      network failure. *)

From Stdlib Require Import ZArith Ascii String List Lia Bool Permutation.
From stdpp Require Import base option list strings gmap pretty sorting.

Open Scope string_scope.
Open Scope Z_scope.

Set Warnings "-register-all".

(* ===================================================================== *)
(** ** JavaScript errors and results *)
(* ===================================================================== *)

(** A thrown value: the constructor's name ([Error], [TypeError], ...)
    and the [message] property. *)
Record JsError := mkError { err_name : string; err_message : string }.

Definition Error (msg : string) : JsError := mkError "Error" msg.
Definition TypeError (msg : string) : JsError := mkError "TypeError" msg.

(** The result of running a piece of code: a value, a thrown error, or
    a computation that was cut off by the recursion budget of the model
    ([OutOfFuel], only produced by [listFilesRecursive]). *)
Inductive Outcome (A : Type) : Type :=
| Ok (a : A)
| Throw (e : JsError)
| OutOfFuel.
Arguments Ok {A} a.
Arguments Throw {A} e.
Arguments OutOfFuel {A}.

(* ===================================================================== *)
(** ** Strings *)
(* ===================================================================== *)

Module Str.

(** [before s s'] is the part of [s] in front of its suffix [s']. *)
Definition before (s s' : string) : string :=
  substring 0 (String.length s - String.length s') s.

(** [snoc s c] appends one character. *)
Definition snoc (s : string) (c : ascii) : string := s ++ String c "".

End Str.

(* ===================================================================== *)
(** ** Regular expressions

    The fragment of ECMAScript regular expressions that [parseRepo]
    uses: literal characters, negated one-character classes, greedy
    [+] on a class, greedy [?], capturing and non-capturing groups and
    the end anchor [$] (no [m] flag: end of input only).  The matcher is
    the backtracking matcher of the language specification, written in
    continuation-passing style. *)
(* ===================================================================== *)

Module Regex.

Inductive cset : Type :=
| Only (c : ascii)          (* the character itself, e.g. [\.] or [\/] *)
| Except (c : ascii).       (* [[^c]] *)

Definition accepts (cs : cset) (c : ascii) : bool :=
  match cs with
  | Only d => Ascii.eqb c d
  | Except d => negb (Ascii.eqb c d)
  end.

Inductive regex : Type :=
| Chr (cs : cset)
| Plus (cs : cset)                 (* [cs+], greedy *)
| Cat (r1 r2 : regex)
| Maybe (r : regex)                (* [r?], greedy *)
| Group (n : nat) (r : regex)      (* the n-th capturing group *)
| NoCapture (r : regex)            (* [(?:r)] *)
| Eos.                             (* [$] *)

(** A literal word such as [github\.com\/]. *)
Fixpoint word (w : string) (k : regex) : regex :=
  match w with
  | "" => k
  | String c w' => Cat (Chr (Only c)) (word w' k)
  end.

Definition captures := gmap nat string.

Section Matcher.
Context {R : Type}.

(** Greedy [cs*]: take as many characters as possible, give back one
    at a time while the continuation fails. *)
Fixpoint star (cs : cset) (s : string) (k : string → option R) : option R :=
  match s with
  | String c s' =>
      if accepts cs c then
        match star cs s' k with
        | Some r => Some r
        | None => k s
        end
      else k s
  | "" => k s
  end.

Fixpoint rmatch (r : regex) (s : string) (caps : captures)
    (k : string → captures → option R) : option R :=
  match r with
  | Chr cs =>
      match s with
      | String c s' => if accepts cs c then k s' caps else None
      | "" => None
      end
  | Plus cs =>
      match s with
      | String c s' =>
          if accepts cs c then star cs s' (λ t, k t caps) else None
      | "" => None
      end
  | Cat r1 r2 => rmatch r1 s caps (λ t caps', rmatch r2 t caps' k)
  | Maybe r1 =>
      match rmatch r1 s caps k with
      | Some x => Some x
      | None => k s caps
      end
  | Group n r1 =>
      rmatch r1 s caps (λ t caps', k t (<[n := Str.before s t]> caps'))
  | NoCapture r1 => rmatch r1 s caps k
  | Eos => match s with "" => k s caps | _ => None end
  end.
End Matcher.

(** A successful match: the text in front of it, the matched text, the
    captures and the text after it. *)
Record found := mkFound {
  f_pre : string; f_whole : string; f_caps : captures; f_post : string }.

(** Try the pattern at the current position; on failure advance by one
    character (also tried at the very end of the input). *)
Fixpoint search (r : regex) (pre s : string) : option found :=
  match rmatch r s ∅ (λ t caps, Some (t, caps)) with
  | Some (t, caps) => Some (mkFound pre (Str.before s t) caps t)
  | None =>
      match s with
      | String c s' => search r (Str.snoc pre c) s'
      | "" => None
      end
  end.

(** [s.replace(r, rep)] for a pattern without the [g] flag and a
    replacement text without [$] patterns. *)
Definition replace (r : regex) (rep s : string) : string :=
  match search r "" s with
  | Some f => f_pre f ++ rep ++ f_post f
  | None => s
  end.

(** [s.match(r)] for a pattern without the [g] flag: [null] or the
    match with its groups. *)
Definition match_ (r : regex) (s : string) : option found :=
  search r "" s.

(** [m[n]]; a group that did not take part in the match reads as
    [undefined], rendered here as the empty text. *)
Definition group (m : found) (n : nat) : string :=
  default "" (f_caps m !! n).

End Regex.

(* ===================================================================== *)
(** ** github.ts : parseRepo *)
(* ===================================================================== *)

Import Regex.

Record RepoRef := mkRepoRef { owner : string; repo : string }.

Definition slash : ascii := "/"%char.

(** [/\.git$/] *)
Definition re_dot_git : regex := word ".git" Eos.

(** [/\/$/] *)
Definition re_trailing_slash : regex := word "/" Eos.

(** [/(?:github\.com\/)?([^/]+)\/([^/]+)$/] *)
Definition re_owner_repo : regex :=
  Cat (Maybe (NoCapture (word "github.com" (Chr (Only slash)))))
      (Cat (Group 1 (Plus (Except slash)))
           (Cat (Chr (Only slash))
                (Cat (Group 2 (Plus (Except slash))) Eos))).

Definition parseRepo (input : string) : Outcome RepoRef :=
  let cleaned :=
    Regex.replace re_trailing_slash "" (Regex.replace re_dot_git "" input) in
  match Regex.match_ re_owner_repo cleaned with
  | None => Throw (Error "Invalid repo format. Use owner/repo or a GitHub URL.")
  | Some m => Ok {| owner := Regex.group m 1; repo := Regex.group m 2 |}
  end.

(** The reading of [parseRepo] that the documentation gives, used as
    the reference in the refinement theorem: strip a trailing [.git],
    strip a trailing [/], split at the slashes, and take the last two
    segments, which must both be nonempty. *)
Module RepoSpec.

(** Remove [suf] when the text ends in it. *)
Fixpoint strip_suffix (suf s : string) : string :=
  if String.eqb s suf then ""
  else match s with
       | "" => ""
       | String c s' => String c (strip_suffix suf s')
       end.

(** The segments between the occurrences of [sep] (never empty). *)
Fixpoint split_on (sep : ascii) (s : string) : list string :=
  match s with
  | "" => [""]
  | String c s' =>
      if Ascii.eqb c sep then "" :: split_on sep s'
      else match split_on sep s' with
           | seg :: segs => String c seg :: segs
           | [] => [String c ""]
           end
  end.

Fixpoint last_two (l : list string) : option (string * string) :=
  match l with
  | [] => None
  | x :: l' =>
      match l' with
      | [] => None
      | [y] => Some (x, y)
      | _ :: _ :: _ => last_two l'
      end
  end.

Definition nonempty (s : string) : bool := negb (String.eqb s "").

Definition cleaned (input : string) : string :=
  strip_suffix "/" (strip_suffix ".git" input).

Definition parseRepo (input : string) : Outcome RepoRef :=
  match last_two (split_on slash (cleaned input)) with
  | Some (o, r) =>
      if nonempty o && nonempty r then Ok {| owner := o; repo := r |}
      else Throw (Error "Invalid repo format. Use owner/repo or a GitHub URL.")
  | None => Throw (Error "Invalid repo format. Use owner/repo or a GitHub URL.")
  end.

End RepoSpec.

(* ===================================================================== *)
(** ** JavaScript values

    What [res.json()] resolves to, and what flows through the fields
    that TypeScript declares as [string] but never inspects at run time
    ([sha], [path], [name], ...).  Numbers are the integers; an integer
    that no double represents stands for the double nearest to it, as
    [JSON.parse] reads it. *)
(* ===================================================================== *)

Inductive value : Type :=
| JUndefined
| JNull
| JBool (b : bool)
| JNum (n : Z)
| JStr (s : string)
| JArr (items : list value)
| JObj (fields : list (string * value)).

(** [!!v] *)
Definition truthy (v : value) : bool :=
  match v with
  | JUndefined | JNull => false
  | JBool b => b
  | JNum n => negb (n =? 0)
  | JStr s => negb (String.eqb s "")
  | JArr _ | JObj _ => true
  end.

(** [a || b] *)
Definition js_or (a b : value) : value := if truthy a then a else b.

Fixpoint assoc (k : string) (fields : list (string * value)) : value :=
  match fields with
  | [] => JUndefined
  | (k', v) :: rest => if String.eqb k k' then v else assoc k rest
  end.

(** [v.k]: a [TypeError] on [null] and [undefined], with the message
    as V8 words it; own properties of objects; [undefined] otherwise
    (the built-in properties of strings and arrays are not read through
    this function). *)
Definition get (v : value) (k : string) : Outcome value :=
  match v with
  | JUndefined =>
      Throw (TypeError ("Cannot read properties of undefined (reading '" ++ k ++ "')"))
  | JNull =>
      Throw (TypeError ("Cannot read properties of null (reading '" ++ k ++ "')"))
  | JObj fields => Ok (assoc k fields)
  | _ => Ok JUndefined
  end.

(** *** Numbers as text

    [Number::toString] in base 10 for an integer: the decimal with the
    fewest significant digits that reads back as the same double (the
    closest one when there are several), written out in full up to 21
    digits and in exponent form beyond. *)

(** The double nearest to the natural number [a], ties to the even
    mantissa. *)
Definition nearest_double (a : Z) : Z :=
  if a <? 2 ^ 53 then a
  else
    let e := Z.log2 a - 52 in
    let q := Z.shiftr a e in
    let rest := a - Z.shiftl q e in
    let half := Z.shiftl 1 (e - 1) in
    let q' := if (half <? rest) || ((rest =? half) && Z.odd q) then q + 1 else q in
    Z.shiftl q' e.

Definition digits (a : Z) : Z := Z.of_nat (String.length (pretty a)).

(** The multiple of [10 ^ j] that reads back as [v], if there is one:
    the closer of the two around [v], the even one on a tie. *)
Definition pick (v j : Z) : option Z :=
  let p := 10 ^ j in
  let lo := (v / p) * p in
  let hi := lo + p in
  match nearest_double lo =? v, nearest_double hi =? v with
  | true, true =>
      if (v - lo <? hi - v) || ((v - lo =? hi - v) && Z.even (v / p))
      then Some lo else Some hi
  | true, false => Some lo
  | false, true => Some hi
  | false, false => None
  end.

(** The first hit from the coarsest scale down; [v] itself at scale 0. *)
Fixpoint shortest (v : Z) (j : nat) : Z :=
  match pick v (Z.of_nat j) with
  | Some c => c
  | None => match j with O => v | S j' => shortest v j' end
  end.

(** A numeral without its trailing zeros. *)
Fixpoint drop_zeros (s : string) : string :=
  match s with
  | "" => ""
  | String c s' =>
      match drop_zeros s' with
      | "" => if Ascii.eqb c "0" then "" else String c ""
      | t => String c t
      end
  end.

Definition number_text (n : Z) : string :=
  let sign := if n <? 0 then "-" else "" in
  let v := nearest_double (Z.abs n) in
  if 2 ^ 1024 <=? v then sign ++ "Infinity"
  else
    let c := shortest v (Z.to_nat (digits v - 1)) in
    if digits c <=? 21 then sign ++ pretty c
    else
      sign ++ match drop_zeros (pretty c) with
              | String d "" => String d ""
              | String d more => String d ("." ++ more)
              | "" => ""
              end ++ "e+" ++ pretty (digits c - 1).

(** The conversion to a string that a template literal applies. *)
Fixpoint to_string (v : value) : string :=
  match v with
  | JUndefined => "undefined"
  | JNull => "null"
  | JBool true => "true"
  | JBool false => "false"
  | JNum n => number_text n
  | JStr s => s
  | JArr items =>
      (fix join (l : list value) : string :=
         match l with
         | [] => ""
         | x :: rest =>
             let here := match x with
                         | JUndefined | JNull => ""
                         | _ => to_string x
                         end in
             match rest with
             | [] => here
             | _ :: _ => here ++ "," ++ join rest
             end
         end) items
  | JObj _ => "[object Object]"
  end.

(** [Array.isArray(v)] *)
Definition isArray (v : value) : bool :=
  match v with JArr _ => true | _ => false end.

(** [v === "s"] *)
Definition is_str (v : value) (s : string) : bool :=
  match v with JStr t => String.eqb t s | _ => false end.

(* ===================================================================== *)
(** ** The HTTP surface *)
(* ===================================================================== *)

Record Request := mkRequest {
  req_method : string;
  req_url : string;
  req_headers : list (string * string);
  req_body : value            (* the object given to [JSON.stringify];
                                 [JUndefined] for a request without body *)
}.

Record Response := mkResponse {
  ok : bool;                  (* [res.ok] *)
  status : Z;                 (* [res.status] *)
  json : JsError + value      (* [await res.json()]: rejection or value *)
}.

Inductive FetchOutcome : Type :=
| Rejected (e : JsError)      (* transport failure: the promise rejects *)
| Resolved (r : Response).

(** The collaborators of the component that are not code of these
    files: the remote store behind [fetch], the base64 primitives of the
    platform, and the two functions imported from [./mdx]. *)
Record Parsed := mkParsed {
  parsed_frontmatter : list (string * value);
  parsed_body : string }.

Class Env := {
  Remote : Type;
  fetch : Request → Remote → FetchOutcome * Remote;
  (** [atob(s)]; [None] when it throws *)
  atob : string → option string;
  (** [btoa(unescape(encodeURIComponent(s)))] *)
  btoa_utf8 : string → string;
  (** [parseFile] and [serializeFile] of [./mdx] *)
  parseFile : string → Parsed;
  serializeFile : list (string * value) → string → string
}.

(* ===================================================================== *)
(** ** Asynchronous network code

    An [async] function of [github.ts] runs against the remote store and
    leaves a record of the requests it sent. *)
(* ===================================================================== *)

Record Net `{Env} := mkNet { remote : Remote; sent : list Request }.

Definition Async `{Env} (A : Type) : Type := Net → Outcome A * Net.

Section Async.
Context `{Env}.

Definition ret {A} (a : A) : Async A := λ n, (Ok a, n).
Definition throw {A} (e : JsError) : Async A := λ n, (Throw e, n).
Definition diverge {A} : Async A := λ n, (OutOfFuel, n).

Definition bind {A B} (m : Async A) (f : A → Async B) : Async B :=
  λ n, match m n with
       | (Ok a, n') => f a n'
       | (Throw e, n') => (Throw e, n')
       | (OutOfFuel, n') => (OutOfFuel, n')
       end.

(** [p.catch(h)] *)
Definition catch {A} (m : Async A) (h : JsError → Async A) : Async A :=
  λ n, match m n with
       | (Throw e, n') => h e n'
       | r => r
       end.

(** A synchronous step that may throw. *)
Definition lift {A} (o : Outcome A) : Async A := λ n, (o, n).

(** [await fetch(url, init)] *)
Definition do_fetch (rq : Request) : Async Response :=
  λ n, let '(o, r') := fetch rq (remote n) in
       (match o with Rejected e => Throw e | Resolved r => Ok r end,
        {| remote := r'; sent := (sent n ++ [rq])%list |}).

(** [await res.json()] *)
Definition res_json (res : Response) : Async value :=
  match json res with
  | inl e => throw e
  | inr v => ret v
  end.

(** [for (const x of l) { acc = f(acc, x) }] with [await] inside. *)
Fixpoint for_of {A B} (l : list A) (acc : B) (f : B → A → Async B) : Async B :=
  match l with
  | [] => ret acc
  | x :: l' => bind (f acc x) (λ acc', for_of l' acc' f)
  end.

(** [l.map(f)] for a callback that may throw. *)
Fixpoint map_throwing {A B} (f : A → Outcome B) (l : list A) : Outcome (list B) :=
  match l with
  | [] => Ok []
  | x :: l' =>
      match f x with
      | Ok y =>
          match map_throwing f l' with
          | Ok ys => Ok (y :: ys)
          | Throw e => Throw e
          | OutOfFuel => OutOfFuel
          end
      | Throw e => Throw e
      | OutOfFuel => OutOfFuel
      end
  end.

End Async.

Global Instance async_ret `{Env} : MRet Async := @ret _.
Global Instance async_bind `{Env} : MBind Async := λ A B f m, bind m f.

(* ===================================================================== *)
(** ** github.ts *)
(* ===================================================================== *)

Definition API : string := "https://api.github.com".

Record RepoFile := mkRepoFile {
  rf_name : value; rf_path : value; rf_sha : value; rf_type : value }.

Record FileContent := mkFileContent {
  fc_content : string;        (* decoded *)
  fc_sha : value; fc_path : value; fc_encoding : value }.

Record CommitResult := mkCommitResult { cr_sha : value; cr_html_url : value }.

Definition headers (token : string) : list (string * string) :=
  [ ("Authorization", "Bearer " ++ token);
    ("Accept", "application/vnd.github.v3+json");
    ("Content-Type", "application/json") ].

(** [`${API}/repos/${owner}/${repo}/contents/${path}`] *)
Definition contents_url (owner repo : string) (path : value) : string :=
  API ++ "/repos/" ++ owner ++ "/" ++ repo ++ "/contents/" ++ to_string path.

(** [s.replace(/\n/g, "")] *)
Fixpoint remove_newlines (s : string) : string :=
  match s with
  | "" => ""
  | String c s' =>
      if Ascii.eqb c "010"%char then remove_newlines s'
      else String c (remove_newlines s')
  end.

(** The request that [putFile] sends. *)
Definition put_request `{Env} (token owner repo : string) (path : value)
    (content message : string) (sha : value) : Request :=
  let body :=
    ([ ("message", JStr message); ("content", JStr (btoa_utf8 content)) ]
     ++ (if truthy sha then [("sha", sha)] else []))%list in
  mkRequest "PUT" (contents_url owner repo path) (headers token) (JObj body).

Section GitHub.
Context `{Env}.

Definition validateToken (token owner repo : string) : Async bool :=
  res ← do_fetch (mkRequest "GET" (API ++ "/repos/" ++ owner ++ "/" ++ repo)
                    (headers token) JUndefined) ;
  ret (ok res).

Definition listFiles (token owner repo : string) (path : value)
    : Async (list RepoFile) :=
  res ← do_fetch (mkRequest "GET" (contents_url owner repo path)
                    (headers token) JUndefined) ;
  if negb (ok res) then
    throw (Error ("Failed to list " ++ to_string path ++ ": " ++ pretty (status res)))
  else
    data ← res_json res ;
    match data with
    | JArr items =>
        lift (map_throwing
                (λ f, match get f "name", get f "path", get f "sha", get f "type" with
                      | Ok n, Ok p, Ok s, Ok t => Ok (mkRepoFile n p s t)
                      | Throw e, _, _, _ | _, Throw e, _, _
                      | _, _, Throw e, _ | _, _, _, Throw e => Throw e
                      | _, _, _, _ => OutOfFuel
                      end)
                items)
    | _ => ret []
    end.

(** The recursion follows the directories the remote store reports;
    [fuel] bounds its depth. *)
Fixpoint listFilesRecursive (fuel : nat) (token owner repo : string)
    (path : value) : Async (list RepoFile) :=
  match fuel with
  | O => diverge
  | S fuel' =>
      items ← listFiles token owner repo path ;
      for_of items []
        (λ results item,
           if is_str (rf_type item) "file" then ret (results ++ [item])%list
           else if is_str (rf_type item) "dir" then
             children ← listFilesRecursive fuel' token owner repo (rf_path item) ;
             ret (results ++ children)%list
           else ret results)
  end.

Definition getFile (token owner repo : string) (path : value)
    : Async FileContent :=
  res ← do_fetch (mkRequest "GET" (contents_url owner repo path)
                    (headers token) JUndefined) ;
  if negb (ok res) then
    throw (Error ("Failed to get " ++ to_string path ++ ": " ++ pretty (status res)))
  else
    data ← res_json res ;
    c ← lift (get data "content") ;
    match c with
    | JStr b64 =>
        match atob (remove_newlines b64) with
        | Some content =>
            sha ← lift (get data "sha") ;
            p ← lift (get data "path") ;
            enc ← lift (get data "encoding") ;
            ret (mkFileContent content sha p enc)
        | None =>
            throw (mkError "InvalidCharacterError"
                     "The string to be decoded is not correctly encoded.")
        end
    | JUndefined =>
        throw (TypeError "Cannot read properties of undefined (reading 'replace')")
    | JNull =>
        throw (TypeError "Cannot read properties of null (reading 'replace')")
    | _ => throw (TypeError "data.content.replace is not a function")
    end.

Definition putFile (token owner repo : string) (path : value)
    (content message : string) (sha : value) : Async CommitResult :=
  res ← do_fetch (put_request token owner repo path content message sha) ;
  if negb (ok res) then
    err ← catch (res_json res) (λ _, ret (JObj [])) ;
    m ← lift (get err "message") ;
    throw (Error ("Failed to save " ++ to_string path ++ ": "
                  ++ pretty (status res) ++ " "
                  ++ to_string (js_or m (JStr ""))))
  else
    data ← res_json res ;
    commit ← lift (get data "commit") ;
    sha' ← lift (get commit "sha") ;
    url ← lift (get commit "html_url") ;
    ret (mkCommitResult sha' url).

End GitHub.

(* ===================================================================== *)
(** ** storage.ts *)
(* ===================================================================== *)

Record Credentials := mkCredentials {
  token : string; cred_owner : string; cred_repo : string }.

Record Draft := mkDraft {
  d_path : value;
  d_content : string;
  d_frontmatter : list (string * value);
  d_savedAt : Z }.

(** The local persistence store: one draft per path, the saved
    credentials, and (for the statements about autosave) the sequence of
    draft writes it has received. *)
Record Storage := mkStorage {
  drafts : gmap string Draft;
  credentials : option Credentials;
  draft_writes : list Draft }.

(** Modelled from the spec: [getDraft] of [./storage], which is not among
    the source files; section 4.3 describes it as a lookup keyed by
    path. *)
Definition getDraft (path : value) (st : Storage) : option Draft :=
  drafts st !! to_string path.

(** Modelled from the spec: [saveDraft] of [./storage]; keyed by path,
    last write wins (section 4.3), so at most one draft per path. *)
Definition saveDraft (path : value) (d : Draft) (st : Storage) : Storage :=
  mkStorage (<[to_string path := d]> (drafts st)) (credentials st)
            (draft_writes st ++ [d]).

(** Modelled from the spec: [removeDraft] of [./storage]; keyed by path
    (section 4.3). *)
Definition removeDraft (path : value) (st : Storage) : Storage :=
  mkStorage (delete (to_string path) (drafts st)) (credentials st)
            (draft_writes st).

(** Modelled from the spec: [getCredentials], [saveCredentials] and
    [clearCredentials] of [./storage] (section 4.3). *)
Definition getCredentials (st : Storage) : option Credentials := credentials st.

Definition saveCredentials (c : Credentials) (st : Storage) : Storage :=
  mkStorage (drafts st) (Some c) (draft_writes st).

Definition clearCredentials (st : Storage) : Storage :=
  mkStorage (drafts st) None (draft_writes st).

(* ===================================================================== *)
(** ** MobileApp.tsx : the state of the component *)
(* ===================================================================== *)

Inductive Screen := login | browser | editor.
Inductive EditorTab := edit | preview | frontmatter_tab.

Record AppState := mkAppState {
  screen : Screen;
  creds : option Credentials;
  loading : bool;
  error : option string;
  success : option string;
  files : list RepoFile;
  currentFile : option FileContent;
  currentSha : value;
  editorTab : EditorTab;
  body : string;
  frontmatter : list (string * value);
  dirty : bool;
  showCommit : bool;
  commitMessage : string;
  committing : bool
}.

Definition initial_state : AppState := {|
  screen := login; creds := None; loading := true; error := None;
  success := None; files := []; currentFile := None; currentSha := JNull;
  editorTab := edit; body := ""; frontmatter := []; dirty := false;
  showCommit := false; commitMessage := ""; committing := false |}.

(** One entry [field: v] of the object given to [set]. *)
Inductive Assign : Type :=
| p_screen (v : Screen)
| p_creds (v : option Credentials)
| p_loading (v : bool)
| p_error (v : option string)
| p_success (v : option string)
| p_files (v : list RepoFile)
| p_currentFile (v : option FileContent)
| p_currentSha (v : value)
| p_editorTab (v : EditorTab)
| p_body (v : string)
| p_frontmatter (v : list (string * value))
| p_dirty (v : bool)
| p_showCommit (v : bool)
| p_commitMessage (v : string)
| p_committing (v : bool).

Definition assign (s : AppState) (a : Assign) : AppState :=
  match a with
  | p_screen v =>
      mkAppState v (s.(creds)) (s.(loading)) (s.(error)) (s.(success)) (s.(files)) (s.(currentFile)) (s.(currentSha)) (s.(editorTab)) (s.(body)) (s.(frontmatter)) (s.(dirty)) (s.(showCommit)) (s.(commitMessage)) (s.(committing))
  | p_creds v =>
      mkAppState (s.(screen)) v (s.(loading)) (s.(error)) (s.(success)) (s.(files)) (s.(currentFile)) (s.(currentSha)) (s.(editorTab)) (s.(body)) (s.(frontmatter)) (s.(dirty)) (s.(showCommit)) (s.(commitMessage)) (s.(committing))
  | p_loading v =>
      mkAppState (s.(screen)) (s.(creds)) v (s.(error)) (s.(success)) (s.(files)) (s.(currentFile)) (s.(currentSha)) (s.(editorTab)) (s.(body)) (s.(frontmatter)) (s.(dirty)) (s.(showCommit)) (s.(commitMessage)) (s.(committing))
  | p_error v =>
      mkAppState (s.(screen)) (s.(creds)) (s.(loading)) v (s.(success)) (s.(files)) (s.(currentFile)) (s.(currentSha)) (s.(editorTab)) (s.(body)) (s.(frontmatter)) (s.(dirty)) (s.(showCommit)) (s.(commitMessage)) (s.(committing))
  | p_success v =>
      mkAppState (s.(screen)) (s.(creds)) (s.(loading)) (s.(error)) v (s.(files)) (s.(currentFile)) (s.(currentSha)) (s.(editorTab)) (s.(body)) (s.(frontmatter)) (s.(dirty)) (s.(showCommit)) (s.(commitMessage)) (s.(committing))
  | p_files v =>
      mkAppState (s.(screen)) (s.(creds)) (s.(loading)) (s.(error)) (s.(success)) v (s.(currentFile)) (s.(currentSha)) (s.(editorTab)) (s.(body)) (s.(frontmatter)) (s.(dirty)) (s.(showCommit)) (s.(commitMessage)) (s.(committing))
  | p_currentFile v =>
      mkAppState (s.(screen)) (s.(creds)) (s.(loading)) (s.(error)) (s.(success)) (s.(files)) v (s.(currentSha)) (s.(editorTab)) (s.(body)) (s.(frontmatter)) (s.(dirty)) (s.(showCommit)) (s.(commitMessage)) (s.(committing))
  | p_currentSha v =>
      mkAppState (s.(screen)) (s.(creds)) (s.(loading)) (s.(error)) (s.(success)) (s.(files)) (s.(currentFile)) v (s.(editorTab)) (s.(body)) (s.(frontmatter)) (s.(dirty)) (s.(showCommit)) (s.(commitMessage)) (s.(committing))
  | p_editorTab v =>
      mkAppState (s.(screen)) (s.(creds)) (s.(loading)) (s.(error)) (s.(success)) (s.(files)) (s.(currentFile)) (s.(currentSha)) v (s.(body)) (s.(frontmatter)) (s.(dirty)) (s.(showCommit)) (s.(commitMessage)) (s.(committing))
  | p_body v =>
      mkAppState (s.(screen)) (s.(creds)) (s.(loading)) (s.(error)) (s.(success)) (s.(files)) (s.(currentFile)) (s.(currentSha)) (s.(editorTab)) v (s.(frontmatter)) (s.(dirty)) (s.(showCommit)) (s.(commitMessage)) (s.(committing))
  | p_frontmatter v =>
      mkAppState (s.(screen)) (s.(creds)) (s.(loading)) (s.(error)) (s.(success)) (s.(files)) (s.(currentFile)) (s.(currentSha)) (s.(editorTab)) (s.(body)) v (s.(dirty)) (s.(showCommit)) (s.(commitMessage)) (s.(committing))
  | p_dirty v =>
      mkAppState (s.(screen)) (s.(creds)) (s.(loading)) (s.(error)) (s.(success)) (s.(files)) (s.(currentFile)) (s.(currentSha)) (s.(editorTab)) (s.(body)) (s.(frontmatter)) v (s.(showCommit)) (s.(commitMessage)) (s.(committing))
  | p_showCommit v =>
      mkAppState (s.(screen)) (s.(creds)) (s.(loading)) (s.(error)) (s.(success)) (s.(files)) (s.(currentFile)) (s.(currentSha)) (s.(editorTab)) (s.(body)) (s.(frontmatter)) (s.(dirty)) v (s.(commitMessage)) (s.(committing))
  | p_commitMessage v =>
      mkAppState (s.(screen)) (s.(creds)) (s.(loading)) (s.(error)) (s.(success)) (s.(files)) (s.(currentFile)) (s.(currentSha)) (s.(editorTab)) (s.(body)) (s.(frontmatter)) (s.(dirty)) (s.(showCommit)) v (s.(committing))
  | p_committing v =>
      mkAppState (s.(screen)) (s.(creds)) (s.(loading)) (s.(error)) (s.(success)) (s.(files)) (s.(currentFile)) (s.(currentSha)) (s.(editorTab)) (s.(body)) (s.(frontmatter)) (s.(dirty)) (s.(showCommit)) (s.(commitMessage)) v
  end.

(** [{ ...s, ...patch }] *)
Definition apply_patch (patch : list Assign) (s : AppState) : AppState :=
  fold_left assign patch s.

(** Every [frontmatter] the component puts into a patch is an object
    that was just built (by the form, by the parser, by the draft store
    or as the literal [{}]), so it is never identical to the one in the
    state. *)
Definition replaces_frontmatter (patch : list Assign) : bool :=
  existsb (λ a, match a with p_frontmatter _ => true | _ => false end) patch.

(** The dependency array [[state.body, state.frontmatter, state.dirty]]
    compared with [Object.is]. *)
Definition deps_changed (old new : AppState) (fresh_frontmatter : bool) : bool :=
  negb (String.eqb (body old) (body new))
  || fresh_frontmatter
  || negb (Bool.eqb (dirty old) (dirty new)).

(* ===================================================================== *)
(** ** The event loop: timeouts and the clock *)
(* ===================================================================== *)

(** The two callbacks that the component hands to [setTimeout], each
    with the values its closure holds. *)
Inductive TimerAction : Type :=
| AutoSave (path : value) (content : string) (fm : list (string * value))
| ClearSuccess.

Record Timer := mkTimer { tid : nat; fire_at : Z; action : TimerAction }.

Definition is_autosave (t : Timer) : bool :=
  match action t with AutoSave _ _ _ => true | ClearSuccess => false end.

(** The running application: the React state, the cleanup function of
    the autosave effect (the timer it will clear), the pending timeouts,
    [Date.now()], the local store and the remote side. *)
Record System `{Env} := mkSystem {
  app : AppState;
  cleanup : option nat;
  timers : list Timer;
  next_tid : nat;
  now : Z;
  store : Storage;
  net : Net
}.

Section EventLoop.
Context `{Env}.

Definition with_app (a : AppState) (sys : System) : System :=
  mkSystem _ a (cleanup sys) (timers sys) (next_tid sys) (now sys) (store sys) (net sys).
Definition with_cleanup (c : option nat) (sys : System) : System :=
  mkSystem _ (app sys) c (timers sys) (next_tid sys) (now sys) (store sys) (net sys).
Definition with_timers (ts : list Timer) (sys : System) : System :=
  mkSystem _ (app sys) (cleanup sys) ts (next_tid sys) (now sys) (store sys) (net sys).
Definition with_now (t : Z) (sys : System) : System :=
  mkSystem _ (app sys) (cleanup sys) (timers sys) (next_tid sys) t (store sys) (net sys).
Definition with_store (st : Storage) (sys : System) : System :=
  mkSystem _ (app sys) (cleanup sys) (timers sys) (next_tid sys) (now sys) st (net sys).
Definition with_net (n : Net) (sys : System) : System :=
  mkSystem _ (app sys) (cleanup sys) (timers sys) (next_tid sys) (now sys) (store sys) n.

(** [setTimeout(action, delay)] returns the id of the new timer. *)
Definition setTimeout (a : TimerAction) (delay : Z) (sys : System) : nat * System :=
  let id := next_tid sys in
  (id, mkSystem _ (app sys) (cleanup sys)
         (timers sys ++ [mkTimer id (now sys + delay) a])
         (S id) (now sys) (store sys) (net sys)).

(** [clearTimeout(id)]; no effect when the timer has run already. *)
Definition clearTimeout (id : nat) (sys : System) : System :=
  with_timers (filter (λ t, tid t ≠ id) (timers sys)) sys.

(** Run an [async] function of [github.ts] to completion. *)
Definition await {A} (m : Async A) (sys : System) : Outcome A * System :=
  let '(r, n) := m (net sys) in (r, with_net n sys).

End EventLoop.

(* ===================================================================== *)
(** ** MobileApp.tsx : the component *)
(* ===================================================================== *)

Section MobileApp.
Context `{Env}.

(** The autosave effect: the cleanup of the previous run, then the
    body of the effect. *)
Definition autosave_effect (sys : System) : System :=
  let sys := match cleanup sys with
             | Some id => clearTimeout id sys
             | None => sys
             end in
  match currentFile (app sys), dirty (app sys) with
  | Some f, true =>
      let '(id, sys) :=
        setTimeout (AutoSave (fc_path f) (body (app sys)) (frontmatter (app sys)))
                   1000 sys in
      with_cleanup (Some id) sys
  | _, _ => with_cleanup None sys
  end.

(** [set(patch)]: the state update, the render it causes, and the
    effect when one of its dependencies changed. *)
Definition set (patch : list Assign) (sys : System) : System :=
  let old := app sys in
  let sys := with_app (apply_patch patch old) sys in
  if deps_changed old (app sys) (replaces_frontmatter patch)
  then autosave_effect sys
  else sys.

(** The two listings of [loadFiles] are started together; the model
    runs them one after the other. *)
Definition loadFiles (fuel : nat) (c : Credentials) (sys : System) : System :=
  let sys := set [p_loading true; p_error None] sys in
  let '(r, sys) :=
    await (pages ← catch (listFilesRecursive fuel (token c) (cred_owner c) (cred_repo c)
                            (JStr "src/content/pages"))
                         (λ _, ret []) ;
           posts ← catch (listFilesRecursive fuel (token c) (cred_owner c) (cred_repo c)
                            (JStr "src/content/posts"))
                         (λ _, ret []) ;
           ret (pages, posts)) sys in
  match r with
  | Ok (pages, posts) => set [p_files (pages ++ posts); p_loading false] sys
  | Throw e => set [p_error (Some (err_message e)); p_loading false] sys
  | OutOfFuel => sys
  end.

(** The effect that runs when the component is mounted. *)
Definition init (fuel : nat) (sys : System) : System :=
  match getCredentials (store sys) with
  | Some c =>
      loadFiles fuel c (set [p_creds (Some c); p_screen browser; p_loading false] sys)
  | None => set [p_loading false] sys
  end.

Definition handleLogin (fuel : nat) (repoInput tok : string) (sys : System) : System :=
  let sys := set [p_loading true; p_error None] sys in
  match parseRepo repoInput with
  | Ok r =>
      let '(valid, sys) := await (validateToken tok (owner r) (repo r)) sys in
      match valid with
      | Ok false =>
          set [p_error (Some "Invalid token or no access to repo."); p_loading false] sys
      | Ok true =>
          let c := mkCredentials tok (owner r) (repo r) in
          let sys := with_store (saveCredentials c (store sys)) sys in
          loadFiles fuel c (set [p_creds (Some c); p_screen browser; p_loading false] sys)
      | Throw e => set [p_error (Some (err_message e)); p_loading false] sys
      | OutOfFuel => sys
      end
  | Throw e => set [p_error (Some (err_message e)); p_loading false] sys
  | OutOfFuel => sys
  end.

Definition handleLogout (sys : System) : System :=
  let sys := with_store (clearCredentials (store sys)) sys in
  set [p_screen login; p_creds None; p_files []; p_currentFile None;
       p_error None; p_success None] sys.

Definition openFile (file : RepoFile) (sys : System) : System :=
  match creds (app sys) with
  | None => sys
  | Some c =>
      let sys := set [p_loading true; p_error None] sys in
      let draft := getDraft (rf_path file) (store sys) in
      let '(r, sys) :=
        await (getFile (token c) (cred_owner c) (cred_repo c) (rf_path file)) sys in
      match r with
      | Ok remote_file =>
          let '(body', frontmatter', dirty') :=
            match draft with
            | Some d =>
                if 0 <? d_savedAt d then (d_content d, d_frontmatter d, true)
                else let parsed := parseFile (fc_content remote_file) in
                     (parsed_body parsed, parsed_frontmatter parsed, false)
            | None =>
                let parsed := parseFile (fc_content remote_file) in
                (parsed_body parsed, parsed_frontmatter parsed, false)
            end in
          set [p_screen editor;
               p_currentFile (Some remote_file);
               p_currentSha (fc_sha remote_file);
               p_body body';
               p_frontmatter frontmatter';
               p_editorTab edit;
               p_dirty dirty';
               p_loading false;
               p_commitMessage ("Update " ++ to_string (rf_name file))] sys
      | Throw e => set [p_error (Some (err_message e)); p_loading false] sys
      | OutOfFuel => sys
      end
  end.

(** The two edit callbacks that [MobileApp] gives to [Editor]. *)
Definition onBodyChange (b : string) (sys : System) : System :=
  set [p_body b; p_dirty true] sys.

Definition onFrontmatterChange (fm : list (string * value)) (sys : System) : System :=
  set [p_frontmatter fm; p_dirty true] sys.

Definition handleCommit (sys : System) : System :=
  match creds (app sys), currentFile (app sys) with
  | Some c, Some f =>
      let state := app sys in
      let sys := set [p_committing true; p_error None] sys in
      let content := serializeFile (frontmatter state) (body state) in
      let '(r, sys) :=
        await (putFile (token c) (cred_owner c) (cred_repo c) (fc_path f)
                 content (commitMessage state)
                 (js_or (currentSha state) JUndefined)) sys in
      match r with
      | Ok result =>
          let sys := with_store (removeDraft (fc_path f) (store sys)) sys in
          let sys := set [p_currentSha (cr_sha result);
                          p_dirty false;
                          p_showCommit false;
                          p_committing false;
                          p_success (Some "Committed! Cloudflare will deploy shortly.")]
                         sys in
          snd (setTimeout ClearSuccess 5000 sys)
      | Throw e => set [p_error (Some (err_message e)); p_committing false] sys
      | OutOfFuel => sys
      end
  | _, _ => sys
  end.

Definition goBack (fuel : nat) (sys : System) : System :=
  let state := app sys in
  let sys := set [p_screen browser; p_currentFile None; p_currentSha JNull;
                  p_body ""; p_frontmatter []; p_dirty false; p_editorTab edit;
                  p_error None; p_success None] sys in
  match creds state with
  | Some c => loadFiles fuel c sys
  | None => sys
  end.

(** A timeout fires: its callback runs at the deadline. *)
Definition fire (t : Timer) (sys : System) : System :=
  let sys := with_now (Z.max (now sys) (fire_at t)) sys in
  match action t with
  | AutoSave p content fm =>
      with_store (saveDraft p (mkDraft p content fm (now sys)) (store sys)) sys
  | ClearSuccess => set [p_success None] sys
  end.

(** Timers in the order in which they fire: by deadline, and for
    equal deadlines in the order of their creation. *)
Fixpoint insert_by_deadline (t : Timer) (l : list Timer) : list Timer :=
  match l with
  | [] => [t]
  | u :: l' =>
      if fire_at t <? fire_at u then t :: l
      else u :: insert_by_deadline t l'
  end.

Definition by_deadline (l : list Timer) : list Timer :=
  fold_left (λ sorted t, insert_by_deadline t sorted) l [].

(** [dt] milliseconds pass without any event from the user: every
    timeout whose deadline is reached fires. *)
Definition elapse (dt : Z) (sys : System) : System :=
  let target := now sys + Z.max 0 dt in
  let ready := filter (λ t, fire_at t ≤ target) (timers sys) in
  let waiting := filter (λ t, ¬ fire_at t ≤ target) (timers sys) in
  let sys := fold_left (λ s t, fire t s) (by_deadline ready) (with_timers waiting sys) in
  with_now target sys.

End MobileApp.

(* ===================================================================== *)
(** ** A small remote store

    One concrete environment, used to run the component on examples: a
    store that answers like the contents API of GitHub.  A file has a
    version token (the sha of its blob); a write names the token it
    expects and is refused with status 409 when the file has another
    one; the answer to a write carries the new token of the file under
    [content.sha] and the id of the commit under [commit.sha]. *)
(* ===================================================================== *)

Module Hub.

Record File := mkFile { h_path : string; h_content : string; h_sha : string }.

Record State := mkState { h_files : list File; h_commits : Z }.

Definition the_owner : string := "danrichardson".
Definition the_repo : string := "loomwork".
Definition the_token : string := "ghp_valid".

Definition url_of (path : string) : string :=
  contents_url the_owner the_repo (JStr path).

Definition find_file (url : string) (st : State) : option File :=
  find (λ f, String.eqb (url_of (h_path f)) url) (h_files st).

Definition entry (f : File) : value :=
  JObj [ ("name", JStr (h_path f)); ("path", JStr (h_path f));
         ("sha", JStr (h_sha f)); ("type", JStr "file") ].

Definition listing (url : string) (st : State) : list File :=
  filter (λ f, String.prefix (url ++ "/") (url_of (h_path f)) = true) (h_files st).

Definition reply (code : Z) (v : value) : FetchOutcome :=
  Resolved (mkResponse (bool_decide (200 ≤ code < 300)) code (inr v)).

Definition failure (code : Z) (msg : string) : FetchOutcome :=
  reply code (JObj [("message", JStr msg)]).

Definition authorized (rq : Request) : bool :=
  existsb (λ h, String.eqb (fst h) "Authorization"
                && String.eqb (snd h) ("Bearer " ++ the_token))
          (req_headers rq).

(** The submitted version token in the message of a refusal. *)
Definition shown (expected : value) : string :=
  match expected with
  | JStr s => s
  | _ => "the submitted sha"
  end.

Definition write (url : string) (path content : string) (st : State)
    : FetchOutcome * State :=
  let n := h_commits st + 1 in
  let blob := "blob-" ++ pretty n in
  let others := filter (λ f, String.eqb (url_of (h_path f)) url = false) (h_files st) in
  (reply 200 (JObj [ ("content", JObj [("path", JStr path); ("sha", JStr blob)]);
                     ("commit", JObj [("sha", JStr ("commit-" ++ pretty n));
                                      ("html_url", JStr ("https://github.com/commit/" ++ pretty n))]) ]),
   mkState (others ++ [mkFile path content blob]) n).

Definition respond (rq : Request) (st : State) : FetchOutcome * State :=
  if negb (authorized rq) then (failure 401 "Bad credentials", st)
  else if String.eqb (req_method rq) "GET" then
    match find_file (req_url rq) st with
    | Some f =>
        (reply 200 (JObj [ ("content", JStr (h_content f)); ("sha", JStr (h_sha f));
                           ("path", JStr (h_path f)); ("encoding", JStr "base64") ]), st)
    | None =>
        match listing (req_url rq) st with
        | [] => (failure 404 "Not Found", st)
        | fs => (reply 200 (JArr (map entry fs)), st)
        end
    end
  else if String.eqb (req_method rq) "PUT" then
    match get (req_body rq) "content", get (req_body rq) "sha" with
    | Ok (JStr content), Ok expected =>
        match find_file (req_url rq) st with
        | Some f =>
            if is_str expected (h_sha f)
            then write (req_url rq) (h_path f) content st
            else (failure 409 (h_path f ++ " does not match " ++ shown expected), st)
        | None => (failure 404 "Not Found", st)
        end
    | _, _ => (failure 422 "Invalid request.", st)
    end
  else (failure 404 "Not Found", st).

(** The environment: the store above, base64 as the identity, and a
    file format without a metadata header. *)
Definition env : Env := {|
  Remote := State;
  fetch := respond;
  atob := Some;
  btoa_utf8 := id;
  parseFile := λ s, mkParsed [] s;
  serializeFile := λ _ b, b |}.

Definition hello : string := "src/content/posts/hello.mdx".

Definition files0 : State := mkState [mkFile hello "Hello" "blob-0"] 0.

Definition me : Credentials := mkCredentials the_token the_owner the_repo.

Definition logged_in : AppState :=
  mkAppState browser (Some me) false None None [] None JNull edit "" [] false false "" false.

(** The application on the browser screen, signed in, at time 5000. *)
Definition sys0 : @System env :=
  @mkSystem env logged_in None [] 0%nat 5000
     (mkStorage ∅ (Some me) []) (@mkNet env files0 []).

Definition hello_entry : RepoFile :=
  mkRepoFile (JStr "hello.mdx") (JStr hello) (JStr "blob-0") (JStr "file").

(** A session: open the post, type a new body, pause 1.2 seconds,
    publish, type again, publish again. *)
Definition opened : @System env := @openFile env hello_entry sys0.
Definition edited : @System env := @onBodyChange env "New body" opened.
Definition saved : @System env := @elapse env 1200 edited.
Definition committed : @System env := @handleCommit env saved.
Definition edited_again : @System env := @onBodyChange env "Newer body" committed.
Definition committed_again : @System env := @handleCommit env edited_again.



(** The file of the session, as [openFile] read it. *)
Definition hello_file : FileContent :=
  mkFileContent "Hello" (JStr "blob-0") (JStr hello) (JStr "base64").

(** The session after a no-op edit: the body is typed again unchanged
    once the autosave has run. *)
Definition retyped : @System env := @onBodyChange env "New body" saved.

(** The session after going back to the browser with a draft stored. *)
Definition back : @System env := @goBack env 3 saved.

(** The draft that the autosave of [saved] wrote. *)
Definition hello_draft : Draft := mkDraft (JStr hello) "New body" [] 6000.

(** The application signed in to a repository without content, and an
    entry of a listing whose file is gone from the store. *)
Definition bare : @System env :=
  @with_net env (@mkNet env (mkState [] 0) []) sys0.

Definition gone_entry : RepoFile :=
  mkRepoFile (JStr "gone.mdx") (JStr "src/content/posts/gone.mdx")
             (JStr "blob-3") (JStr "file").

End Hub.

(* ===================================================================== *)
(** ** Vocabulary of the statements *)
(* ===================================================================== *)

(** The longest prefix of characters of a class, and what follows it. *)
Fixpoint run_of (cs : cset) (s : string) : string :=
  match s with
  | String c s' => if accepts cs c then String c (run_of cs s') else ""
  | "" => ""
  end.

Fixpoint after_run (cs : cset) (s : string) : string :=
  match s with
  | String c s' => if accepts cs c then after_run cs s' else s
  | "" => ""
  end.

(** [strip_prefix w s] is [Some t] when [s = w ++ t]. *)
Fixpoint strip_prefix (w s : string) : option string :=
  match w with
  | "" => Some s
  | String c w' =>
      match s with
      | String d s' => if Ascii.eqb d c then strip_prefix w' s' else None
      | "" => None
      end
  end.

(** Vocabulary for the owner/repo pattern. *)

Definition not_slash : cset := Except slash.

(** The text is [o/r] with [o] and [r] nonempty and free of slashes. *)
Definition two_segments (s : string) : option (string * string) :=
  match run_of not_slash s, after_run not_slash s with
  | String _ _ as o, String _ t =>
      match run_of not_slash t, after_run not_slash t with
      | String _ _ as r, "" => Some (o, r)
      | _, _ => None
      end
  | _, _ => None
  end.

Definition core_re : regex :=
  Cat (Group 1 (Plus not_slash))
      (Cat (Chr (Only slash)) (Cat (Group 2 (Plus not_slash)) Eos)).

(** What the specification accepts, written on the segments. *)
Definition accepted (segs : list string) : option (string * string) :=
  match RepoSpec.last_two segs with
  | Some (o, r) =>
      if RepoSpec.nonempty o && RepoSpec.nonempty r then Some (o, r) else None
  | None => None
  end.

(** The optional [github.com/] in front. *)
Definition github_prefix (s : string) : option string :=
  match strip_prefix "github.com" s with
  | Some (String d t) => if Ascii.eqb d slash then Some t else None
  | _ => None
  end.

Definition hit (p : string * string) : string * captures :=
  ("", <[2%nat := p.2]> (<[1%nat := p.1]> ∅)).

Definition owner_repo_of (f : found) : string * string :=
  (Regex.group f 1, Regex.group f 2).


(** Vocabulary for the session. *)

(** In the answer to a write, the remote store reports the new version
    token of the written file as [content.sha] (and the id of the commit
    as [commit.sha]). *)
Definition written_file_token (data : value) : Outcome value :=
  match get data "content" with
  | Ok c => get c "sha"
  | Throw e => Throw e
  | OutOfFuel => OutOfFuel
  end.

(** A remote write fails: the transport fails or the store answers with
    a status that is not ok (stale version token, bad credentials, ...). *)
Definition write_fails (o : FetchOutcome) : Prop :=
  match o with
  | Rejected _ => True
  | Resolved r => ok r = false
  end.

(** No character of the text is [c]. *)
Fixpoint free_of (c : ascii) (s : string) : bool :=
  match s with
  | "" => true
  | String d s' => negb (Ascii.eqb d c) && free_of c s'
  end.

(** The error that [getFile] throws for an answer that is not ok. *)
Definition read_error (path : value) (st : Z) : JsError :=
  Error ("Failed to get " ++ to_string path ++ ": " ++ pretty st).

(** The error that [listFiles] throws for an answer that is not ok. *)
Definition list_error (path : value) (st : Z) : JsError :=
  Error ("Failed to list " ++ to_string path ++ ": " ++ pretty st).

(** What [putFile] reads as the body of a refusal:
    [await res.json().catch(() => ({}))]. *)
Definition error_body (res : Response) : value :=
  match json res with
  | inl _ => JObj []
  | inr v => v
  end.

(** The error that [putFile] throws for a refusal with status [st] and
    [message] property [m]. *)
Definition save_error (path : value) (st : Z) (m : value) : JsError :=
  Error ("Failed to save " ++ to_string path ++ ": " ++ pretty st ++ " "
         ++ to_string (js_or m (JStr ""))).

(** The edits the editor hands to the component. *)
Inductive Edit : Type :=
| EditBody (b : string)
| EditFrontmatter (fm : list (string * value)).


(** The order in which timers fire. *)
Definition earlier (a b : Timer) : Prop := fire_at a ≤ fire_at b.

(** An entry of a patch that leaves [body], [frontmatter] and [dirty]
    alone; a patch of such entries does not run the autosave effect. *)
Definition quiet (a : Assign) : bool :=
  match a with
  | p_body _ | p_frontmatter _ | p_dirty _ => false
  | _ => true
  end.

Section Vocabulary.
Context `{Env}.

(** The request that a commit of the current session sends. *)
Definition commit_request (sys : System) (c : Credentials) (f : FileContent) : Request :=
  put_request (token c) (cred_owner c) (cred_repo c) (fc_path f)
    (serializeFile (frontmatter (app sys)) (body (app sys)))
    (commitMessage (app sys))
    (js_or (currentSha (app sys)) JUndefined).

(** The request that reads (or lists) a path. *)
Definition read_request (c : Credentials) (path : value) : Request :=
  mkRequest "GET" (contents_url (cred_owner c) (cred_repo c) path)
    (headers (token c)) JUndefined.

(** How the remote store answers a request in the current state. *)
Definition answer (rq : Request) (n : Net) : FetchOutcome :=
  fst (fetch rq (remote n)).


Definition apply_edit (e : Edit) (sys : System) : System :=
  match e with
  | EditBody b => onBodyChange b sys
  | EditFrontmatter fm => onFrontmatterChange fm sys
  end.



(** An edit that changes a dependency of the autosave effect: another
    body text, a new frontmatter object, or the first edit of a clean
    session.  These are the edits that the editor raises: its textarea
    is controlled by [state.body], so a change event carries another
    text, and [update] of the form builds a new object each time. *)
Definition changes (e : Edit) (sys : System) : bool :=
  match e with
  | EditBody b => negb (String.eqb (body (app sys)) b) || negb (dirty (app sys))
  | EditFrontmatter _ => true
  end.

Definition pending_autosaves (sys : System) : list Timer :=
  filter (λ t, is_autosave t = true) (timers sys).

(** At most one autosave is pending, and it is the one that the
    cleanup of the effect will clear. *)
Definition tidy (sys : System) : Prop :=
  pending_autosaves sys = [] ∨
  ∃ t, pending_autosaves sys = [t] ∧ cleanup sys = Some (tid t).

(** The timeouts that have fired, in order. *)
Definition fire_all (l : list Timer) (sys : System) : System :=
  fold_left (λ s t, fire t s) l sys.

(** The autosave that an edit schedules at time [now sys]. *)
Definition autosave_of (f : FileContent) (sys : System) : TimerAction :=
  AutoSave (fc_path f) (body (app sys)) (frontmatter (app sys)).

End Vocabulary.

(* ===================================================================== *)
(** ** github.ts : deleteFile *)
(* ===================================================================== *)

(** The request that [deleteFile] sends. *)
Definition delete_request (token owner repo : string) (path sha : value)
    (message : string) : Request :=
  mkRequest "DELETE" (contents_url owner repo path) (headers token)
    (JObj [("message", JStr message); ("sha", sha)]).

(** The error that [deleteFile] throws for an answer that is not ok. *)
Definition delete_error (path : value) (st : Z) : JsError :=
  Error ("Failed to delete " ++ to_string path ++ ": " ++ pretty st).

Section GitHubDelete.
Context `{Env}.

Definition deleteFile (token owner repo : string) (path sha : value)
    (message : string) : Async unit :=
  res ← do_fetch (delete_request token owner repo path sha message) ;
  if negb (ok res) then throw (delete_error path (status res))
  else ret tt.

End GitHubDelete.

(* ===================================================================== *)
(** ** github.ts : the tree that a recursive listing walks *)
(* ===================================================================== *)

(** What the remote store holds at a path: an entry that has nothing
    below it (a file, or an entry of another type such as a symlink or
    a submodule), or a directory with the trees of its entries, in the
    order of its listing. *)
Inductive Tree : Type :=
| Leaf (entry : RepoFile)
| Folder (entry : RepoFile) (children : list Tree).

Definition entry_of (t : Tree) : RepoFile :=
  match t with Leaf e | Folder e _ => e end.

(** The files of a tree, depth first. *)
Fixpoint files_of (t : Tree) : list RepoFile :=
  match t with
  | Leaf e => if is_str (rf_type e) "file" then [e] else []
  | Folder _ children => flat_map files_of children
  end.

Fixpoint depth (t : Tree) : nat :=
  match t with
  | Leaf _ => 0
  | Folder _ children => S (list_max (map depth children))
  end.

Section Trees.
Context `{Env}.

(** The remote store holds the tree [t] for as long as the network is
    in a state of [stable]: an entry without children is not of type
    "dir"; a directory is, and listing its path gives the entries of
    its children and leaves the network in a state of [stable]. *)
Fixpoint holds (stable : Net → Prop) (token owner repo : string) (t : Tree) : Prop :=
  match t with
  | Leaf e => is_str (rf_type e) "dir" = false
  | Folder e children =>
      rf_type e = JStr "dir" ∧
      (∀ n, stable n →
         ∃ n', listFiles token owner repo (rf_path e) n
               = (Ok (map entry_of children), n') ∧ stable n') ∧
      (fix all (l : list Tree) : Prop :=
         match l with
         | [] => True
         | c :: l' => holds stable token owner repo c ∧ all l'
         end) children
  end.

End Trees.

(** A remote store that never changes: a directory [src/content] with
    a page, a directory of posts and a submodule; the posts are a file
    and a symlink. *)
Module Shelf.

Definition about : RepoFile :=
  mkRepoFile (JStr "about.md") (JStr "src/content/about.md") (JStr "b1") (JStr "file").
Definition hello : RepoFile :=
  mkRepoFile (JStr "hello.mdx") (JStr "src/content/posts/hello.mdx") (JStr "b2") (JStr "file").
Definition latest : RepoFile :=
  mkRepoFile (JStr "latest") (JStr "src/content/posts/latest") (JStr "b3") (JStr "symlink").
Definition theme : RepoFile :=
  mkRepoFile (JStr "theme") (JStr "src/content/theme") (JStr "c1") (JStr "submodule").
Definition posts : RepoFile :=
  mkRepoFile (JStr "posts") (JStr "src/content/posts") (JStr "t2") (JStr "dir").
Definition content : RepoFile :=
  mkRepoFile (JStr "content") (JStr "src/content") (JStr "t1") (JStr "dir").

Definition tree : Tree :=
  Folder content [Leaf about; Folder posts [Leaf hello; Leaf latest]; Leaf theme].

Definition json_of (e : RepoFile) : value :=
  JObj [("name", rf_name e); ("path", rf_path e); ("sha", rf_sha e); ("type", rf_type e)].

Definition listing (entries : list RepoFile) : FetchOutcome :=
  Resolved (mkResponse true 200 (inr (JArr (map json_of entries)))).

Definition respond (rq : Request) (st : unit) : FetchOutcome * unit :=
  if String.eqb (req_url rq) (contents_url "danrichardson" "loomwork" (rf_path content))
  then (listing [about; posts; theme], st)
  else if String.eqb (req_url rq) (contents_url "danrichardson" "loomwork" (rf_path posts))
  then (listing [hello; latest], st)
  else (Resolved (mkResponse false 404 (inr (JObj [("message", JStr "Not Found")]))), st).

Definition env : Env := {|
  Remote := unit;
  fetch := respond;
  atob := Some;
  btoa_utf8 := id;
  parseFile := λ s, mkParsed [] s;
  serializeFile := λ _ b, b |}.

End Shelf.

(** An answer to a write from which [putFile] cannot read the commit:
    the body is not JSON, or it has no [commit] object. *)
Definition unreadable (res : Response) : Prop :=
  match json res with
  | inl _ => True
  | inr data => get data "commit" = Ok JUndefined ∨ get data "commit" = Ok JNull
                ∨ ∃ e, get data "commit" = Throw e
  end.

(* ===================================================================== *)
(** ** MobileApp.tsx : the rest of the callbacks *)
(* ===================================================================== *)

(** The request of [validateToken]. *)
Definition validate_request (tok owner repo : string) : Request :=
  mkRequest "GET" (API ++ "/repos/" ++ owner ++ "/" ++ repo) (headers tok) JUndefined.

Section Callbacks.
Context `{Env}.

(** The component right after it is created: the initial state, no
    timers, the local store and the remote side as they are. *)
Definition mount (st : Storage) (n : Net) (t : Z) : System :=
  mkSystem _ initial_state None [] 0%nat t st n.

(** [onSubmit] of the login form:
    [if (repo && token) onLogin(repo, token)]. *)
Definition submitLogin (fuel : nat) (repoInput tok : string) (sys : System) : System :=
  if negb (String.eqb repoInput "") && negb (String.eqb tok "")
  then handleLogin fuel repoInput tok sys
  else sys.

(** The refresh button of the browser:
    [state.creds && loadFiles(state.creds)]. *)
Definition refresh (fuel : nat) (sys : System) : System :=
  match creds (app sys) with
  | Some c => loadFiles fuel c sys
  | None => sys
  end.

(** The callbacks of the editor screen that are plain patches. *)
Definition dismissError (sys : System) : System := set [p_error None] sys.
Definition askPublish (sys : System) : System := set [p_showCommit true] sys.
Definition cancelPublish (sys : System) : System := set [p_showCommit false] sys.
Definition onTabChange (tab : EditorTab) (sys : System) : System :=
  set [p_editorTab tab] sys.
Definition onMessageChange (msg : string) (sys : System) : System :=
  set [p_commitMessage msg] sys.

End Callbacks.

(** What the user and the clock can do to the mounted component. *)
Inductive Event : Type :=
| SubmitLogin (fuel : nat) (repoInput tok : string)
| Logout
| Refresh (fuel : nat)
| Open (file : RepoFile)
| TypeBody (b : string)
| ChangeFrontmatter (fm : list (string * value))
| SwitchTab (tab : EditorTab)
| AskPublish
| EditMessage (msg : string)
| CancelPublish
| Commit
| DismissError
| Back (fuel : nat)
| Pass (dt : Z).

Section Runs.
Context `{Env}.

Definition react (ev : Event) (sys : System) : System :=
  match ev with
  | SubmitLogin fuel repoInput tok => submitLogin fuel repoInput tok sys
  | Logout => handleLogout sys
  | Refresh fuel => refresh fuel sys
  | Open file => openFile file sys
  | TypeBody b => onBodyChange b sys
  | ChangeFrontmatter fm => onFrontmatterChange fm sys
  | SwitchTab tab => onTabChange tab sys
  | AskPublish => askPublish sys
  | EditMessage msg => onMessageChange msg sys
  | CancelPublish => cancelPublish sys
  | Commit => handleCommit sys
  | DismissError => dismissError sys
  | Back fuel => goBack fuel sys
  | Pass dt => elapse dt sys
  end.

Definition play (evs : list Event) (sys : System) : System :=
  fold_left (λ s ev, react ev s) evs sys.

(** At most one autosave is pending, the cleanup of the effect knows
    it, and it is pending only while the session is dirty. *)
Definition settled (sys : System) : Prop :=
  tidy sys ∧ (pending_autosaves sys ≠ [] → dirty (app sys) = true).

End Runs.

(* ===================================================================== *)
(** ** MobileApp.tsx : a commit that takes time *)
(* ===================================================================== *)

Section SlowCommit.
Context `{Env}.

(** [handleCommit] when [dt] milliseconds pass between the call and the
    continuation after the awaited [putFile] and [removeDraft]: the
    timeouts that come due in that time run first.  The closure holds
    the state of the render in which the commit was started; the
    request is answered by the remote store as it is at the call. *)
Definition handleCommit_taking (dt : Z) (sys : System) : System :=
  match creds (app sys), currentFile (app sys) with
  | Some c, Some f =>
      let state := app sys in
      let sys := set [p_committing true; p_error None] sys in
      let content := serializeFile (frontmatter state) (body state) in
      let '(r, sys) :=
        await (putFile (token c) (cred_owner c) (cred_repo c) (fc_path f)
                 content (commitMessage state)
                 (js_or (currentSha state) JUndefined)) sys in
      let sys := elapse dt sys in
      match r with
      | Ok result =>
          let sys := with_store (removeDraft (fc_path f) (store sys)) sys in
          let sys := set [p_currentSha (cr_sha result);
                          p_dirty false;
                          p_showCommit false;
                          p_committing false;
                          p_success (Some "Committed! Cloudflare will deploy shortly.")]
                         sys in
          snd (setTimeout ClearSuccess 5000 sys)
      | Throw e => set [p_error (Some (err_message e)); p_committing false] sys
      | OutOfFuel => sys
      end
  | _, _ => sys
  end.

End SlowCommit.

(** An environment whose remote side accepts everything and answers
    with a body that is not JSON. *)
Module Mute.

Definition env : Env := {|
  Remote := unit;
  fetch := λ _ r,
    (Resolved (mkResponse true 200
                 (inl (mkError "SyntaxError" "Unexpected end of JSON input"))), r);
  atob := Some;
  btoa_utf8 := id;
  parseFile := λ s, mkParsed [] s;
  serializeFile := λ _ b, b |}.

Definition me : Credentials := mkCredentials "ghp_any" "danrichardson" "loomwork".

Definition file : FileContent :=
  mkFileContent "Hello" (JStr "blob-0") (JStr "src/content/posts/hello.mdx") (JStr "base64").

(** An editor session with unpublished edits and a stored draft. *)
Definition editing : @System env :=
  @mkSystem env
    (mkAppState editor (Some me) false None None [] (Some file) (JStr "blob-0")
       edit "New body" [] true true "Update hello.mdx" false)
    None [] 0%nat 9000
    (mkStorage {[ "src/content/posts/hello.mdx" :=
                    mkDraft (JStr "src/content/posts/hello.mdx") "New body" [] 8000 ]}
       (Some me) [])
    (@mkNet env tt []).

End Mute.

(* ===================================================================== *)
(** ** MobileApp.tsx : the frontmatter form

    Texts are well-formed Unicode, given by their UTF-8 bytes. *)
(* ===================================================================== *)

Definition bytes (l : list N) : string :=
  fold_right (λ b s, String (ascii_of_N b) s) "" l.

(** The white space that [trim] removes ([WhiteSpace] and
    [LineTerminator] of the language), in UTF-8: U+0009 to U+000D,
    U+0020, U+00A0, U+1680, U+2000 to U+200A, U+2028, U+2029, U+202F,
    U+205F, U+3000 and U+FEFF. *)
Definition white_space : list string :=
  map bytes
    [ [9]; [10]; [11]; [12]; [13]; [32];
      [194; 160];
      [225; 154; 128];
      [226; 128; 128]; [226; 128; 129]; [226; 128; 130]; [226; 128; 131];
      [226; 128; 132]; [226; 128; 133]; [226; 128; 134]; [226; 128; 135];
      [226; 128; 136]; [226; 128; 137]; [226; 128; 138];
      [226; 128; 168]; [226; 128; 169]; [226; 128; 175];
      [226; 129; 159];
      [227; 128; 128];
      [239; 187; 191] ]%N.

(** [drop_suffix w s] is [Some t] when [s = t ++ w]. *)
Fixpoint drop_suffix (w s : string) : option string :=
  if String.eqb s w then Some ""
  else match s with
       | "" => None
       | String c s' => option_map (String c) (drop_suffix w s')
       end.

(** The rest of a text that starts with a white space, and of a text
    that ends with one. *)
Definition after_space (s : string) : option string :=
  head (omap (λ w, strip_prefix w s) white_space).

Definition before_space (s : string) : option string :=
  head (omap (λ w, drop_suffix w s) white_space).

Fixpoint trimStart_go (fuel : nat) (s : string) : string :=
  match fuel with
  | O => s
  | S fuel' =>
      match after_space s with
      | Some rest => trimStart_go fuel' rest
      | None => s
      end
  end.

(** [s.trimStart()]: white space is removed from the start while there
    is one; the length of the text bounds the number of rounds. *)
Definition trimStart (s : string) : string := trimStart_go (String.length s) s.

Fixpoint trimEnd_go (fuel : nat) (s : string) : string :=
  match fuel with
  | O => s
  | S fuel' =>
      match before_space s with
      | Some rest => trimEnd_go fuel' rest
      | None => s
      end
  end.

(** [s.trimEnd()] *)
Definition trimEnd (s : string) : string := trimEnd_go (String.length s) s.

(** [s.trim()] *)
Definition trim (s : string) : string := trimEnd (trimStart s).

Definition comma : ascii := ","%char.

(** [text.split(",").map((s) => s.trim()).filter(Boolean)];
    [RepoSpec.split_on] is [split] on a separator of one character. *)
Definition tags_of_text (text : string) : list string :=
  filter (λ s, s ≠ "") (map trim (RepoSpec.split_on comma text)).

(** A text that starts, or ends, with a white space. *)
Definition starts_with_space (s : string) : Prop :=
  ∃ w rest, w ∈ white_space ∧ s = w ++ rest.

Definition ends_with_space (s : string) : Prop :=
  ∃ w init, w ∈ white_space ∧ s = init ++ w.

(** A tag as the form produces it: not empty, no white space at either
    end, no comma. *)
Definition clean_tag (t : string) : Prop :=
  t ≠ "" ∧ ¬ starts_with_space t ∧ ¬ ends_with_space t ∧ free_of comma t = true.

(** [items.join(sep)]: [null] and [undefined] count as the empty text. *)
Fixpoint js_join (sep : string) (items : list value) : string :=
  match items with
  | [] => ""
  | x :: rest =>
      let here := match x with
                  | JUndefined | JNull => ""
                  | _ => to_string x
                  end in
      match rest with
      | [] => here
      | _ :: _ => here ++ sep ++ js_join sep rest
      end
  end.

(** [{ ...obj, [key]: v }]: an own property keeps its place, a new one
    goes last. *)
Fixpoint with_property (key : string) (v : value) (obj : list (string * value))
    : list (string * value) :=
  match obj with
  | [] => [(key, v)]
  | (k, w) :: rest =>
      if String.eqb key k then (k, v) :: rest
      else (k, w) :: with_property key v rest
  end.

(** The value of the tags field:
    [Array.isArray(frontmatter.tags) ? frontmatter.tags.join(", ") : ""]. *)
Definition tags_text (fm : list (string * value)) : string :=
  match assoc "tags" fm with
  | JArr items => js_join ", " items
  | _ => ""
  end.

(** [onChange] of the tags field: what [update("tags", ...)] hands to
    [onFrontmatterChange]. *)
Definition onTagsChange (text : string) (fm : list (string * value))
    : list (string * value) :=
  with_property "tags" (JArr (map JStr (tags_of_text text))) fm.

(** [l.join(sep)] on texts. *)
Fixpoint str_join (sep : string) (l : list string) : string :=
  match l with
  | [] => ""
  | x :: rest =>
      match rest with
      | [] => x
      | _ :: _ => x ++ sep ++ str_join sep rest
      end
  end.

(** Apply [f] to the last element. *)
Fixpoint map_last {A} (f : A → A) (l : list A) : list A :=
  match l with
  | [] => []
  | [x] => [f x]
  | x :: rest => x :: map_last f rest
  end.

(* ===================================================================== *)
(** ** MobileApp.tsx : the link to the live page *)
(* ===================================================================== *)

(** [s.replace(/^w/, "")] for a literal [w]. *)
Definition drop_prefix (w s : string) : string :=
  match strip_prefix w s with
  | Some t => t
  | None => s
  end.

(** [/\.mdx?$/] *)
Definition re_md_ext : regex :=
  word ".md" (Cat (Maybe (Chr (Only "x"%char))) Eos).

(** The slug that [Editor] derives from the path of the file. *)
Definition slug (filePath : string) : string :=
  Regex.replace re_md_ext ""
    (drop_prefix "src/content/posts/" (drop_prefix "src/content/pages/" filePath)).

(** [siteUrl ? `${siteUrl.replace(/\/$/, "")}/${slug}` : ""] *)
Definition liveUrl (siteUrl filePath : string) : string :=
  if negb (String.eqb siteUrl "")
  then Regex.replace re_trailing_slash "" siteUrl ++ "/" ++ slug filePath
  else "".

(** The text ends in [.md] or [.mdx]. *)
Definition is_md_ext (s : string) : bool :=
  match strip_prefix ".md" s with
  | Some "" | Some "x" => true
  | _ => false
  end.

(** Remove a final [.md] or [.mdx]. *)
Fixpoint strip_md_ext (s : string) : string :=
  if is_md_ext s then ""
  else match s with
       | "" => ""
       | String c s' => String c (strip_md_ext s')
       end.

(* ===================================================================== *)
(** ** The service worker

    The worker of [/mobile]: its cache storage is a list of named
    caches in the order of their creation, each a list of entries from
    request URL to response.  A request is identified by its URL, and
    [pathname] is what [new URL(request.url).pathname] gives. *)
(* ===================================================================== *)

Module Worker.

Definition CACHE_NAME : string := "loomwork-mobile-v1".
Definition SHELL_URLS : list string := ["/mobile/"].

Record Resp := mkResp { r_ok : bool; r_text : string }.

(** A request: its URL, written from the origin of the worker as in
    [SHELL_URLS], its mode, and the path name of its URL. *)
Record Req := mkReq { rq_url : string; rq_mode : string; rq_pathname : string }.

Abbreviation Cache := (list (string * Resp)).
Abbreviation Caches := (list (string * list (string * Resp))).

(** [cache.match(request)] *)
Fixpoint cache_match (url : string) (c : Cache) : option Resp :=
  match c with
  | [] => None
  | (u, r) :: rest => if String.eqb u url then Some r else cache_match url rest
  end.

(** [cache.put(request, response)]: replaces the entry of the request. *)
Fixpoint cache_put (url : string) (r : Resp) (c : Cache) : Cache :=
  match c with
  | [] => [(url, r)]
  | (u, r') :: rest =>
      if String.eqb u url then (u, r) :: rest
      else (u, r') :: cache_put url r rest
  end.

(** [caches.match(request)]: the first cache, in the order of creation,
    that holds the request. *)
Fixpoint caches_match (url : string) (cs : Caches) : option Resp :=
  match cs with
  | [] => None
  | (_, c) :: rest =>
      match cache_match url c with
      | Some r => Some r
      | None => caches_match url rest
      end
  end.

Definition has_cache (name : string) (cs : Caches) : bool :=
  existsb (λ c, String.eqb (fst c) name) cs.

(** [caches.open(name)] creates the cache when it does not exist. *)
Definition caches_open (name : string) (cs : Caches) : Caches :=
  if has_cache name cs then cs else (cs ++ [(name, [])])%list.

(** [caches.open(name).then((cache) => cache.put(request, response))] *)
Fixpoint put_in (name url : string) (r : Resp) (cs : Caches) : Caches :=
  match cs with
  | [] => []
  | (n, c) :: rest =>
      if String.eqb n name then (n, cache_put url r c) :: rest
      else (n, c) :: put_in name url r rest
  end.

Definition open_and_put (name url : string) (r : Resp) (cs : Caches) : Caches :=
  put_in name url r (caches_open name cs).

(** The handler of [activate]: every cache with another name is
    deleted. *)
Definition activate (cs : Caches) : Caches :=
  filter (λ c, fst c = CACHE_NAME) cs.

(** The handler of [install]: [cache.addAll(SHELL_URLS)] stores the
    shell when every request is answered with an ok response, and
    fails, storing nothing, otherwise.  [net] is the answer of the
    network to a URL, [None] when the request fails. *)
Fixpoint fetch_all (net : string → option Resp) (urls : list string)
    : option (list (string * Resp)) :=
  match urls with
  | [] => Some []
  | u :: rest =>
      match net u with
      | Some r =>
          if r_ok r then
            match fetch_all net rest with
            | Some l => Some ((u, r) :: l)
            | None => None
            end
          else None
      | None => None
      end
  end.

Definition install (net : string → option Resp) (cs : Caches) : bool * Caches :=
  let cs := caches_open CACHE_NAME cs in
  match fetch_all net SHELL_URLS with
  | Some l => (true, fold_left (λ acc e, put_in CACHE_NAME (fst e) (snd e) acc) l cs)
  | None => (false, cs)
  end.

(** What the page receives for a request. *)
Inductive Reply : Type :=
| NotHandled                      (* the worker does not call [respondWith] *)
| Responds (r : option Resp).     (* the response, or a network error *)

(** The condition of the [fetch] handler. *)
Definition shell_navigation (rq : Req) : bool :=
  String.eqb (rq_mode rq) "navigate"
  && (String.eqb (rq_pathname rq) "/mobile"
      || String.prefix "/mobile/" (rq_pathname rq)).

(** The handler of [fetch]; [answer] is what the network gives for the
    request, [None] when it fails. *)
Definition on_fetch (rq : Req) (answer : option Resp) (cs : Caches) : Reply * Caches :=
  if shell_navigation rq then
    let cached := caches_match (rq_url rq) cs in
    let cs' := match answer with
               | Some response => open_and_put CACHE_NAME (rq_url rq) response cs
               | None => cs
               end in
    (Responds (match cached with Some r => Some r | None => answer end), cs')
  else (NotHandled, cs).

(** The names of the caches are distinct. *)
Definition well_formed (cs : Caches) : Prop := NoDup (map fst cs).

(** No cache other than the worker's holds the request. *)
Definition only_own (url : string) (cs : Caches) : Prop :=
  Forall (λ nc, fst nc = CACHE_NAME ∨ cache_match url (snd nc) = None) cs.

(** The storage after [activate]: nothing, or the one cache of the
    worker. *)
Definition activated (cs : Caches) : Prop :=
  cs = [] ∨ ∃ c, cs = [(CACHE_NAME, c)].

End Worker.

(** Examples on the small remote store. *)
Module HubMore.

(** The listing entry of the posts directory. *)
Definition posts_dir : RepoFile :=
  mkRepoFile (JStr "posts") (JStr "src/content/posts") (JStr "tree-1") (JStr "dir").

(** A component mounted on a local store that holds the credentials. *)
Definition mounted : @System Hub.env :=
  @init Hub.env 2 (@mount Hub.env (mkStorage ∅ (Some Hub.me) []) (@mkNet Hub.env Hub.files0 []) 5000).

Definition front : list (string * value) :=
  [("title", JStr "Hello"); ("tags", JArr [JStr "old"]); ("draft", JBool false)].

End HubMore.

(* ===================================================================== *)
(** * Properties *)
(* ===================================================================== *)

(** ** Strings *)

Lemma append_nil (t : string) : "" ++ t = t.
Proof. reflexivity. Qed.

Lemma append_cons (c : ascii) (s t : string) : String c s ++ t = String c (s ++ t).
Proof. reflexivity. Qed.

Tactic Notation "push_append" := rewrite ?append_cons, ?append_nil.
Tactic Notation "push_append" "in" hyp(H) := rewrite ?append_cons, ?append_nil in H.

Lemma append_empty_r (s : string) : s ++ "" = s.
Proof. induction s; push_append; congruence. Qed.

Lemma append_assoc (a b c : string) : (a ++ b) ++ c = a ++ (b ++ c).
Proof. induction a; push_append; congruence. Qed.

Lemma length_append (a b : string) :
  String.length (a ++ b) = (String.length a + String.length b)%nat.
Proof. induction a; push_append; simpl; congruence. Qed.

Lemma substring_prefix (a b : string) : substring 0 (String.length a) (a ++ b) = a.
Proof.
  induction a as [|c a IH]; push_append; simpl.
  - destruct b; reflexivity.
  - by rewrite IH.
Qed.

Lemma before_append (a b : string) : Str.before (a ++ b) b = a.
Proof.
  unfold Str.before. rewrite length_append.
  replace (String.length a + String.length b - String.length b)%nat
    with (String.length a) by lia.
  apply substring_prefix.
Qed.

Lemma before_empty (s : string) : Str.before s "" = s.
Proof. rewrite <- (append_empty_r s) at 1. apply before_append. Qed.

Lemma run_after (cs : cset) (s : string) : run_of cs s ++ after_run cs s = s.
Proof.
  induction s as [|c s IH]; simpl; [done|].
  destruct (accepts cs c); push_append; [by rewrite IH | done].
Qed.

Lemma string_eqb_cons c d s t :
  String.eqb (String c s) (String d t) = Ascii.eqb c d && String.eqb s t.
Proof. simpl. by destruct (Ascii.eqb c d). Qed.

(** ** The matcher *)

Section MatcherFacts.
Context {R : Type}.

(** When the continuation cannot succeed in front of a character of
    the class, the greedy loop never gives a character back. *)
Lemma star_greedy (cs : cset) (k : string → option R) (s : string) :
  (∀ c t, accepts cs c = true → k (String c t) = None) →
  star cs s k = k (after_run cs s).
Proof.
  intros Hk. induction s as [|c s IH]; simpl; [done|].
  destruct (accepts cs c) eqn:Hc; [|done].
  rewrite IH. destruct (k (after_run cs s)) eqn:E; [done|].
  by apply Hk.
Qed.

Lemma rmatch_word (w : string) (r : regex) (s : string) (caps : captures)
    (k : string → captures → option R) :
  rmatch (word w r) s caps k =
    match strip_prefix w s with
    | Some t => rmatch r t caps k
    | None => None
    end.
Proof.
  revert s. induction w as [|c w IH]; intros s; simpl; [done|].
  destruct s as [|d s]; [done|].
  destruct (Ascii.eqb d c); [apply IH | done].
Qed.

Lemma rmatch_word_eos (w s : string) (caps : captures)
    (k : string → captures → option R) :
  rmatch (word w Eos) s caps k = if String.eqb s w then k "" caps else None.
Proof.
  revert s. induction w as [|c w IH]; intros s; simpl.
  - by destruct s.
  - destruct s as [|d s]; [done|].
    rewrite string_eqb_cons. destruct (Ascii.eqb d c); simpl; [apply IH | done].
Qed.
End MatcherFacts.

(** ** [replace] with an anchored word removes a suffix *)

Lemma search_word_eos (w pre s : string) :
  match search (word w Eos) pre s with
  | Some f => f_pre f ++ f_post f
  | None => pre ++ s
  end = pre ++ RepoSpec.strip_suffix w s.
Proof.
  revert pre. induction s as [|c s IH]; intros pre.
  - cbn [search RepoSpec.strip_suffix]. rewrite rmatch_word_eos.
    destruct (String.eqb "" w); done.
  - cbn [search RepoSpec.strip_suffix]. rewrite rmatch_word_eos.
    destruct (String.eqb (String c s) w); [done|].
    specialize (IH (Str.snoc pre c)). unfold Str.snoc in *.
    destruct (search (word w Eos) (pre ++ String c "") s);
      rewrite !append_assoc in IH; by push_append in IH.
Qed.

Lemma replace_word_eos (w s : string) :
  Regex.replace (word w Eos) "" s = RepoSpec.strip_suffix w s.
Proof.
  unfold Regex.replace. pose proof (search_word_eos w "" s) as Hs.
  destruct (search (word w Eos) "" s); push_append; done.
Qed.

(** ** The owner/repo pattern *)

Lemma after_run_head (cs : cset) (s : string) c t :
  after_run cs s = String c t → accepts cs c = false.
Proof.
  induction s as [|d s IH]; simpl; [done|].
  destruct (accepts cs d) eqn:E; [done|]. by intros [= <- <-].
Qed.

Lemma before_run (cs : cset) (s : string) : Str.before s (after_run cs s) = run_of cs s.
Proof. rewrite <- (run_after cs s) at 1. apply before_append. Qed.

Lemma rmatch_core {R} (s : string) (caps : captures) (k : string → captures → option R) :
  rmatch core_re s caps k =
    match two_segments s with
    | Some (o, r) => k "" (<[2%nat := r]> (<[1%nat := o]> caps))
    | None => None
    end.
Proof.
  unfold core_re, two_segments. cbn [rmatch].
  destruct s as [|c s]; [done|]. cbn [run_of after_run].
  destruct (accepts not_slash c) eqn:Hc; [|done].
  rewrite star_greedy.
  2:{ intros d t Hd. cbn in Hd |- *. apply negb_true_iff in Hd. by rewrite Hd. }
  pose proof (before_run not_slash (String c s)) as Hb.
  cbn [run_of after_run] in Hb. rewrite Hc in Hb. rewrite Hb. clear Hb.
  destruct (after_run not_slash s) as [|d t] eqn:Ht; [done|].
  apply after_run_head in Ht. cbn in Ht. apply negb_false_iff in Ht.
  cbn [accepts]. rewrite Ht.
  destruct t as [|e t]; [done|]. cbn [run_of after_run].
  destruct (accepts not_slash e) eqn:He; [|done].
  rewrite star_greedy.
  2:{ intros ? ? _. done. }
  pose proof (before_run not_slash (String e t)) as Hb.
  cbn [run_of after_run] in Hb. rewrite He in Hb.
  destruct (after_run not_slash t) eqn:Hu; [|done].
  rewrite before_empty in Hb. rewrite before_empty. by rewrite Hb.
Qed.

Lemma split_on_run (s : string) :
  RepoSpec.split_on slash s =
    run_of not_slash s ::
      match after_run not_slash s with
      | "" => []
      | String _ t => RepoSpec.split_on slash t
      end.
Proof.
  induction s as [|c s IH]; [done|].
  cbn [RepoSpec.split_on run_of after_run accepts not_slash].
  destruct (Ascii.eqb c slash); cbn [negb]; [done|].
  by rewrite IH.
Qed.

Lemma two_segments_split (s : string) :
  two_segments s =
    match RepoSpec.split_on slash s with
    | [o; r] => accepted [o; r]
    | _ => None
    end.
Proof.
  unfold two_segments. rewrite split_on_run.
  destruct (after_run not_slash s) as [|d t].
  { by destruct (run_of not_slash s). }
  rewrite (split_on_run t).
  destruct (after_run not_slash t) as [|e u].
  - destruct (run_of not_slash s), (run_of not_slash t); done.
  - rewrite (split_on_run u).
    destruct (run_of not_slash s), (run_of not_slash t); done.
Qed.

Lemma rmatch_owner_repo (s : string) :
  rmatch re_owner_repo s ∅ (λ t caps, Some (t, caps)) =
    match github_prefix s ≫= two_segments with
    | Some p => Some (hit p)
    | None => hit <$> two_segments s
    end.
Proof.
  change re_owner_repo with
    (Cat (Maybe (NoCapture (word "github.com" (Chr (Only slash))))) core_re).
  cbn [rmatch]. rewrite rmatch_word. unfold github_prefix.
  destruct (strip_prefix "github.com" s) as [[|d t]|]; cbn [rmatch mbind option_bind].
  - rewrite rmatch_core. by destruct (two_segments s) as [[]|].
  - cbn [accepts]. destruct (Ascii.eqb d slash); cbn [mbind option_bind].
    + rewrite !rmatch_core.
      destruct (two_segments t) as [[]|]; [done|].
      by destruct (two_segments s) as [[]|].
    + rewrite rmatch_core. by destruct (two_segments s) as [[]|].
  - rewrite rmatch_core. by destruct (two_segments s) as [[]|].
Qed.

Lemma github_prefix_split (s t : string) :
  github_prefix s = Some t →
  RepoSpec.split_on slash s = "github.com" :: RepoSpec.split_on slash t.
Proof.
  unfold github_prefix.
  destruct (strip_prefix "github.com" s) as [[|d u]|] eqn:E; [done| |done].
  destruct (Ascii.eqb d slash) eqn:Hd; [|done]. intros [= ->].
  apply Ascii.eqb_eq in Hd. subst d.
  repeat (destruct s as [|? s]; [done|];
          cbn [strip_prefix] in E;
          match type of E with
          | (if Ascii.eqb ?a ?b then _ else _) = _ =>
              destruct (Ascii.eqb a b) eqn:?Hc; [apply Ascii.eqb_eq in Hc; subst a | done]
          end).
  cbn [strip_prefix] in E. injection E as ->. done.
Qed.

Lemma accepted_cons_slash (s : string) :
  accepted (RepoSpec.split_on slash (String slash s)) =
  accepted (RepoSpec.split_on slash s).
Proof.
  cbn [RepoSpec.split_on]. rewrite Ascii.eqb_refl.
  rewrite (split_on_run s).
  destruct (after_run not_slash s) as [|d t]; [done|].
  rewrite (split_on_run t). unfold accepted. cbn [RepoSpec.last_two].
  destruct (after_run not_slash t); done.
Qed.

Lemma accepted_cons_other (c : ascii) (s : string) :
  Ascii.eqb c slash = false →
  two_segments (String c s) = None →
  accepted (RepoSpec.split_on slash (String c s)) =
  accepted (RepoSpec.split_on slash s).
Proof.
  intros Hc Hnone. rewrite two_segments_split in Hnone. revert Hnone.
  cbn [RepoSpec.split_on]. rewrite Hc. rewrite (split_on_run s).
  destruct (after_run not_slash s) as [|d t]; [done|].
  rewrite (split_on_run t).
  destruct (after_run not_slash t) as [|e u].
  - unfold accepted. cbn [RepoSpec.last_two RepoSpec.nonempty].
    intros Hn. destruct (run_of not_slash t); [|done].
    cbn. by rewrite andb_false_r.
  - intros _. rewrite (split_on_run u). unfold accepted. cbn [RepoSpec.last_two]. done.
Qed.

Lemma search_owner_repo (pre s : string) :
  owner_repo_of <$> search re_owner_repo pre s =
  accepted (RepoSpec.split_on slash s).
Proof.
  revert pre. induction s as [|c s IH]; intros pre.
  - done.
  - cbn [search]. rewrite rmatch_owner_repo.
    destruct (github_prefix (String c s) ≫= two_segments) as [[o r]|] eqn:Hg.
    { destruct (github_prefix (String c s)) as [t|] eqn:Hp; [|done].
      cbn in Hg. rewrite (github_prefix_split _ _ Hp).
      rewrite two_segments_split in Hg.
      destruct (RepoSpec.split_on slash t) as [|x [|y [|z l]]]; done. }
    destruct (two_segments (String c s)) as [[o r]|] eqn:Ht.
    { rewrite two_segments_split in Ht.
      destruct (RepoSpec.split_on slash (String c s)) as [|x [|y [|z l]]]; done. }
    cbn [fmap option_fmap option_map]. rewrite IH.
    destruct (Ascii.eqb c slash) eqn:Hc.
    + apply Ascii.eqb_eq in Hc. subst c. by rewrite accepted_cons_slash.
    + by rewrite accepted_cons_other.
Qed.

(** C10. [parseRepo] strips a trailing [.git], then a trailing slash,
    and returns the last two slash-separated segments of what is left
    as owner and repo; it throws exactly when that text does not end in
    two nonempty segments: the function agrees with its specification
    [RepoSpec.parseRepo] on every input. *)
Theorem parseRepo_last_two_segments (input : string) :
  parseRepo input = RepoSpec.parseRepo input.
Proof.
  unfold parseRepo, RepoSpec.parseRepo, RepoSpec.cleaned, Regex.match_.
  unfold re_dot_git, re_trailing_slash. rewrite !replace_word_eos.
  pose proof (search_owner_repo "" (RepoSpec.strip_suffix "/" (RepoSpec.strip_suffix ".git" input))) as Hs.
  unfold accepted in Hs.
  destruct (search re_owner_repo "" _) as [f|]; cbn in Hs.
  - destruct (RepoSpec.last_two _) as [[o r]|]; [|done].
    destruct (RepoSpec.nonempty o && RepoSpec.nonempty r); [|done].
    by injection Hs as -> ->.
  - destruct (RepoSpec.last_two _) as [[o r]|]; [|done].
    by destruct (RepoSpec.nonempty o && RepoSpec.nonempty r).
Qed.

(* ===================================================================== *)
(** ** The component: what [set] touches *)
(* ===================================================================== *)

Section SetFacts.
Context `{Env}.

Lemma autosave_effect_frame (sys : System) :
  app (autosave_effect sys) = app sys ∧
  store (autosave_effect sys) = store sys ∧
  net (autosave_effect sys) = net sys ∧
  now (autosave_effect sys) = now sys.
Proof.
  unfold autosave_effect.
  destruct (cleanup sys); simpl;
    destruct (currentFile (app sys)); simpl; try destruct (dirty (app sys)); done.
Qed.

Lemma set_app (p : list Assign) (sys : System) :
  app (set p sys) = apply_patch p (app sys).
Proof.
  unfold set. destruct (deps_changed _ _ _); [|done].
  by rewrite (proj1 (autosave_effect_frame _)).
Qed.

Lemma set_store (p : list Assign) (sys : System) : store (set p sys) = store sys.
Proof.
  unfold set. destruct (deps_changed _ _ _); [|done].
  by rewrite (proj1 (proj2 (autosave_effect_frame _))).
Qed.

Lemma set_net (p : list Assign) (sys : System) : net (set p sys) = net sys.
Proof.
  unfold set. destruct (deps_changed _ _ _); [|done].
  by rewrite (proj1 (proj2 (proj2 (autosave_effect_frame _)))).
Qed.

Lemma set_now (p : list Assign) (sys : System) : now (set p sys) = now sys.
Proof.
  unfold set. destruct (deps_changed _ _ _); [|done].
  by rewrite (proj2 (proj2 (proj2 (autosave_effect_frame _)))).
Qed.

Lemma assign_quiet (a : Assign) (s : AppState) :
  quiet a = true →
  body (assign s a) = body s ∧ dirty (assign s a) = dirty s ∧
  frontmatter (assign s a) = frontmatter s.
Proof. by destruct a. Qed.

Lemma apply_patch_quiet (p : list Assign) (s : AppState) :
  forallb quiet p = true →
  body (apply_patch p s) = body s ∧ dirty (apply_patch p s) = dirty s ∧
  frontmatter (apply_patch p s) = frontmatter s ∧
  replaces_frontmatter p = false.
Proof.
  revert s. induction p as [|a p IH]; intros s Hq; [done|].
  cbn in Hq. apply andb_true_iff in Hq as [Ha Hp].
  destruct (IH (assign s a) Hp) as (Hb & Hd & Hf & Hr).
  destruct (assign_quiet a s Ha) as (Hb' & Hd' & Hf').
  unfold apply_patch in *. cbn [fold_left]. rewrite Hb, Hd, Hf.
  repeat split; try done.
  unfold replaces_frontmatter in *. cbn [existsb]. rewrite Hr. by destruct a.
Qed.

Lemma set_quiet (p : list Assign) (sys : System) :
  forallb quiet p = true → set p sys = with_app (apply_patch p (app sys)) sys.
Proof.
  intros Hq. destruct (apply_patch_quiet p (app sys) Hq) as (Hb & Hd & _ & Hr).
  unfold set, deps_changed. cbn [app with_app].
  rewrite Hb, Hd, Hr, String.eqb_refl, Bool.eqb_reflx. done.
Qed.

End SetFacts.

(* ===================================================================== *)
(** ** github.ts : putFile *)
(* ===================================================================== *)

Section PutFileFacts.
Context `{Env}.
Variables (tok o r : string) (path : value) (content message : string) (sha : value).

Let rq := put_request tok o r path content message sha.

Lemma putFile_rejected (n : Net) (e : JsError) (r' : Remote) :
  fetch rq (remote n) = (Rejected e, r') →
  putFile tok o r path content message sha n
  = (Throw e, {| remote := r'; sent := sent n ++ [rq] |}).
Proof.
  intros Hf. unfold putFile, mbind, async_bind, bind, do_fetch.
  fold rq. by rewrite Hf.
Qed.

Lemma putFile_refused (n : Net) (res : Response) (r' : Remote) (m : value) :
  fetch rq (remote n) = (Resolved res, r') →
  ok res = false →
  get (error_body res) "message" = Ok m →
  putFile tok o r path content message sha n
  = (Throw (save_error path (status res) m),
     {| remote := r'; sent := sent n ++ [rq] |}).
Proof.
  intros Hf Hok Hm. unfold putFile, mbind, async_bind, bind, do_fetch.
  fold rq. rewrite Hf, Hok. cbn [negb].
  unfold catch, res_json, error_body in *.
  destruct (json res) as [e|v]; cbn -[get]; unfold lift; rewrite Hm; done.
Qed.


Lemma putFile_not_ok (n : Net) (res : Response) (r' : Remote) :
  fetch rq (remote n) = (Resolved res, r') →
  ok res = false →
  ∃ e, putFile tok o r path content message sha n
       = (Throw e, {| remote := r'; sent := sent n ++ [rq] |}).
Proof.
  intros Hf Hok.
  destruct (get (error_body res) "message") as [m|e|] eqn:Hm.
  - eexists. by apply putFile_refused.
  - exists e. unfold putFile, mbind, async_bind, bind, do_fetch.
    fold rq. rewrite Hf, Hok. cbn [negb].
    unfold catch, res_json, error_body in *.
    destruct (json res) as [e'|v]; cbn -[get]; unfold lift; rewrite Hm; done.
  - unfold get in Hm. by destruct (error_body res).
Qed.

Lemma putFile_fails (n : Net) :
  write_fails (answer rq n) →
  ∃ e n', putFile tok o r path content message sha n = (Throw e, n').
Proof.
  unfold write_fails, answer.
  destruct (fetch rq (remote n)) as [[e|res] r'] eqn:Hf; cbn; intros Hw.
  - eauto using putFile_rejected.
  - destruct (putFile_not_ok n res r' Hf Hw) as [e He]. eauto.
Qed.

Lemma putFile_ok (n : Net) (res : Response) (r' : Remote) (data cm sha' url : value) :
  fetch rq (remote n) = (Resolved res, r') →
  ok res = true →
  json res = inr data →
  get data "commit" = Ok cm →
  get cm "sha" = Ok sha' →
  get cm "html_url" = Ok url →
  putFile tok o r path content message sha n
  = (Ok (mkCommitResult sha' url), {| remote := r'; sent := sent n ++ [rq] |}).
Proof.
  intros Hf Hok Hj Hc Hs Hu. unfold putFile, mbind, async_bind, bind, do_fetch.
  fold rq. rewrite Hf, Hok. cbn [negb].
  unfold res_json, lift. rewrite Hj. cbn. rewrite Hc, Hs, Hu. done.
Qed.

End PutFileFacts.

(* ===================================================================== *)
(** ** MobileApp.tsx : handleCommit *)
(* ===================================================================== *)

Section CommitFacts.
Context `{Env}.

Lemma handleCommit_throw (sys : System) c f e n' :
  creds (app sys) = Some c →
  currentFile (app sys) = Some f →
  putFile (token c) (cred_owner c) (cred_repo c) (fc_path f)
    (serializeFile (frontmatter (app sys)) (body (app sys)))
    (commitMessage (app sys)) (js_or (currentSha (app sys)) JUndefined) (net sys)
  = (Throw e, n') →
  handleCommit sys
  = with_app (apply_patch [p_committing true; p_error None;
                           p_error (Some (err_message e)); p_committing false]
                (app sys))
      (with_net n' sys).
Proof.
  intros Hc Hf Hput. unfold handleCommit. rewrite Hc, Hf.
  unfold await. rewrite set_net, Hput.
  rewrite !set_quiet by done. done.
Qed.

Lemma handleCommit_ok (sys : System) c f result n' :
  creds (app sys) = Some c →
  currentFile (app sys) = Some f →
  putFile (token c) (cred_owner c) (cred_repo c) (fc_path f)
    (serializeFile (frontmatter (app sys)) (body (app sys)))
    (commitMessage (app sys)) (js_or (currentSha (app sys)) JUndefined) (net sys)
  = (Ok result, n') →
  let sys' := handleCommit sys in
  dirty (app sys') = false ∧
  getDraft (fc_path f) (store sys') = None ∧
  currentSha (app sys') = cr_sha result ∧
  body (app sys') = body (app sys) ∧
  frontmatter (app sys') = frontmatter (app sys) ∧
  net sys' = n'.
Proof.
  intros Hc Hf Hput. cbn zeta. unfold handleCommit. rewrite Hc, Hf.
  unfold await. rewrite set_net, Hput.
  rewrite (set_quiet [p_committing true; p_error None]) by done.
  cbn [snd setTimeout app store net].
  rewrite set_app, set_store, set_net. cbn.
  unfold getDraft. cbn. by rewrite lookup_delete_eq.
Qed.

(** C2. A commit whose remote write fails (the transport fails, or the
    store refuses it with a status that is not ok) surfaces the error
    in [state.error] and changes nothing else of the session: the
    dirty flag keeps its value (it is still true for a dirty session),
    the local store with all its drafts is what it was, and body,
    frontmatter, baseline version token, current file and the pending
    timers are untouched. *)
Theorem commit_failure_changes_nothing (sys : System) c f :
  creds (app sys) = Some c →
  currentFile (app sys) = Some f →
  write_fails (answer (commit_request sys c f) (net sys)) →
  ∃ e n',
    putFile (token c) (cred_owner c) (cred_repo c) (fc_path f)
      (serializeFile (frontmatter (app sys)) (body (app sys)))
      (commitMessage (app sys)) (js_or (currentSha (app sys)) JUndefined) (net sys)
    = (Throw e, n') ∧
    let sys' := handleCommit sys in
    error (app sys') = Some (err_message e) ∧
    dirty (app sys') = dirty (app sys) ∧
    store sys' = store sys ∧
    body (app sys') = body (app sys) ∧
    frontmatter (app sys') = frontmatter (app sys) ∧
    currentSha (app sys') = currentSha (app sys) ∧
    currentFile (app sys') = currentFile (app sys) ∧
    timers sys' = timers sys ∧
    cleanup sys' = cleanup sys.
Proof.
  intros Hc Hf Hw.
  destruct (putFile_fails _ _ _ _ _ _ _ _ Hw) as (e & n' & Hput).
  exists e, n'. split; [exact Hput|]. cbn zeta.
  rewrite (handleCommit_throw sys c f e n' Hc Hf Hput). done.
Qed.

End CommitFacts.

(* ===================================================================== *)
(** ** The session on the small remote store *)
(* ===================================================================== *)

(** Closed statements about the example store are settled by running
    the model. *)
Ltac split_conj := repeat match goal with |- _ ∧ _ => split end.
Ltac by_running := cbv zeta; split_conj; vm_compute; first [reflexivity | discriminate].

Section OnTheHub.
Local Existing Instance Hub.env.

Lemma commit_failure_changes_nothing_witness :
  ∃ e n',
    putFile Hub.the_token Hub.the_owner Hub.the_repo (JStr Hub.hello)
      "Newer body" "Update hello.mdx" (JStr "commit-1") (net Hub.edited_again)
    = (Throw e, n') ∧
    let sys' := handleCommit Hub.edited_again in
    error (app sys') = Some (err_message e) ∧
    dirty (app sys') = dirty (app Hub.edited_again) ∧
    store sys' = store Hub.edited_again ∧
    body (app sys') = body (app Hub.edited_again) ∧
    frontmatter (app sys') = frontmatter (app Hub.edited_again) ∧
    currentSha (app sys') = currentSha (app Hub.edited_again) ∧
    currentFile (app sys') = currentFile (app Hub.edited_again) ∧
    timers sys' = timers Hub.edited_again ∧
    cleanup sys' = cleanup Hub.edited_again.
Proof.
  apply (commit_failure_changes_nothing Hub.edited_again Hub.me Hub.hello_file);
    vm_compute; reflexivity.
Defined.

(** C1, at the failing input.  The post is opened, edited and
    published; the store answers 200 with the new version token of the
    file, [blob-1], under [content.sha] and the id of the commit,
    [commit-1], under [commit.sha].  The commit clears the dirty flag
    and removes the draft, but the baseline it records is the id of
    the commit, not the version token of the written file. *)
Theorem commit_records_commit_id_as_baseline :
  let rq := commit_request Hub.saved Hub.me Hub.hello_file in
  ∃ res data,
    answer rq (net Hub.saved) = Resolved res ∧
    ok res = true ∧ json res = inr data ∧
    written_file_token data = Ok (JStr "blob-1") ∧
    Hub.h_files (remote (net Hub.committed))
      = [Hub.mkFile Hub.hello "New body" "blob-1"] ∧
    error (app Hub.committed) = None ∧
    dirty (app Hub.committed) = false ∧
    getDraft (JStr Hub.hello) (store Hub.committed) = None ∧
    currentSha (app Hub.committed) = JStr "commit-1" ∧
    currentSha (app Hub.committed) ≠ JStr "blob-1".
Proof.
  cbn zeta. eexists _, _.
  split; [vm_compute; reflexivity|]. by_running.
Qed.

(** C6, at the failing input.  After the successful commit above the
    file on the store has the version token [blob-1] and nobody else
    writes to it; the session edits again and publishes again.  The
    second commit submits the baseline of the session, which is the id
    of the first commit, and the store refuses it with status 409: the
    baseline is not the sha of the remote file observed at the last
    successful commit. *)
Theorem second_commit_submits_commit_id :
  Hub.h_files (remote (net Hub.edited_again))
    = [Hub.mkFile Hub.hello "New body" "blob-1"] ∧
  currentSha (app Hub.edited_again) = JStr "commit-1" ∧
  get (req_body (commit_request Hub.edited_again Hub.me Hub.hello_file)) "sha"
    = Ok (JStr "commit-1") ∧
  last (sent (net Hub.committed_again))
    = Some (commit_request Hub.edited_again Hub.me Hub.hello_file) ∧
  error (app Hub.committed_again)
    = Some ("Failed to save src/content/posts/hello.mdx: 409 "
            ++ "src/content/posts/hello.mdx does not match commit-1") ∧
  dirty (app Hub.committed_again) = true ∧
  remote (net Hub.committed_again) = remote (net Hub.edited_again).
Proof. by_running. Qed.


End OnTheHub.

(* ===================================================================== *)
(** ** Numbers as text *)
(* ===================================================================== *)

(** The text of some integers, as a JavaScript engine prints them. *)
Lemma number_text_examples :
  Forall (λ t, number_text (fst t) = snd t)
    [ (0, "0"); (-42, "-42"); (409, "409");
      (2 ^ 53, "9007199254740992"); (2 ^ 53 + 1, "9007199254740992");
      (2 ^ 53 + 2, "9007199254740994");
      (2 ^ 63 - 1, "9223372036854776000");
      (2 ^ 64, "18446744073709552000");
      (2 ^ 69, "590295810358705700000");
      (10 ^ 21 - 1, "1e+21"); (10 ^ 21, "1e+21"); (-(10 ^ 21), "-1e+21");
      (15 * 10 ^ 20, "1.5e+21");
      (2 ^ 70, "1.1805916207174113e+21");
      (10 ^ 23, "1e+23");
      (2 ^ 100, "1.2676506002282294e+30");
      (2 ^ 1024 - 2 ^ 971, "1.7976931348623157e+308");
      (2 ^ 1024, "Infinity") ].
Proof.
  repeat (constructor; [vm_compute; reflexivity|]). constructor.
Qed.

(* ===================================================================== *)
(** ** The status in the message of a refusal *)
(* ===================================================================== *)






(* ===================================================================== *)
(** ** A refused commit *)
(* ===================================================================== *)

Section RefusedCommit.
Context `{Env}.


End RefusedCommit.


(* ===================================================================== *)
(** ** github.ts : reads and listings of a missing path *)
(* ===================================================================== *)

Section ReadFacts.
Context `{Env}.

Lemma getFile_not_ok (c : Credentials) (path : value) (n : Net) res r' :
  fetch (read_request c path) (remote n) = (Resolved res, r') →
  ok res = false →
  getFile (token c) (cred_owner c) (cred_repo c) path n
  = (Throw (read_error path (status res)),
     {| remote := r'; sent := sent n ++ [read_request c path] |}).
Proof.
  intros Hf Hok. unfold getFile, mbind, async_bind, bind, do_fetch.
  fold (read_request c path). by rewrite Hf, Hok.
Qed.

Lemma listFiles_not_ok (c : Credentials) (path : value) (n : Net) res r' :
  fetch (read_request c path) (remote n) = (Resolved res, r') →
  ok res = false →
  listFiles (token c) (cred_owner c) (cred_repo c) path n
  = (Throw (list_error path (status res)),
     {| remote := r'; sent := sent n ++ [read_request c path] |}).
Proof.
  intros Hf Hok. unfold listFiles, mbind, async_bind, bind, do_fetch.
  fold (read_request c path). by rewrite Hf, Hok.
Qed.

Lemma listFilesRecursive_not_ok (fuel : nat) (c : Credentials) (path : value)
    (n : Net) res r' :
  fetch (read_request c path) (remote n) = (Resolved res, r') →
  ok res = false →
  listFilesRecursive (S fuel) (token c) (cred_owner c) (cred_repo c) path n
  = (Throw (list_error path (status res)),
     {| remote := r'; sent := sent n ++ [read_request c path] |}).
Proof.
  intros Hf Hok. cbn [listFilesRecursive]. unfold mbind, async_bind, bind.
  by rewrite (listFiles_not_ok c path n res r' Hf Hok).
Qed.

(** The listing as [loadFiles] performs it, with its [.catch(() => [])]. *)
Lemma listing_of_missing_path (fuel : nat) (c : Credentials) (path : value)
    (n : Net) res r' :
  fetch (read_request c path) (remote n) = (Resolved res, r') →
  ok res = false →
  catch (listFilesRecursive (S fuel) (token c) (cred_owner c) (cred_repo c) path)
        (λ _, ret []) n
  = (Ok [], {| remote := r'; sent := sent n ++ [read_request c path] |}).
Proof.
  intros Hf Hok. unfold catch.
  by rewrite (listFilesRecursive_not_ok fuel c path n res r' Hf Hok).
Qed.

Lemma openFile_ok (sys : System) (file : RepoFile) c rf n' :
  creds (app sys) = Some c →
  getFile (token c) (cred_owner c) (cred_repo c) (rf_path file) (net sys) = (Ok rf, n') →
  openFile file sys =
    let shown :=
      match getDraft (rf_path file) (store sys) with
      | Some d =>
          if 0 <? d_savedAt d then (d_content d, d_frontmatter d, true)
          else (parsed_body (parseFile (fc_content rf)),
                parsed_frontmatter (parseFile (fc_content rf)), false)
      | None => (parsed_body (parseFile (fc_content rf)),
                 parsed_frontmatter (parseFile (fc_content rf)), false)
      end in
    set [p_screen editor; p_currentFile (Some rf); p_currentSha (fc_sha rf);
         p_body shown.1.1; p_frontmatter shown.1.2; p_editorTab edit;
         p_dirty shown.2; p_loading false;
         p_commitMessage ("Update " ++ to_string (rf_name file))]
        (with_net n' (set [p_loading true; p_error None] sys)).
Proof.
  intros Hc Hg. unfold openFile. rewrite Hc. unfold await.
  rewrite set_net, set_store, Hg. cbn zeta.
  destruct (getDraft (rf_path file) (store sys)) as [d|]; [|done].
  by destruct (0 <? d_savedAt d).
Qed.

Lemma openFile_throw (sys : System) (file : RepoFile) c e n' :
  creds (app sys) = Some c →
  getFile (token c) (cred_owner c) (cred_repo c) (rf_path file) (net sys) = (Throw e, n') →
  openFile file sys =
    with_app (apply_patch [p_loading true; p_error None;
                           p_error (Some (err_message e)); p_loading false] (app sys))
      (with_net n' sys).
Proof.
  intros Hc Hg. unfold openFile. rewrite Hc. unfold await.
  rewrite set_net, Hg. rewrite !set_quiet by done. done.
Qed.

Lemma open_with_draft (sys : System) (file : RepoFile) c rf n' d :
  creds (app sys) = Some c →
  getFile (token c) (cred_owner c) (cred_repo c) (rf_path file) (net sys) = (Ok rf, n') →
  getDraft (rf_path file) (store sys) = Some d →
  0 < d_savedAt d →
  let sys' := openFile file sys in
  body (app sys') = d_content d ∧
  frontmatter (app sys') = d_frontmatter d ∧
  dirty (app sys') = true.
Proof.
  intros Hc Hg Hd Hpos. cbn zeta. rewrite (openFile_ok sys file c rf n' Hc Hg).
  cbn zeta. rewrite !set_app, Hd. apply Z.ltb_lt in Hpos. rewrite Hpos. done.
Qed.

Lemma open_without_draft (sys : System) (file : RepoFile) c rf n' :
  creds (app sys) = Some c →
  getFile (token c) (cred_owner c) (cred_repo c) (rf_path file) (net sys) = (Ok rf, n') →
  (∀ d, getDraft (rf_path file) (store sys) = Some d → ¬ 0 < d_savedAt d) →
  let sys' := openFile file sys in
  body (app sys') = parsed_body (parseFile (fc_content rf)) ∧
  frontmatter (app sys') = parsed_frontmatter (parseFile (fc_content rf)) ∧
  dirty (app sys') = false.
Proof.
  intros Hc Hg Hno. cbn zeta. rewrite (openFile_ok sys file c rf n' Hc Hg).
  cbn zeta. rewrite !set_app.
  destruct (getDraft (rf_path file) (store sys)) as [d|]; [|done].
  destruct (0 <? d_savedAt d) eqn:E; [|done].
  apply Z.ltb_lt in E. by destruct (Hno d).
Qed.

Lemma open_enters_editor (sys : System) (file : RepoFile) c rf n' :
  creds (app sys) = Some c →
  getFile (token c) (cred_owner c) (cred_repo c) (rf_path file) (net sys) = (Ok rf, n') →
  screen (app (openFile file sys)) = editor ∧
  currentFile (app (openFile file sys)) = Some rf.
Proof.
  intros Hc Hg. rewrite (openFile_ok sys file c rf n' Hc Hg).
  cbn zeta. by rewrite !set_app.
Qed.

(** C3. For every open of a path whose remote read succeeds: when the
    local store holds a draft for the path with [savedAt > 0], the
    session shows the content and the frontmatter of the draft and is
    dirty, whatever the remote file contains; when it holds no such
    draft, the session shows the parse of the remote content and is
    not dirty. *)
Theorem open_shows_draft_or_remote (sys : System) (file : RepoFile) c rf n' :
  creds (app sys) = Some c →
  getFile (token c) (cred_owner c) (cred_repo c) (rf_path file) (net sys) = (Ok rf, n') →
  let sys' := openFile file sys in
  screen (app sys') = editor ∧
  currentFile (app sys') = Some rf ∧
  (∀ d, getDraft (rf_path file) (store sys) = Some d → 0 < d_savedAt d →
     body (app sys') = d_content d ∧
     frontmatter (app sys') = d_frontmatter d ∧
     dirty (app sys') = true) ∧
  ((∀ d, getDraft (rf_path file) (store sys) = Some d → ¬ 0 < d_savedAt d) →
     body (app sys') = parsed_body (parseFile (fc_content rf)) ∧
     frontmatter (app sys') = parsed_frontmatter (parseFile (fc_content rf)) ∧
     dirty (app sys') = false).
Proof.
  intros Hc Hg. cbn zeta.
  destruct (open_enters_editor sys file c rf n' Hc Hg) as [Hscreen Hfile].
  split; [exact Hscreen|]. split; [exact Hfile|]. split.
  - intros d Hd Hpos. by apply (open_with_draft sys file c rf n' d).
  - intros Hno. by apply (open_without_draft sys file c rf n').
Qed.

(** The baseline that [openFile] records is the sha of the remote
    read, also when a draft is shown. *)
Lemma open_records_remote_sha (sys : System) (file : RepoFile) c rf n' :
  creds (app sys) = Some c →
  getFile (token c) (cred_owner c) (cred_repo c) (rf_path file) (net sys) = (Ok rf, n') →
  currentSha (app (openFile file sys)) = fc_sha rf.
Proof.
  intros Hc Hg. rewrite (openFile_ok sys file c rf n' Hc Hg).
  cbn zeta. by rewrite !set_app.
Qed.

(** A commit submits the baseline of the session as the expected
    version token, and omits it when there is none. *)
Lemma commit_submits_baseline (sys : System) c f :
  get (req_body (commit_request sys c f)) "sha"
  = Ok (if truthy (currentSha (app sys)) then currentSha (app sys) else JUndefined).
Proof.
  unfold commit_request, put_request, js_or. cbn.
  destruct (truthy (currentSha (app sys))) eqn:E; cbn; [|done].
  rewrite E. done.
Qed.

End ReadFacts.

(* ===================================================================== *)
(** ** MobileApp.tsx : loadFiles, goBack *)
(* ===================================================================== *)

Section BrowserFacts.
Context `{Env}.

(** [loadFiles] touches [loading], [error] and [files] only. *)
Lemma loadFiles_frame (fuel : nat) (c : Credentials) (sys : System) :
  let sys' := loadFiles fuel c sys in
  store sys' = store sys ∧ timers sys' = timers sys ∧ cleanup sys' = cleanup sys ∧
  next_tid sys' = next_tid sys ∧ now sys' = now sys ∧
  creds (app sys') = creds (app sys) ∧
  screen (app sys') = screen (app sys) ∧
  currentFile (app sys') = currentFile (app sys) ∧
  currentSha (app sys') = currentSha (app sys) ∧
  body (app sys') = body (app sys) ∧
  frontmatter (app sys') = frontmatter (app sys) ∧
  dirty (app sys') = dirty (app sys).
Proof.
  cbn zeta. unfold loadFiles, await.
  rewrite (set_quiet [p_loading true; p_error None]) by done.
  match goal with |- context [?m (net ?s)] => destruct (m (net s)) as [[[pages posts]|e|] n] end;
    rewrite ?set_quiet by done; done.
Qed.

Lemma loadFiles_missing (fuel : nat) (c : Credentials) (sys : System)
    res1 r1 res2 r2 :
  fetch (read_request c (JStr "src/content/pages")) (remote (net sys))
    = (Resolved res1, r1) →
  ok res1 = false →
  fetch (read_request c (JStr "src/content/posts")) r1 = (Resolved res2, r2) →
  ok res2 = false →
  let sys' := loadFiles (S fuel) c sys in
  files (app sys') = [] ∧ error (app sys') = None ∧ loading (app sys') = false.
Proof.
  intros H1 Hok1 H2 Hok2. cbn zeta.
  pose (n1 := {| remote := r1;
                 sent := sent (net sys) ++ [read_request c (JStr "src/content/pages")] |}).
  pose (n2 := {| remote := r2;
                 sent := sent n1 ++ [read_request c (JStr "src/content/posts")] |}).
  assert (loadFiles (S fuel) c sys
          = with_app (apply_patch [p_loading true; p_error None;
                                   p_files []; p_loading false] (app sys))
              (with_net n2 sys)) as ->.
  { unfold loadFiles, await.
    rewrite (set_quiet [p_loading true; p_error None]) by done.
    cbn [net with_app]. unfold mbind, async_bind. unfold bind at 1.
    rewrite (listing_of_missing_path fuel c _ (net sys) res1 r1 H1 Hok1).
    cbv beta iota. unfold bind at 1. fold n1.
    rewrite (listing_of_missing_path fuel c _ n1 res2 r2 H2 Hok2).
    cbv beta iota. unfold ret. rewrite set_quiet by done. reflexivity. }
  split_conj; reflexivity.
Qed.

(** C4. A listing against a path that the remote store does not have
    (an answer that is not ok, such as 404) ends in the empty list:
    [loadFiles] catches the failure of each of its two listings and
    shows no files and no error.  A read of a single file against
    such a path is a hard failure: [getFile] throws, and [openFile]
    surfaces the message in [state.error] and opens no session. *)
Theorem missing_path_empty_listing_failed_read (sys : System) (c : Credentials) :
  (∀ fuel path n res r',
     fetch (read_request c path) (remote n) = (Resolved res, r') →
     ok res = false →
     fst (catch (listFilesRecursive (S fuel) (token c) (cred_owner c) (cred_repo c) path)
            (λ _, ret []) n) = Ok []) ∧
  (∀ fuel res1 r1 res2 r2,
     fetch (read_request c (JStr "src/content/pages")) (remote (net sys))
       = (Resolved res1, r1) →
     ok res1 = false →
     fetch (read_request c (JStr "src/content/posts")) r1 = (Resolved res2, r2) →
     ok res2 = false →
     let sys' := loadFiles (S fuel) c sys in
     files (app sys') = [] ∧ error (app sys') = None ∧ loading (app sys') = false) ∧
  (∀ file res r',
     creds (app sys) = Some c →
     fetch (read_request c (rf_path file)) (remote (net sys)) = (Resolved res, r') →
     ok res = false →
     let e := read_error (rf_path file) (status res) in
     let sys' := openFile file sys in
     fst (getFile (token c) (cred_owner c) (cred_repo c) (rf_path file) (net sys))
       = Throw e ∧
     error (app sys') = Some (err_message e) ∧
     screen (app sys') = screen (app sys) ∧
     currentFile (app sys') = currentFile (app sys) ∧
     files (app sys') = files (app sys)).
Proof.
  split; [|split].
  - intros fuel path n res r' Hf Hok.
    by rewrite (listing_of_missing_path fuel c path n res r' Hf Hok).
  - intros fuel res1 r1 res2 r2 H1 Hok1 H2 Hok2.
    by apply (loadFiles_missing fuel c sys res1 r1 res2 r2).
  - intros file res r' Hc Hf Hok. cbn zeta.
    pose proof (getFile_not_ok c (rf_path file) (net sys) res r' Hf Hok) as Hg.
    rewrite (openFile_throw sys file c _ _ Hc Hg), Hg. done.
Qed.

Lemma goBack_resets (fuel : nat) (sys : System) :
  let sys' := goBack fuel sys in
  dirty (app sys') = false ∧ body (app sys') = "" ∧ frontmatter (app sys') = [] ∧
  currentSha (app sys') = JNull ∧ currentFile (app sys') = None ∧
  screen (app sys') = browser ∧
  creds (app sys') = creds (app sys) ∧
  store sys' = store sys.
Proof.
  cbn zeta. unfold goBack.
  destruct (creds (app sys)) as [c|] eqn:Hc.
  - match goal with |- context [loadFiles fuel c ?s] =>
      pose proof (loadFiles_frame fuel c s) as Hl end.
    cbn zeta in Hl. destruct Hl as (-> & _ & _ & _ & _ & -> & -> & -> & -> & -> & -> & ->).
    rewrite !set_app, set_store. cbn. done.
  - rewrite !set_app, set_store. cbn. done.
Qed.

(** C9. Going back from the editor to the browser resets the session
    in memory (not dirty, empty body and frontmatter, no baseline, no
    current file) and leaves the local store, with the draft of the
    file, as it was; opening the same path again then shows that draft
    and is dirty. *)
Theorem back_keeps_the_draft (fuel : nat) (sys : System) (file : RepoFile) c d rf n' :
  creds (app sys) = Some c →
  getDraft (rf_path file) (store sys) = Some d →
  0 < d_savedAt d →
  getFile (token c) (cred_owner c) (cred_repo c) (rf_path file)
    (net (goBack fuel sys)) = (Ok rf, n') →
  let back := goBack fuel sys in
  let again := openFile file back in
  (dirty (app back) = false ∧ body (app back) = "" ∧ frontmatter (app back) = [] ∧
   currentSha (app back) = JNull ∧ currentFile (app back) = None) ∧
  store back = store sys ∧
  getDraft (rf_path file) (store back) = Some d ∧
  (dirty (app again) = true ∧ body (app again) = d_content d ∧
   frontmatter (app again) = d_frontmatter d).
Proof.
  intros Hc Hd Hpos Hg. cbn zeta.
  destruct (goBack_resets fuel sys) as (Hdirty & Hbody & Hfm & Hsha & Hfile & _ & Hcreds & Hstore).
  repeat split; try done.
  1: by rewrite Hstore.
  all: rewrite <- Hstore in Hd; rewrite Hc in Hcreds;
    by destruct (open_with_draft (goBack fuel sys) file c rf n' d Hcreds Hg Hd Hpos)
      as (? & ? & ?).
Qed.

End BrowserFacts.

(* ===================================================================== *)
(** ** Timers *)
(* ===================================================================== *)

Lemma insert_by_deadline_perm (t : Timer) (l : list Timer) :
  insert_by_deadline t l ≡ₚ t :: l.
Proof.
  induction l as [|u l IH]; [done|]. cbn.
  destruct (fire_at t <? fire_at u); [done|].
  rewrite IH. apply perm_swap.
Qed.

Lemma insert_by_deadline_sorted (t : Timer) (l : list Timer) :
  StronglySorted earlier l → StronglySorted earlier (insert_by_deadline t l).
Proof.
  induction 1 as [|u l Hl IH Hu]; cbn.
  - repeat constructor.
  - destruct (fire_at t <? fire_at u) eqn:E.
    + apply Z.ltb_lt in E. constructor; [by constructor|].
      constructor; [unfold earlier; lia|].
      eapply Forall_impl; [exact Hu|]. unfold earlier. intros; lia.
    + apply Z.ltb_ge in E. constructor; [done|].
      rewrite insert_by_deadline_perm. by constructor.
Qed.

Lemma by_deadline_spec (l : list Timer) :
  by_deadline l ≡ₚ l ∧ StronglySorted earlier (by_deadline l).
Proof.
  unfold by_deadline.
  cut (∀ acc, StronglySorted earlier acc →
         fold_left (λ sorted t, insert_by_deadline t sorted) l acc ≡ₚ l ++ acc ∧
         StronglySorted earlier (fold_left (λ sorted t, insert_by_deadline t sorted) l acc)).
  { intros Hc. destruct (Hc [] (SSorted_nil _)) as [Hp Hs].
    by rewrite app_nil_r in Hp. }
  induction l as [|t l IH]; intros acc Hacc; [done|].
  cbn [fold_left].
  destruct (IH (insert_by_deadline t acc) (insert_by_deadline_sorted t acc Hacc)) as [Hp Hs].
  split; [|done]. rewrite Hp, insert_by_deadline_perm.
  symmetry. apply Permutation_middle.
Qed.

Section TimerFacts.
Context `{Env}.

Lemma fire_frame (t : Timer) (sys : System) :
  timers (fire t sys) = timers sys ∧ cleanup (fire t sys) = cleanup sys ∧
  next_tid (fire t sys) = next_tid sys ∧
  now (fire t sys) = Z.max (now sys) (fire_at t) ∧
  currentFile (app (fire t sys)) = currentFile (app sys) ∧
  body (app (fire t sys)) = body (app sys) ∧
  frontmatter (app (fire t sys)) = frontmatter (app sys) ∧
  dirty (app (fire t sys)) = dirty (app sys).
Proof.
  unfold fire. destruct (action t); [done|].
  rewrite set_quiet by done. done.
Qed.

Lemma fire_clear (t : Timer) (sys : System) :
  is_autosave t = false → store (fire t sys) = store sys.
Proof.
  unfold fire, is_autosave. destruct (action t); [done|]. intros _.
  by rewrite set_store.
Qed.

Lemma fire_autosave (t : Timer) (sys : System) p content fm :
  action t = AutoSave p content fm →
  store (fire t sys)
  = saveDraft p (mkDraft p content fm (Z.max (now sys) (fire_at t))) (store sys).
Proof. unfold fire. by intros ->. Qed.

Lemma fire_all_frame (l : list Timer) (sys : System) :
  timers (fire_all l sys) = timers sys ∧ cleanup (fire_all l sys) = cleanup sys ∧
  next_tid (fire_all l sys) = next_tid sys ∧
  currentFile (app (fire_all l sys)) = currentFile (app sys) ∧
  body (app (fire_all l sys)) = body (app sys) ∧
  frontmatter (app (fire_all l sys)) = frontmatter (app sys) ∧
  dirty (app (fire_all l sys)) = dirty (app sys).
Proof.
  revert sys. induction l as [|t l IH]; intros sys; [done|].
  unfold fire_all in *. cbn [fold_left].
  destruct (IH (fire t sys)) as (-> & -> & -> & -> & -> & -> & ->).
  destruct (fire_frame t sys) as (-> & -> & -> & _ & -> & -> & -> & ->). done.
Qed.

(** Timeouts that only clear the success message leave the store
    alone and move the clock no further than the latest deadline. *)
Lemma fire_all_clear (l : list Timer) (sys : System) (bound : Z) :
  Forall (λ t, is_autosave t = false) l →
  Forall (λ t, fire_at t ≤ bound) l →
  now sys ≤ bound →
  store (fire_all l sys) = store sys ∧ now (fire_all l sys) ≤ bound.
Proof.
  revert sys. induction l as [|t l IH]; intros sys Hc Hb Hn; [done|].
  inversion_clear Hc as [|? ? Ht Hc']. inversion_clear Hb as [|? ? Htb Hb'].
  unfold fire_all in *. cbn [fold_left].
  destruct (IH (fire t sys) Hc' Hb') as [Hs Hnow].
  { destruct (fire_frame t sys) as (_ & _ & _ & -> & _). lia. }
  rewrite Hs. split; [by apply fire_clear | done].
Qed.

Lemma fire_all_store_clear (l : list Timer) (sys : System) :
  Forall (λ t, is_autosave t = false) l →
  store (fire_all l sys) = store sys.
Proof.
  revert sys. induction l as [|t l IH]; intros sys Hc; [done|].
  inversion_clear Hc as [|? ? Ht Hc'].
  unfold fire_all in *. cbn [fold_left]. rewrite IH by done. by apply fire_clear.
Qed.

Lemma filter_singleton_split {A} (P : A → Prop) `{∀ x, Decision (P x)}
    (l : list A) (a : A) :
  filter P l = [a] →
  ∃ l1 l2 : list A,
    l = (l1 ++ a :: l2)%list ∧ Forall (λ x, ¬ P x) l1 ∧ Forall (λ x, ¬ P x) l2.
Proof.
  induction l as [|x l IH]; [done|].
  rewrite filter_cons. destruct (decide (P x)) as [Hx|Hx].
  - intros [= -> Hl]. exists [], l. repeat split; [constructor|].
    apply Forall_forall. intros y Hy Py.
    assert (y ∈ filter P l) as Hin by (apply list_elem_of_filter; done).
    rewrite Hl in Hin. by apply elem_of_nil in Hin.
  - intros Hl. destruct (IH Hl) as (l1 & l2 & -> & H1 & H2).
    exists (x :: l1), l2. repeat split; [|done]. by constructor.
Qed.

(** Firing a sorted batch that holds exactly one autosave writes
    exactly its draft, stamped with its deadline. *)
Lemma fire_all_one_autosave (l : list Timer) (sys : System) (a : Timer) p content fm :
  StronglySorted earlier l →
  filter (λ t, is_autosave t = true) l = [a] →
  action a = AutoSave p content fm →
  now sys ≤ fire_at a →
  store (fire_all l sys)
  = saveDraft p (mkDraft p content fm (fire_at a)) (store sys).
Proof.
  intros Hsorted Hfilter Ha Hnow.
  destruct (filter_singleton_split _ l a Hfilter) as (l1 & l2 & -> & H1 & H2).
  assert (∀ l', Forall (λ x, ¬ is_autosave x = true) l' →
                Forall (λ t, is_autosave t = false) l') as Hneg.
  { intros l' Hl'. eapply Forall_impl; [exact Hl'|].
    intros x. apply not_true_is_false. }
  apply Hneg in H1, H2.
  assert (Forall (λ t, fire_at t ≤ fire_at a) l1) as Hb.
  { apply Forall_forall. intros t Ht.
    eapply (StronglySorted_app_1_elem_of earlier l1 (a :: l2)); [done|done|].
    apply list_elem_of_here. }
  unfold fire_all. rewrite fold_left_app. cbn [fold_left].
  fold (fire_all l1 sys). fold (fire_all l2 (fire a (fire_all l1 sys))).
  destruct (fire_all_clear l1 sys (fire_at a) H1 Hb Hnow) as [Hs1 Hn1].
  rewrite (fire_all_store_clear l2) by done.
  rewrite (fire_autosave a _ p content fm Ha), Hs1.
  by rewrite Z.max_r.
Qed.

End TimerFacts.

(* ===================================================================== *)
(** ** The autosave effect *)
(* ===================================================================== *)

Section AutosaveFacts.
Context `{Env}.

Lemma filter_comm {A} (P Q : A → Prop) `{∀ x, Decision (P x)} `{∀ x, Decision (Q x)}
    (l : list A) :
  filter P (filter Q l) = filter Q (filter P l).
Proof. rewrite !list_filter_filter. apply list_filter_iff. tauto. Qed.

Lemma tidy_with_app (a : AppState) (sys : System) : tidy sys → tidy (with_app a sys).
Proof. done. Qed.

(** After the cleanup of the effect no autosave is pending. *)
Lemma cleanup_clears (sys : System) :
  tidy sys →
  pending_autosaves
    (match cleanup sys with Some id => clearTimeout id sys | None => sys end) = [].
Proof.
  unfold tidy, pending_autosaves. intros [Hnone | (t & Hone & Hc)].
  - destruct (cleanup sys); [|done].
    cbn. by rewrite filter_comm, Hnone.
  - rewrite Hc. cbn. rewrite filter_comm, Hone.
    rewrite filter_cons_False; [done|]. by intros Hne.
Qed.

Lemma autosave_effect_scheduled (sys : System) (f : FileContent) :
  tidy sys →
  currentFile (app sys) = Some f →
  dirty (app sys) = true →
  pending_autosaves (autosave_effect sys)
    = [mkTimer (next_tid sys) (now sys + 1000) (autosave_of f sys)] ∧
  cleanup (autosave_effect sys) = Some (next_tid sys).
Proof.
  intros Ht Hf Hd. pose proof (cleanup_clears sys Ht) as Hclear.
  unfold autosave_effect, autosave_of, pending_autosaves in *.
  destruct (cleanup sys) as [id|]; cbn in *; rewrite Hf, Hd; cbn;
    rewrite filter_app, Hclear; done.
Qed.

Lemma autosave_effect_idle (sys : System) :
  tidy sys →
  currentFile (app sys) = None ∨ dirty (app sys) = false →
  pending_autosaves (autosave_effect sys) = [].
Proof.
  intros Ht Hidle. pose proof (cleanup_clears sys Ht) as Hclear.
  unfold autosave_effect, pending_autosaves in *.
  destruct (cleanup sys) as [id|]; cbn in *;
    destruct (currentFile (app sys)); destruct (dirty (app sys));
    cbn; try done; by destruct Hidle.
Qed.

Lemma tidy_autosave_effect (sys : System) : tidy sys → tidy (autosave_effect sys).
Proof.
  intros Ht.
  destruct (currentFile (app sys)) as [f|] eqn:Hf;
    [destruct (dirty (app sys)) eqn:Hd|].
  - destruct (autosave_effect_scheduled sys f Ht Hf Hd) as [Hp Hc].
    right. eexists. split; [exact Hp|exact Hc].
  - left. apply autosave_effect_idle; auto.
  - left. apply autosave_effect_idle; auto.
Qed.

Lemma tidy_set (p : list Assign) (sys : System) : tidy sys → tidy (set p sys).
Proof.
  intros Ht. unfold set. destruct (deps_changed _ _ _); [|done].
  by apply tidy_autosave_effect.
Qed.

Lemma elapse_frame (dt : Z) (sys : System) :
  timers (elapse dt sys)
    = filter (λ t, ¬ fire_at t ≤ now sys + Z.max 0 dt) (timers sys) ∧
  cleanup (elapse dt sys) = cleanup sys ∧
  next_tid (elapse dt sys) = next_tid sys ∧
  now (elapse dt sys) = now sys + Z.max 0 dt ∧
  currentFile (app (elapse dt sys)) = currentFile (app sys) ∧
  body (app (elapse dt sys)) = body (app sys) ∧
  frontmatter (app (elapse dt sys)) = frontmatter (app sys) ∧
  dirty (app (elapse dt sys)) = dirty (app sys).
Proof.
  unfold elapse. cbn [timers cleanup next_tid now app with_now].
  match goal with |- context [fold_left ?g ?l ?s] =>
    change (fold_left g l s) with (fire_all l s);
    destruct (fire_all_frame l s) as (-> & -> & -> & -> & -> & -> & ->)
  end. done.
Qed.

Lemma tidy_elapse (dt : Z) (sys : System) : tidy sys → tidy (elapse dt sys).
Proof.
  unfold tidy, pending_autosaves.
  destruct (elapse_frame dt sys) as (-> & -> & _).
  set (late := λ t : Timer, ¬ fire_at t ≤ now sys + Z.max 0 dt).
  rewrite (filter_comm _ late).
  intros [-> | (t & -> & Hc)]; [by left|].
  rewrite filter_cons. destruct (decide (late t)); [|by left].
  right. by exists t.
Qed.

Lemma edit_frame (e : Edit) (sys : System) :
  currentFile (app (apply_edit e sys)) = currentFile (app sys) ∧
  dirty (app (apply_edit e sys)) = true ∧
  store (apply_edit e sys) = store sys ∧
  now (apply_edit e sys) = now sys ∧
  match e with
  | EditBody b =>
      body (app (apply_edit e sys)) = b ∧
      frontmatter (app (apply_edit e sys)) = frontmatter (app sys)
  | EditFrontmatter fm =>
      body (app (apply_edit e sys)) = body (app sys) ∧
      frontmatter (app (apply_edit e sys)) = fm
  end.
Proof.
  destruct e; unfold apply_edit, onBodyChange, onFrontmatterChange;
    rewrite !set_app, set_store, set_now; done.
Qed.




Lemma tidy_at_most_one (sys : System) :
  tidy sys → (length (pending_autosaves sys) ≤ 1)%nat.
Proof. intros [-> | (t & -> & _)]; cbn; lia. Qed.

(** An edit that changes a dependency runs the effect. *)
Lemma edit_runs_effect (e : Edit) (sys : System) :
  changes e sys = true →
  apply_edit e sys
  = autosave_effect
      (with_app (app (apply_edit e sys)) sys).
Proof.
  intros Hch.
  destruct e as [b|fm]; unfold apply_edit, onBodyChange, onFrontmatterChange.
  - rewrite set_app. unfold set, deps_changed. cbn in *.
    destruct (String.eqb (body (app sys)) b); cbn in *; [|done].
    by destruct (dirty (app sys)).
  - rewrite set_app. unfold set, deps_changed. cbn.
    by rewrite orb_true_r.
Qed.

End AutosaveFacts.

Section Debounce.
Context `{Env}.


End Debounce.

Section DebounceOnTheHub.
Local Existing Instance Hub.env.


End DebounceOnTheHub.

Section WitnessesOnTheHub.
Local Existing Instance Hub.env.

Lemma open_shows_draft_or_remote_witness :
  let sys' := openFile Hub.hello_entry Hub.back in
  screen (app sys') = editor ∧
  currentFile (app sys') = Some Hub.hello_file ∧
  (∀ d, getDraft (JStr Hub.hello) (store Hub.back) = Some d → 0 < d_savedAt d →
     body (app sys') = d_content d ∧
     frontmatter (app sys') = d_frontmatter d ∧
     dirty (app sys') = true) ∧
  ((∀ d, getDraft (JStr Hub.hello) (store Hub.back) = Some d → ¬ 0 < d_savedAt d) →
     body (app sys') = parsed_body (parseFile (fc_content Hub.hello_file)) ∧
     frontmatter (app sys') = parsed_frontmatter (parseFile (fc_content Hub.hello_file)) ∧
     dirty (app sys') = false).
Proof.
  eapply (open_shows_draft_or_remote Hub.back Hub.hello_entry Hub.me Hub.hello_file);
    vm_compute; reflexivity.
Defined.

Lemma missing_path_empty_listing_failed_read_witness :
  (files (app (loadFiles 1 Hub.me Hub.bare)) = [] ∧
   error (app (loadFiles 1 Hub.me Hub.bare)) = None ∧
   loading (app (loadFiles 1 Hub.me Hub.bare)) = false) ∧
  (fst (getFile Hub.the_token Hub.the_owner Hub.the_repo
          (JStr "src/content/posts/gone.mdx") (net Hub.sys0))
     = Throw (read_error (JStr "src/content/posts/gone.mdx") 404) ∧
   error (app (openFile Hub.gone_entry Hub.sys0))
     = Some (err_message (read_error (JStr "src/content/posts/gone.mdx") 404)) ∧
   screen (app (openFile Hub.gone_entry Hub.sys0)) = browser ∧
   currentFile (app (openFile Hub.gone_entry Hub.sys0)) = None ∧
   files (app (openFile Hub.gone_entry Hub.sys0)) = []).
Proof.
  split.
  - destruct (missing_path_empty_listing_failed_read Hub.bare Hub.me) as (_ & Hload & _).
    eapply (Hload 0%nat); vm_compute; reflexivity.
  - destruct (missing_path_empty_listing_failed_read Hub.sys0 Hub.me) as (_ & _ & Hread).
    apply (Hread Hub.gone_entry
             (mkResponse false 404 (inr (JObj [("message", JStr "Not Found")])))
             Hub.files0); vm_compute; reflexivity.
Defined.

Lemma back_keeps_the_draft_witness :
  let back := goBack 3 Hub.saved in
  let again := openFile Hub.hello_entry back in
  (dirty (app back) = false ∧ body (app back) = "" ∧ frontmatter (app back) = [] ∧
   currentSha (app back) = JNull ∧ currentFile (app back) = None) ∧
  store back = store Hub.saved ∧
  getDraft (JStr Hub.hello) (store back) = Some Hub.hello_draft ∧
  (dirty (app again) = true ∧ body (app again) = "New body" ∧
   frontmatter (app again) = []).
Proof.
  eapply (back_keeps_the_draft 3 Hub.saved Hub.hello_entry Hub.me
            Hub.hello_draft Hub.hello_file);
    vm_compute; reflexivity.
Defined.

End WitnessesOnTheHub.
(* ===================================================================== *)
(** ** More of github.ts *)
(* ===================================================================== *)

Lemma is_str_eq (v : value) (s : string) : is_str v s = true → v = JStr s.
Proof.
  destruct v; cbn; try done. intros E. by apply String.eqb_eq in E as ->.
Qed.

Section ListingFacts.
Context `{Env}.

Lemma for_of_files_only (fuel : nat) (tok o r : string)
    (IH : ∀ path n l n',
        listFilesRecursive fuel tok o r path n = (Ok l, n') →
        Forall (λ f, rf_type f = JStr "file") l)
    (items : list RepoFile) :
  ∀ acc n l n',
    Forall (λ f, rf_type f = JStr "file") acc →
    for_of items acc
      (λ results item,
         if is_str (rf_type item) "file" then ret (results ++ [item])%list
         else if is_str (rf_type item) "dir" then
           children ← listFilesRecursive fuel tok o r (rf_path item) ;
           ret (results ++ children)%list
         else ret results) n = (Ok l, n') →
    Forall (λ f, rf_type f = JStr "file") l.
Proof.
  induction items as [|x items IHitems]; intros acc n l n' Hacc.
  - cbn. by intros [= <- _].
  - cbn [for_of]. unfold bind at 1.
    destruct (is_str (rf_type x) "file") eqn:Hfile.
    + cbn. apply IHitems. apply Forall_app. split; [done|].
      constructor; [by apply is_str_eq|constructor].
    + destruct (is_str (rf_type x) "dir").
      * unfold mbind, async_bind. unfold bind at 1.
        destruct (listFilesRecursive fuel tok o r (rf_path x) n)
          as [[children|e|] n1] eqn:Hrec; cbn; [|done..].
        apply IHitems. apply Forall_app. split; [done|]. by eapply IH.
      * cbn. by apply IHitems.
Qed.

(** Whatever the remote store answers, a recursive listing that
    returns holds entries of type "file" only. *)
Lemma recursive_listing_files_only (fuel : nat) (tok o r : string) (path : value)
    (n n' : Net) (l : list RepoFile) :
  listFilesRecursive fuel tok o r path n = (Ok l, n') →
  Forall (λ f, rf_type f = JStr "file") l.
Proof.
  revert path n l n'. induction fuel as [|fuel IH]; intros path n l n'; [done|].
  cbn [listFilesRecursive]. unfold mbind, async_bind. unfold bind at 1.
  destruct (listFiles tok o r path n) as [[items|e|] n1]; [|done..].
  by apply for_of_files_only.
Qed.

End ListingFacts.

(* ===================================================================== *)
(** ** github.ts : the recursive listing *)
(* ===================================================================== *)

Section TreeFacts.
Context `{Env}.
Variable stable : Net → Prop.
Variables tok o r : string.

Lemma holds_children (e : RepoFile) (children : list Tree) :
  holds stable tok o r (Folder e children) →
  Forall (holds stable tok o r) children.
Proof.
  intros (_ & _ & Hall). induction children as [|c l IH]; [constructor|].
  destruct Hall as [Hc Hl]. constructor; [done|by apply IH].
Qed.

Lemma depth_children (e : RepoFile) (children : list Tree) (fuel : nat) :
  (depth (Folder e children) ≤ S fuel)%nat →
  Forall (λ c, (depth c ≤ fuel)%nat) children.
Proof.
  cbn [depth]. intros Hd. apply Forall_forall. intros c Hc.
  assert (list_max (map depth children) ≤ fuel)%nat as Hmax by lia.
  apply list_max_le in Hmax. rewrite List.Forall_forall in Hmax.
  apply Hmax. apply in_map. by apply list_elem_of_In.
Qed.

(** The loop of [listFilesRecursive] over the entries of a directory,
    given that the recursive calls walk the trees of the children. *)
Lemma for_of_children (fuel : nat) (children : list Tree) :
  Forall (holds stable tok o r) children →
  Forall (λ c, match c with
               | Leaf _ => True
               | Folder e l =>
                   ∀ n, stable n →
                     ∃ n', listFilesRecursive fuel tok o r (rf_path e) n
                           = (Ok (files_of c), n') ∧ stable n'
               end) children →
  ∀ acc n, stable n →
    ∃ n', for_of (map entry_of children) acc
            (λ results item,
               if is_str (rf_type item) "file" then ret (results ++ [item])%list
               else if is_str (rf_type item) "dir" then
                 children ← listFilesRecursive fuel tok o r (rf_path item) ;
                 ret (results ++ children)%list
               else ret results) n
          = (Ok (acc ++ flat_map files_of children)%list, n') ∧ stable n'.
Proof.
  match goal with |- context [for_of _ _ ?f] => set (body := f) end.
  induction children as [|c l IH]; intros Hholds Hwalk acc n Hn.
  - exists n. cbn. by rewrite app_nil_r.
  - apply Forall_cons in Hholds as [Hc Hl]. apply Forall_cons in Hwalk as [Hwc Hwl].
    cbn [map for_of flat_map]. unfold bind at 1.
    destruct c as [e|e sub].
    + cbn [holds] in Hc. cbn [entry_of files_of]. unfold body at 1. rewrite Hc.
      destruct (is_str (rf_type e) "file"); cbn [ret].
      * destruct (IH Hl Hwl (acc ++ [e])%list n Hn) as (n' & -> & Hn').
        exists n'. by rewrite <- app_assoc.
      * destruct (IH Hl Hwl acc n Hn) as (n' & -> & Hn'). by exists n'.
    + destruct Hc as (Htype & _ & _). cbn [entry_of]. unfold body at 1. rewrite Htype.
      cbn [is_str]. change (String.eqb "dir" "file") with false.
      change (String.eqb "dir" "dir") with true. cbn iota.
      destruct (Hwc n Hn) as (n1 & Hsub & Hn1).
      unfold mbind, async_bind, bind. rewrite Hsub. cbn [ret].
      destruct (IH Hl Hwl (acc ++ files_of (Folder e sub))%list n1 Hn1) as (n' & -> & Hn').
      exists n'. by rewrite <- app_assoc.
Qed.

(** X1. When the remote store holds a tree under a directory, the
    recursive listing of the directory returns the files of the tree,
    depth first in the order of the listings: every directory is
    replaced by the files below it and entries of any other type are
    dropped.  The recursion ends for every tree, after as many nested
    calls as the tree is deep. *)
Theorem recursive_listing_walks_the_tree (fuel : nat) :
  ∀ e children n,
    holds stable tok o r (Folder e children) →
    (depth (Folder e children) ≤ fuel)%nat →
    stable n →
    ∃ n', listFilesRecursive fuel tok o r (rf_path e) n
          = (Ok (files_of (Folder e children)), n') ∧ stable n'.
Proof.
  induction fuel as [|fuel IH]; intros e children n Hholds Hdepth Hn.
  - cbn [depth] in Hdepth. lia.
  - pose proof (holds_children e children Hholds) as Hch.
    pose proof (depth_children e children fuel Hdepth) as Hd.
    destruct Hholds as (_ & Hlist & _).
    destruct (Hlist n Hn) as (n1 & Hl & Hn1).
    cbn [listFilesRecursive]. unfold mbind, async_bind, bind at 1. rewrite Hl.
    cbn [files_of].
    apply (for_of_children fuel children Hch); [|done].
    rewrite Forall_forall in Hch, Hd. apply Forall_forall. intros c Hc.
    destruct c as [e'|e' sub]; [done|].
    intros n2 Hn2. apply IH; [by apply Hch|by apply Hd|done].
Qed.

End TreeFacts.

Section WriteFacts.
Context `{Env}.

(** Whatever the answer, [putFile] sends its one request and nothing
    else. *)
Lemma putFile_sent (tok o r : string) (path : value) (content message : string)
    (sha : value) (n : Net) :
  snd (putFile tok o r path content message sha n)
  = {| remote := snd (fetch (put_request tok o r path content message sha) (remote n));
       sent := sent n ++ [put_request tok o r path content message sha] |}.
Proof.
  unfold putFile, mbind, async_bind, bind, do_fetch.
  destruct (fetch _ (remote n)) as [[e|res] r']; [done|].
  destruct (ok res); cbn [negb].
  - unfold res_json, lift, throw, ret.
    destruct (json res) as [e|data]; [done|].
    destruct (get data "commit") as [cm| |]; [|done..].
    destruct (get cm "sha"); [|done..].
    by destruct (get cm "html_url").
  - unfold catch, res_json, lift, throw, ret.
    destruct (json res) as [e|v]; cbn -[get].
    + done.
    + by destruct (get v "message").
Qed.

(** X2. A commit of an open session sends exactly one request, whether
    it succeeds or fails: a PUT to the contents URL of the current
    file, carrying the commit message, the serialized file in base64 and
    the baseline sha of the session; the sha is left out when the
    session has none (null or empty). *)
Theorem commit_sends_one_request (sys : System) c f :
  creds (app sys) = Some c →
  currentFile (app sys) = Some f →
  let rq := commit_request sys c f in
  let sys' := handleCommit sys in
  sent (net sys') = (sent (net sys) ++ [rq])%list ∧
  remote (net sys') = snd (fetch rq (remote (net sys))) ∧
  req_method rq = "PUT" ∧
  req_url rq = contents_url (cred_owner c) (cred_repo c) (fc_path f) ∧
  get (req_body rq) "message" = Ok (JStr (commitMessage (app sys))) ∧
  get (req_body rq) "content"
    = Ok (JStr (btoa_utf8 (serializeFile (frontmatter (app sys)) (body (app sys))))) ∧
  get (req_body rq) "sha"
    = Ok (if truthy (currentSha (app sys)) then currentSha (app sys) else JUndefined).
Proof.
  intros Hc Hf. cbn zeta.
  assert (net (handleCommit sys)
          = snd (putFile (token c) (cred_owner c) (cred_repo c) (fc_path f)
                   (serializeFile (frontmatter (app sys)) (body (app sys)))
                   (commitMessage (app sys)) (js_or (currentSha (app sys)) JUndefined)
                   (net sys))) as Hnet.
  { unfold handleCommit. rewrite Hc, Hf. unfold await. rewrite set_net.
    destruct (putFile _ _ _ _ _ _ _ (net sys)) as [[result|e|] n'];
      cbn [snd setTimeout net with_net with_store]; rewrite ?set_net; done. }
  rewrite Hnet, putFile_sent. fold (commit_request sys c f).
  split_conj; try reflexivity.
  apply commit_submits_baseline.
Qed.

(** X3. When the remote store accepts a write but its answer cannot be
    read (the body is not JSON or has no commit object), the commit is
    reported as failed: an error is shown, the session stays as it was
    with its draft and its baseline, while the remote store is in the
    state after the write. *)
Theorem accepted_write_with_unreadable_answer (sys : System) c f res r' :
  creds (app sys) = Some c →
  currentFile (app sys) = Some f →
  fetch (commit_request sys c f) (remote (net sys)) = (Resolved res, r') →
  ok res = true →
  unreadable res →
  let sys' := handleCommit sys in
  is_Some (error (app sys')) ∧
  dirty (app sys') = dirty (app sys) ∧
  store sys' = store sys ∧
  currentSha (app sys') = currentSha (app sys) ∧
  body (app sys') = body (app sys) ∧
  remote (net sys') = r'.
Proof.
  intros Hc Hf Hfetch Hok Hun. cbn zeta.
  assert (∃ e, putFile (token c) (cred_owner c) (cred_repo c) (fc_path f)
                 (serializeFile (frontmatter (app sys)) (body (app sys)))
                 (commitMessage (app sys)) (js_or (currentSha (app sys)) JUndefined)
                 (net sys)
               = (Throw e, {| remote := r';
                              sent := sent (net sys) ++ [commit_request sys c f] |}))
    as [e Hput].
  { unfold putFile, mbind, async_bind, bind, do_fetch.
    fold (commit_request sys c f). rewrite Hfetch, Hok. cbn [negb].
    unfold unreadable in Hun. unfold res_json, lift, throw, ret.
    destruct (json res) as [e|data]; [by eexists|].
    destruct Hun as [-> | [-> | [e ->]]]; by eexists. }
  rewrite (handleCommit_throw sys c f e _ Hc Hf Hput).
  split_conj; try reflexivity. by eexists.
Qed.

(** X4. A read whose answer has no text under [content] (the path is a
    directory, so the answer is an array, or the field is missing) is a
    hard failure: [getFile] throws a [TypeError] and [openFile] shows
    its message and opens no session. *)
Theorem read_without_content_fails (sys : System) (file : RepoFile) c res r' data v :
  creds (app sys) = Some c →
  fetch (read_request c (rf_path file)) (remote (net sys)) = (Resolved res, r') →
  ok res = true →
  json res = inr data →
  get data "content" = Ok v →
  (∀ s, v ≠ JStr s) →
  let sys' := openFile file sys in
  ∃ e, fst (getFile (token c) (cred_owner c) (cred_repo c) (rf_path file) (net sys))
         = Throw e ∧
       err_name e = "TypeError" ∧
       error (app sys') = Some (err_message e) ∧
       screen (app sys') = screen (app sys) ∧
       currentFile (app sys') = currentFile (app sys) ∧
       store sys' = store sys.
Proof.
  intros Hc Hfetch Hok Hjson Hget Hv. cbn zeta.
  assert (∃ e, getFile (token c) (cred_owner c) (cred_repo c) (rf_path file) (net sys)
               = (Throw e, {| remote := r';
                              sent := sent (net sys) ++ [read_request c (rf_path file)] |})
               ∧ err_name e = "TypeError")
    as (e & Hg & Hname).
  { unfold getFile, mbind, async_bind, bind, do_fetch.
    fold (read_request c (rf_path file)). rewrite Hfetch, Hok. cbn [negb].
    unfold res_json, lift, throw, ret. rewrite Hjson, Hget.
    destruct v as [ | |b|z|s|items|fields].
    5: by destruct (Hv s).
    all: eexists; split; reflexivity. }
  exists e. rewrite (openFile_throw sys file c e _ Hc Hg), Hg.
  split_conj; done.
Qed.

(** X5. [deleteFile] sends one DELETE request with the message and the
    sha, and its outcome depends on the status alone: any ok answer is a
    success, whatever its body, and any other answer throws
    [Failed to delete <path>: <status>]. *)
Theorem deleteFile_outcome (tok o r : string) (path sha : value) (message : string)
    (n : Net) (res : Response) (r' : Remote) :
  fetch (delete_request tok o r path sha message) (remote n) = (Resolved res, r') →
  deleteFile tok o r path sha message n
  = (if ok res then Ok tt else Throw (delete_error path (status res)),
     {| remote := r';
        sent := sent n ++ [delete_request tok o r path sha message] |}).
Proof.
  intros Hfetch. unfold deleteFile, mbind, async_bind, bind, do_fetch.
  rewrite Hfetch. by destruct (ok res).
Qed.

End WriteFacts.

(* ===================================================================== *)
(** ** MobileApp.tsx : signing in and out *)
(* ===================================================================== *)

Section LoginFacts.
Context `{Env}.

Lemma validateToken_ok (tok o r : string) (n : Net) res r' :
  fetch (validate_request tok o r) (remote n) = (Resolved res, r') →
  validateToken tok o r n
  = (Ok (ok res), {| remote := r'; sent := sent n ++ [validate_request tok o r] |}).
Proof.
  intros Hf. unfold validateToken, mbind, async_bind, bind, do_fetch.
  fold (validate_request tok o r). by rewrite Hf.
Qed.

(** X6. A repository text that [parseRepo] rejects never reaches the
    network: the login shows the message of the error, sends no
    request, stores no credentials and stays where it was. *)
Theorem login_with_invalid_repo (fuel : nat) (repoInput tok : string) (sys : System) e :
  parseRepo repoInput = Throw e →
  let sys' := handleLogin fuel repoInput tok sys in
  error (app sys') = Some (err_message e) ∧
  loading (app sys') = false ∧
  net sys' = net sys ∧
  store sys' = store sys ∧
  creds (app sys') = creds (app sys) ∧
  screen (app sys') = screen (app sys).
Proof.
  intros Hp. cbn zeta. unfold handleLogin. rewrite Hp.
  rewrite !set_quiet by done. split_conj; reflexivity.
Qed.

(** X7. When the remote store does not accept the token for the
    repository (the answer to the one validation request is not ok),
    the login shows "Invalid token or no access to repo.", stores no
    credentials and stays signed out. *)
Theorem login_refused (fuel : nat) (repoInput tok : string) (sys : System) r res r' :
  parseRepo repoInput = Ok r →
  fetch (validate_request tok (owner r) (repo r)) (remote (net sys)) = (Resolved res, r') →
  ok res = false →
  let sys' := handleLogin fuel repoInput tok sys in
  error (app sys') = Some "Invalid token or no access to repo." ∧
  loading (app sys') = false ∧
  store sys' = store sys ∧
  creds (app sys') = creds (app sys) ∧
  screen (app sys') = screen (app sys) ∧
  sent (net sys') = (sent (net sys) ++ [validate_request tok (owner r) (repo r)])%list.
Proof.
  intros Hp Hf Hok. cbn zeta. unfold handleLogin, await. rewrite Hp.
  rewrite (set_quiet [p_loading true; p_error None]) by done. cbn [net with_app].
  rewrite (validateToken_ok tok (owner r) (repo r) (net sys) res r' Hf), Hok.
  rewrite !set_quiet by done. split_conj; reflexivity.
Qed.

(** X8. A login that the remote store accepts saves the token with the
    owner and the repository that [parseRepo] read, and shows the
    browser; a component mounted later on the same local store starts
    in the browser with the same credentials, without a new login. *)
Theorem login_accepted_survives_reload (fuel : nat) (repoInput tok : string)
    (sys : System) r res r' :
  parseRepo repoInput = Ok r →
  fetch (validate_request tok (owner r) (repo r)) (remote (net sys)) = (Resolved res, r') →
  ok res = true →
  let c := mkCredentials tok (owner r) (repo r) in
  let sys' := handleLogin fuel repoInput tok sys in
  credentials (store sys') = Some c ∧
  drafts (store sys') = drafts (store sys) ∧
  creds (app sys') = Some c ∧
  screen (app sys') = browser ∧
  ∀ fuel' n t,
    let reloaded := init fuel' (mount (store sys') n t) in
    creds (app reloaded) = Some c ∧ screen (app reloaded) = browser.
Proof.
  intros Hp Hf Hok. cbn zeta. unfold handleLogin, await. rewrite Hp.
  rewrite (set_quiet [p_loading true; p_error None]) by done. cbn [net with_app].
  rewrite (validateToken_ok tok (owner r) (repo r) (net sys) res r' Hf), Hok.
  match goal with |- context [loadFiles fuel ?c ?s] =>
    pose proof (loadFiles_frame fuel c s) as Hl; cbn zeta in Hl;
    destruct Hl as (Hst & _ & _ & _ & _ & Hcr & Hsc & _)
  end.
  rewrite Hst, Hcr, Hsc, set_app, set_store. cbn -[loadFiles].
  split_conj; try reflexivity.
  intros fuel' n t. unfold init, mount, getCredentials. cbn -[loadFiles set].
  match goal with |- context [loadFiles fuel' ?c ?s] =>
    pose proof (loadFiles_frame fuel' c s) as Hl; cbn zeta in Hl;
    destruct Hl as (_ & _ & _ & _ & _ & Hcr' & Hsc' & _)
  end.
  rewrite Hcr', Hsc'. split; reflexivity.
Qed.

(** X9. Signing out clears the saved credentials and shows the login
    screen, but removes no draft from the local store; a component
    mounted afterwards stays on the login screen. *)
Theorem logout_keeps_drafts (sys : System) :
  let sys' := handleLogout sys in
  credentials (store sys') = None ∧
  drafts (store sys') = drafts (store sys) ∧
  creds (app sys') = None ∧
  screen (app sys') = login ∧
  files (app sys') = [] ∧
  currentFile (app sys') = None ∧
  ∀ fuel n t,
    let reloaded := init fuel (mount (store sys') n t) in
    screen (app reloaded) = login ∧ creds (app reloaded) = None ∧
    loading (app reloaded) = false.
Proof.
  cbn zeta. unfold handleLogout. rewrite set_quiet by done.
  split_conj; try reflexivity.
  intros fuel n t. unfold init, mount, getCredentials. cbn [store with_store with_app credentials clearCredentials].
  rewrite set_quiet by done. split_conj; reflexivity.
Qed.

End LoginFacts.

(* ===================================================================== *)
(** ** Pauses *)
(* ===================================================================== *)

Section PauseFacts.
Context `{Env}.

Lemma elem_of_ready (target : Z) (l : list Timer) (t : Timer) :
  t ∈ by_deadline (filter (λ u, fire_at u ≤ target) l) → t ∈ l.
Proof.
  destruct (by_deadline_spec (filter (λ u, fire_at u ≤ target) l)) as [Hperm _].
  rewrite Hperm. intros Hin. by apply list_elem_of_filter in Hin as [_ ?].
Qed.

Lemma no_pending_no_autosave (sys : System) :
  pending_autosaves sys = [] → Forall (λ t, is_autosave t = false) (timers sys).
Proof.
  unfold pending_autosaves. intros Hnone. apply Forall_forall. intros t Ht.
  destruct (is_autosave t) eqn:E; [|done].
  assert (t ∈ filter (λ t, is_autosave t = true) (timers sys)) as Hin
    by (by apply list_elem_of_filter).
  rewrite Hnone in Hin. by apply elem_of_nil in Hin.
Qed.

(** While no autosave is pending, a pause writes nothing to the local
    store. *)
Lemma elapse_store_quiet (dt : Z) (sys : System) :
  pending_autosaves sys = [] → store (elapse dt sys) = store sys.
Proof.
  intros Hnone. unfold elapse. cbn [store with_now].
  change (fold_left (λ s t, fire t s) ?l ?x) with (fire_all l x).
  rewrite fire_all_store_clear; [done|].
  apply Forall_forall. intros t Ht. apply elem_of_ready in Ht.
  pose proof (no_pending_no_autosave sys Hnone) as Hall.
  rewrite Forall_forall in Hall. by apply Hall.
Qed.

(** A pause that reaches the deadline of the one pending autosave
    writes exactly its draft, stamped with the deadline. *)
Lemma elapse_store_autosave (dt : Z) (sys : System) (a : Timer) p content fm :
  pending_autosaves sys = [a] →
  action a = AutoSave p content fm →
  now sys ≤ fire_at a →
  fire_at a ≤ now sys + Z.max 0 dt →
  store (elapse dt sys)
  = saveDraft p (mkDraft p content fm (fire_at a)) (store sys).
Proof.
  intros Hpend Ha Hnow Hdue. unfold elapse. cbn [store with_now].
  set (target := now sys + Z.max 0 dt) in *.
  destruct (by_deadline_spec (filter (λ t, fire_at t ≤ target) (timers sys)))
    as [Hperm Hsorted].
  change (fold_left (λ s t, fire t s) ?l ?x) with (fire_all l x).
  erewrite (fire_all_one_autosave _ _ a); [done|exact Hsorted| |exact Ha|done].
  apply Permutation_singleton_r. rewrite Hperm.
  rewrite filter_comm. unfold pending_autosaves in Hpend. rewrite Hpend.
  by rewrite filter_cons_True.
Qed.




End PauseFacts.

(* ===================================================================== *)
(** ** What becomes of the pending autosave *)
(* ===================================================================== *)

Section PendingFacts.
Context `{Env}.

Lemma set_fresh_frontmatter (p : list Assign) (sys : System) :
  replaces_frontmatter p = true →
  set p sys = autosave_effect (with_app (apply_patch p (app sys)) sys).
Proof.
  intros Hr. unfold set, deps_changed. rewrite Hr.
  by rewrite orb_true_r.
Qed.


Lemma elapse_before_deadline (dt : Z) (sys : System) (a : Timer) :
  pending_autosaves sys = [a] →
  now sys + Z.max 0 dt < fire_at a →
  store (elapse dt sys) = store sys.
Proof.
  intros Hpend Hearly. unfold elapse. cbn [store with_now].
  change (fold_left (λ s t, fire t s) ?l ?x) with (fire_all l x).
  rewrite fire_all_store_clear; [done|].
  apply Forall_forall. intros t Ht.
  destruct (by_deadline_spec
              (filter (λ u, fire_at u ≤ now sys + Z.max 0 dt) (timers sys))) as [Hperm _].
  rewrite Hperm in Ht. apply list_elem_of_filter in Ht as [Hdue Hin].
  destruct (is_autosave t) eqn:E; [|done].
  assert (t ∈ pending_autosaves sys) as Hp
    by (unfold pending_autosaves; by apply list_elem_of_filter).
  rewrite Hpend in Hp. apply list_elem_of_singleton in Hp as ->. lia.
Qed.

Lemma goBack_no_pending (fuel : nat) (sys : System) :
  tidy sys → pending_autosaves (goBack fuel sys) = [] ∧ store (goBack fuel sys) = store sys.
Proof.
  intros Ht. unfold goBack.
  match goal with |- context [set ?p sys] =>
    assert (pending_autosaves (set p sys) = [] ∧ store (set p sys) = store sys) as [Hp Hs]
  end.
  { rewrite set_store. split; [|done].
    rewrite set_fresh_frontmatter by done.
    apply autosave_effect_idle; [done|]. by left. }
  destruct (creds (app sys)) as [c|]; [|done].
  match goal with |- context [loadFiles fuel c ?s] =>
    pose proof (loadFiles_frame fuel c s) as Hl; cbn zeta in Hl;
    destruct Hl as (Hst & Htm & _)
  end.
  unfold pending_autosaves in *. by rewrite Hst, Htm.
Qed.

(** X10. Going back to the browser cancels the pending autosave: an
    edit made less than a second before going back never reaches the
    local store, whatever time passes afterwards. *)
Theorem edit_then_back_is_not_saved (fuel : nat) (sys : System) (f : FileContent)
    (e : Edit) (dt0 : Z) :
  tidy sys →
  currentFile (app sys) = Some f →
  changes e sys = true →
  0 ≤ dt0 < 1000 →
  let left := goBack fuel (elapse dt0 (apply_edit e sys)) in
  pending_autosaves left = [] ∧
  ∀ dt, store (elapse dt left) = store sys.
Proof.
  intros Ht Hf Hch Hdt. cbn zeta.
  set (s1 := apply_edit e sys).
  destruct (edit_frame e sys) as (Hf1 & Hd1 & Hst1 & Hnow1 & _). fold s1 in Hf1, Hd1, Hst1, Hnow1.
  pose proof (edit_runs_effect e sys Hch) as Heff. fold s1 in Heff.
  rewrite Hf in Hf1.
  destruct (autosave_effect_scheduled (with_app (app s1) sys) f) as [Hpend _];
    [exact Ht|exact Hf1|exact Hd1|]. rewrite <- Heff in Hpend.
  assert (tidy s1) as Ht1.
  { unfold s1. destruct e; apply tidy_set; done. }
  assert (store (elapse dt0 s1) = store sys) as Hst2.
  { rewrite (elapse_before_deadline dt0 s1 _ Hpend); [done|]. cbn. lia. }
  destruct (goBack_no_pending fuel (elapse dt0 s1)) as [Hnone Hst3];
    [by apply tidy_elapse|].
  split; [done|]. intros dt.
  rewrite elapse_store_quiet by done. by rewrite Hst3.
Qed.

Lemma filter_all {A} (P : A → Prop) `{∀ x, Decision (P x)} (l : list A) :
  Forall P l → filter P l = l.
Proof.
  induction 1 as [|x l Hx _ IH]; [done|]. by rewrite filter_cons_True, IH.
Qed.

Lemma filter_none {A} (P : A → Prop) `{∀ x, Decision (P x)} (l : list A) :
  Forall (λ x, ¬ P x) l → filter P l = [].
Proof.
  induction 1 as [|x l Hx _ IH]; [done|]. by rewrite filter_cons_False.
Qed.

(** No time passes and no timeout is due: nothing happens. *)
Lemma elapse_at_once (sys : System) :
  Forall (λ t, now sys < fire_at t) (timers sys) → elapse 0 sys = sys.
Proof.
  intros Hlate. unfold elapse. change (Z.max 0 0) with 0. rewrite Z.add_0_r.
  rewrite (filter_none (λ t, fire_at t ≤ now sys))
    by (eapply Forall_impl; [exact Hlate|]; cbn; lia).
  rewrite (filter_all (λ t, ¬ fire_at t ≤ now sys))
    by (eapply Forall_impl; [exact Hlate|]; cbn; lia).
  by destruct sys.
Qed.

(** A commit that is answered at once is [handleCommit]. *)
Lemma handleCommit_taking_at_once (sys : System) :
  Forall (λ t, now sys < fire_at t) (timers sys) →
  handleCommit_taking 0 sys = handleCommit sys.
Proof.
  intros Hlate. unfold handleCommit_taking, handleCommit.
  destruct (creds (app sys)) as [c|]; [|done].
  destruct (currentFile (app sys)) as [f|]; [|done].
  unfold await. rewrite set_net.
  destruct (putFile _ _ _ _ _ _ _ (net sys)) as [r n1].
  rewrite (set_quiet [p_committing true; p_error None]) by done.
  by rewrite elapse_at_once.
Qed.


(** X12. Opening a path whose draft is shown starts an autosave, though
    nothing was edited: after a pause of a second or more the local
    store holds the same content again under the path that the remote
    store reported, stamped one second after the open. *)
Theorem open_with_draft_saves_it_again (sys : System) (file : RepoFile) c rf n' d dt :
  tidy sys →
  creds (app sys) = Some c →
  getFile (token c) (cred_owner c) (cred_repo c) (rf_path file) (net sys) = (Ok rf, n') →
  getDraft (rf_path file) (store sys) = Some d →
  0 < d_savedAt d →
  1000 ≤ dt →
  let again := mkDraft (fc_path rf) (d_content d) (d_frontmatter d) (now sys + 1000) in
  let sys' := elapse dt (openFile file sys) in
  draft_writes (store sys') = (draft_writes (store sys) ++ [again])%list ∧
  getDraft (fc_path rf) (store sys') = Some again.
Proof.
  intros Ht Hc Hg Hd Hpos Hdt. cbn zeta.
  rewrite (openFile_ok sys file c rf n' Hc Hg). cbn zeta.
  rewrite Hd. apply Z.ltb_lt in Hpos. rewrite Hpos. cbn [fst snd].
  rewrite (set_quiet [p_loading true; p_error None]) by done.
  match goal with |- context [set ?p ?s] => set (patch := p); set (s1 := s) end.
  rewrite (set_fresh_frontmatter patch s1) by done.
  set (s2 := with_app (apply_patch patch (app s1)) s1).
  destruct (autosave_effect_scheduled s2 rf) as [Hpend _]; [done..|].
  destruct (autosave_effect_frame s2) as (_ & Hst & _ & Hnow).
  erewrite (elapse_store_autosave dt (autosave_effect s2)); [|exact Hpend|reflexivity|..].
  - rewrite Hst. unfold getDraft, saveDraft. cbn. by rewrite lookup_insert_eq.
  - rewrite Hnow. cbn. lia.
  - rewrite Hnow. cbn. lia.
Qed.

(** X13. Opening a path without a draft (or with one whose stamp is not
    positive) schedules no autosave: no pause writes to the local
    store until the first edit. *)
Theorem open_without_draft_saves_nothing (sys : System) (file : RepoFile) c rf n' :
  tidy sys →
  creds (app sys) = Some c →
  getFile (token c) (cred_owner c) (cred_repo c) (rf_path file) (net sys) = (Ok rf, n') →
  (∀ d, getDraft (rf_path file) (store sys) = Some d → ¬ 0 < d_savedAt d) →
  pending_autosaves (openFile file sys) = [] ∧
  ∀ dt, store (elapse dt (openFile file sys)) = store sys.
Proof.
  intros Ht Hc Hg Hno.
  assert (pending_autosaves (openFile file sys) = [] ∧
          store (openFile file sys) = store sys) as [Hnone Hst].
  { destruct (open_without_draft sys file c rf n' Hc Hg Hno) as (_ & _ & Hclean).
    revert Hclean. cbn zeta.
    rewrite (openFile_ok sys file c rf n' Hc Hg). cbn zeta.
    rewrite (set_quiet [p_loading true; p_error None]) by done.
    match goal with |- context [set ?p ?s] => set (patch := p); set (s1 := s) end.
    intros Hclean. rewrite set_store. split; [|done].
    rewrite (set_fresh_frontmatter patch s1) in * by done.
    apply autosave_effect_idle; [done|]. right.
    by rewrite (proj1 (autosave_effect_frame _)) in Hclean. }
  split; [done|]. intros dt. by rewrite elapse_store_quiet.
Qed.

End PendingFacts.

(* ===================================================================== *)
(** ** An invariant of every run *)
(* ===================================================================== *)

Section RunFacts.
Context `{Env}.

Lemma settled_autosave_effect (sys : System) : tidy sys → settled (autosave_effect sys).
Proof.
  intros Ht. split; [by apply tidy_autosave_effect|].
  destruct (autosave_effect_frame sys) as (Happ & _). rewrite Happ.
  destruct (currentFile (app sys)) as [f|] eqn:Hf;
    [destruct (dirty (app sys)) eqn:Hd|]; [done| |].
  - rewrite autosave_effect_idle by auto. done.
  - rewrite autosave_effect_idle by auto. done.
Qed.

Lemma settled_set (p : list Assign) (sys : System) : settled sys → settled (set p sys).
Proof.
  intros [Ht Hd]. unfold set.
  destruct (deps_changed _ _ _) eqn:Hdeps; [by apply settled_autosave_effect|].
  split; [done|]. unfold deps_changed in Hdeps. cbn [app with_app] in Hdeps |- *.
  apply orb_false_iff in Hdeps as [_ Hsame].
  apply negb_false_iff, Bool.eqb_prop in Hsame. rewrite <- Hsame. exact Hd.
Qed.

Lemma settled_frame (sys sys' : System) :
  timers sys' = timers sys → cleanup sys' = cleanup sys →
  dirty (app sys') = dirty (app sys) →
  settled sys → settled sys'.
Proof.
  unfold settled, tidy, pending_autosaves. by intros -> -> ->.
Qed.

Lemma settled_loadFiles (fuel : nat) (c : Credentials) (sys : System) :
  settled sys → settled (loadFiles fuel c sys).
Proof.
  pose proof (loadFiles_frame fuel c sys) as Hl. cbn zeta in Hl.
  destruct Hl as (_ & Htm & Hcl & _ & _ & _ & _ & _ & _ & _ & _ & Hd).
  by apply settled_frame.
Qed.

Lemma settled_elapse (dt : Z) (sys : System) : settled sys → settled (elapse dt sys).
Proof.
  intros [Ht Hd]. split; [by apply tidy_elapse|].
  destruct (elapse_frame dt sys) as (Htm & _ & _ & _ & _ & _ & _ & Hdirty).
  rewrite Hdirty. intros Hne. apply Hd. intros Hnone. apply Hne.
  unfold pending_autosaves in *. rewrite Htm, filter_comm, Hnone. done.
Qed.

Lemma settled_with_net (n : Net) (sys : System) : settled sys → settled (with_net n sys).
Proof. done. Qed.

Lemma settled_with_store (st : Storage) (sys : System) :
  settled sys → settled (with_store st sys).
Proof. done. Qed.

Ltac settle :=
  repeat first [ apply settled_set | apply settled_with_net | apply settled_with_store
               | apply settled_loadFiles ];
  assumption.

Lemma settled_handleLogin (fuel : nat) (repoInput tok : string) (sys : System) :
  settled sys → settled (handleLogin fuel repoInput tok sys).
Proof.
  intros Hs. unfold handleLogin, await.
  destruct (parseRepo repoInput) as [r|e|]; [|settle..].
  destruct (validateToken tok (owner r) (repo r) _) as [[[|]|e|] n']; settle.
Qed.

Lemma settled_openFile (file : RepoFile) (sys : System) :
  settled sys → settled (openFile file sys).
Proof.
  intros Hs. unfold openFile, await.
  destruct (creds (app sys)) as [c|]; [|done].
  destruct (getFile _ _ _ _ _) as [[rf|e|] n']; [|settle..].
  destruct (getDraft _ _) as [d|]; [destruct (0 <? d_savedAt d)|]; settle.
Qed.

Lemma settled_handleCommit (sys : System) : settled sys → settled (handleCommit sys).
Proof.
  intros Hs. unfold handleCommit, await.
  destruct (creds (app sys)) as [c|]; [|done].
  destruct (currentFile (app sys)) as [f|]; [|done].
  destruct (putFile _ _ _ _ _ _ _ _) as [[result|e|] n']; [|settle..].
  match goal with |- settled (snd (setTimeout _ _ ?s)) =>
    assert (settled s) as [Ht Hd] by settle
  end.
  unfold settled, tidy, pending_autosaves in *.
  cbn [snd setTimeout timers cleanup app]. rewrite filter_app.
  rewrite (filter_cons_False _ (mkTimer _ _ ClearSuccess)) by done.
  rewrite filter_nil, app_nil_r. done.
Qed.

Lemma settled_goBack (fuel : nat) (sys : System) : settled sys → settled (goBack fuel sys).
Proof.
  intros Hs. unfold goBack. destruct (creds (app sys)); settle.
Qed.

Lemma settled_react (ev : Event) (sys : System) : settled sys → settled (react ev sys).
Proof.
  intros Hs. destruct ev; cbn [react].
  - unfold submitLogin. destruct (_ && _); [by apply settled_handleLogin|done].
  - unfold handleLogout. settle.
  - unfold refresh. destruct (creds (app sys)); [by apply settled_loadFiles|done].
  - by apply settled_openFile.
  - by apply settled_set.
  - by apply settled_set.
  - by apply settled_set.
  - by apply settled_set.
  - by apply settled_set.
  - by apply settled_set.
  - by apply settled_handleCommit.
  - by apply settled_set.
  - by apply settled_goBack.
  - by apply settled_elapse.
Qed.

Lemma settled_mount (fuel : nat) (st : Storage) (n : Net) (t : Z) :
  settled (init fuel (mount st n t)).
Proof.
  assert (settled (mount st n t)) as Hs.
  { split; [by left|done]. }
  unfold init. destruct (getCredentials _); settle.
Qed.

(** X14. In every run of the component, from its mount through any
    sequence of logins, logouts, refreshes, opens, edits, dialog
    actions, commits, returns to the browser and pauses, against any
    remote store: at most one autosave is pending, and one is pending
    only while the session is dirty. *)
Theorem at_most_one_autosave_in_every_run (fuel : nat) (st : Storage) (n : Net) (t : Z)
    (evs : list Event) :
  let sys := play evs (init fuel (mount st n t)) in
  (length (pending_autosaves sys) ≤ 1)%nat ∧
  (pending_autosaves sys ≠ [] → dirty (app sys) = true).
Proof.
  cbn zeta.
  assert (settled (play evs (init fuel (mount st n t)))) as [Ht Hd].
  { generalize (settled_mount fuel st n t).
    generalize (init fuel (mount st n t)).
    induction evs as [|ev evs IH]; intros sys Hs; [done|].
    apply IH. by apply settled_react. }
  split; [by apply tidy_at_most_one|done].
Qed.

End RunFacts.

(* ===================================================================== *)
(** ** White space and [trim] *)
(* ===================================================================== *)

Lemma head_omap_cons {A B} (f : A → option B) (x : A) (l : list A) :
  head (omap f (x :: l))
  = match f x with Some y => Some y | None => head (omap f l) end.
Proof. cbn. by destruct (f x). Qed.

Lemma head_omap_Some {A B} (f : A → option B) (l : list A) (y : B) :
  head (omap f l) = Some y → ∃ x, x ∈ l ∧ f x = Some y.
Proof.
  induction l as [|x l IH]; [done|]. rewrite head_omap_cons.
  destruct (f x) as [z|] eqn:E.
  - intros [= ->]. exists x. split; [apply list_elem_of_here|done].
  - intros Hl. destruct (IH Hl) as (x' & Hin & Hx'). exists x'.
    split; [by apply list_elem_of_further|done].
Qed.

Lemma head_omap_None {A B} (f : A → option B) (l : list A) :
  head (omap f l) = None ↔ ∀ x, x ∈ l → f x = None.
Proof.
  induction l as [|x l IH].
  - split; [|done]. intros _ x Hx. by apply elem_of_nil in Hx.
  - rewrite head_omap_cons. split.
    + destruct (f x) eqn:E; [done|]. intros Hl y Hy.
      apply elem_of_cons in Hy as [-> | Hy]; [done|]. by apply IH.
    + intros Hall. rewrite (Hall x) by apply list_elem_of_here.
      apply IH. intros y Hy. apply Hall. by apply list_elem_of_further.
Qed.

Lemma head_omap_map {A B} (f f' : A → option B) (g : B → B) (l : list A) :
  (∀ x, x ∈ l → f' x = option_map g (f x)) →
  head (omap f' l) = option_map g (head (omap f l)).
Proof.
  induction l as [|x l IH]; intros Hall; [done|].
  rewrite !head_omap_cons, (Hall x) by apply list_elem_of_here.
  destruct (f x); [done|]. cbn [option_map]. apply IH.
  intros y Hy. apply Hall. by apply list_elem_of_further.
Qed.

Lemma free_of_app (c : ascii) (a b : string) :
  free_of c (a ++ b) = free_of c a && free_of c b.
Proof.
  induction a as [|d a IH]; push_append; [done|]. cbn [free_of].
  by rewrite IH, andb_assoc.
Qed.

Lemma strip_prefix_Some (w s t : string) : strip_prefix w s = Some t → s = w ++ t.
Proof.
  revert s. induction w as [|c w IH]; intros s; cbn.
  - by intros [= ->].
  - destruct s as [|d s]; [done|]. destruct (Ascii.eqb_spec d c) as [->|]; [|done].
    intros E. push_append. by rewrite (IH _ E).
Qed.

Lemma strip_prefix_app (w s : string) : strip_prefix w (w ++ s) = Some s.
Proof.
  induction w as [|c w IH]; push_append; cbn; [done|]. by rewrite Ascii.eqb_refl.
Qed.

Lemma drop_suffix_eq (w s : string) :
  drop_suffix w s
  = if String.eqb s w then Some ""
    else match s with
         | "" => None
         | String c s' => option_map (String c) (drop_suffix w s')
         end.
Proof. by destruct s. Qed.

Lemma drop_suffix_Some (w s t : string) : drop_suffix w s = Some t → s = t ++ w.
Proof.
  revert t. induction s as [|c s IH]; intros t; rewrite drop_suffix_eq.
  - destruct (String.eqb_spec "" w) as [<-|]; [|done]. by intros [= <-].
  - destruct (String.eqb_spec (String c s) w) as [<-|]; [by intros [= <-]|].
    destruct (drop_suffix w s) as [t'|]; [|done]. cbn. intros [= <-].
    push_append. by rewrite (IH t').
Qed.

Lemma drop_suffix_app (w t : string) : drop_suffix w (t ++ w) = Some t.
Proof.
  induction t as [|c t IH]; push_append; rewrite drop_suffix_eq.
  - by rewrite String.eqb_refl.
  - destruct (String.eqb_spec (String c (t ++ w)) w) as [E|_].
    + apply (f_equal String.length) in E. cbn in E. rewrite length_append in E. lia.
    + by rewrite IH.
Qed.

(** Checks on the list of white spaces. *)
Lemma white_space_check (P : string → bool) :
  forallb P white_space = true → ∀ w, w ∈ white_space → P w = true.
Proof.
  intros Hall w Hw. rewrite forallb_forall in Hall. apply Hall.
  by apply list_elem_of_In.
Qed.

Lemma white_space_nonempty (w : string) : w ∈ white_space → w ≠ "".
Proof.
  intros Hw.
  apply (white_space_check (λ w, negb (String.eqb w ""))) in Hw;
    [|vm_compute; reflexivity].
  by intros ->.
Qed.

Lemma after_space_Some (s rest : string) :
  after_space s = Some rest → ∃ w, w ∈ white_space ∧ s = w ++ rest.
Proof.
  unfold after_space. intros E. apply head_omap_Some in E as (w & Hw & E).
  exists w. split; [done|]. by apply strip_prefix_Some.
Qed.

Lemma after_space_None (s : string) :
  after_space s = None ↔ ¬ starts_with_space s.
Proof.
  unfold after_space. rewrite head_omap_None. split.
  - intros Hall (w & rest & Hw & ->). specialize (Hall w Hw).
    by rewrite strip_prefix_app in Hall.
  - intros Hno w Hw. destruct (strip_prefix w s) as [rest|] eqn:E; [|done].
    destruct Hno. exists w, rest. split; [done|]. by apply strip_prefix_Some.
Qed.

Lemma before_space_Some (s rest : string) :
  before_space s = Some rest → ∃ w, w ∈ white_space ∧ s = rest ++ w.
Proof.
  unfold before_space. intros E. apply head_omap_Some in E as (w & Hw & E).
  exists w. split; [done|]. by apply drop_suffix_Some.
Qed.

Lemma before_space_None (s : string) :
  before_space s = None ↔ ¬ ends_with_space s.
Proof.
  unfold before_space. rewrite head_omap_None. split.
  - intros Hall (w & init & Hw & ->). specialize (Hall w Hw).
    by rewrite drop_suffix_app in Hall.
  - intros Hno w Hw. destruct (drop_suffix w s) as [rest|] eqn:E; [|done].
    destruct Hno. exists w, rest. split; [done|]. by apply drop_suffix_Some.
Qed.

Lemma after_space_shorter (s rest : string) :
  after_space s = Some rest → (String.length rest < String.length s)%nat.
Proof.
  intros (w & Hw & ->)%after_space_Some. rewrite length_append.
  apply white_space_nonempty in Hw. destruct w; [done|]. cbn. lia.
Qed.

Lemma before_space_shorter (s rest : string) :
  before_space s = Some rest → (String.length rest < String.length s)%nat.
Proof.
  intros (w & Hw & ->)%before_space_Some. rewrite length_append.
  apply white_space_nonempty in Hw. destruct w; [done|]. cbn. lia.
Qed.

Lemma trimStart_go_fuel (k k' : nat) (s : string) :
  (String.length s ≤ k)%nat → (String.length s ≤ k')%nat →
  trimStart_go k s = trimStart_go k' s.
Proof.
  revert k' s. induction k as [|k IH]; intros k' s Hk Hk'.
  - destruct s; [by destruct k'|cbn in Hk; lia].
  - destruct k' as [|k'].
    + destruct s; [done|cbn in Hk'; lia].
    + cbn [trimStart_go]. destruct (after_space s) as [rest|] eqn:E; [|done].
      pose proof (after_space_shorter s rest E). apply IH; lia.
Qed.

Lemma trimStart_go_enough (k : nat) (s : string) :
  (String.length s ≤ k)%nat → trimStart_go k s = trimStart s.
Proof. intros Hk. by apply trimStart_go_fuel. Qed.

Lemma trimStart_unfold (s : string) :
  trimStart s = match after_space s with
                | Some rest => trimStart rest
                | None => s
                end.
Proof.
  destruct (after_space s) as [rest|] eqn:E.
  - pose proof (after_space_shorter s rest E) as Hlt.
    destruct s as [|c s]; [cbn in Hlt; lia|]. unfold trimStart at 1.
    cbn [String.length trimStart_go] in *. rewrite E.
    apply trimStart_go_enough. lia.
  - unfold trimStart. destruct s as [|c s]; [done|].
    cbn [String.length trimStart_go]. by rewrite E.
Qed.

Lemma trimEnd_go_fuel (k k' : nat) (s : string) :
  (String.length s ≤ k)%nat → (String.length s ≤ k')%nat →
  trimEnd_go k s = trimEnd_go k' s.
Proof.
  revert k' s. induction k as [|k IH]; intros k' s Hk Hk'.
  - destruct s; [by destruct k'|cbn in Hk; lia].
  - destruct k' as [|k'].
    + destruct s; [done|cbn in Hk'; lia].
    + cbn [trimEnd_go]. destruct (before_space s) as [rest|] eqn:E; [|done].
      pose proof (before_space_shorter s rest E). apply IH; lia.
Qed.

Lemma trimEnd_go_enough (k : nat) (s : string) :
  (String.length s ≤ k)%nat → trimEnd_go k s = trimEnd s.
Proof. intros Hk. by apply trimEnd_go_fuel. Qed.

Lemma trimEnd_unfold (s : string) :
  trimEnd s = match before_space s with
              | Some rest => trimEnd rest
              | None => s
              end.
Proof.
  destruct (before_space s) as [rest|] eqn:E.
  - pose proof (before_space_shorter s rest E) as Hlt.
    destruct s as [|c s]; [cbn in Hlt; lia|]. unfold trimEnd at 1.
    cbn [String.length trimEnd_go] in *. rewrite E.
    apply trimEnd_go_enough. lia.
  - unfold trimEnd. destruct s as [|c s]; [done|].
    cbn [String.length trimEnd_go]. by rewrite E.
Qed.

(** Induction on the length of a text. *)
Lemma by_length (P : string → Prop) :
  (∀ s, (∀ t, (String.length t < String.length s)%nat → P t) → P s) → ∀ s, P s.
Proof.
  intros Hstep s. remember (String.length s) as n eqn:Hn.
  revert s Hn. induction (lt_wf n) as [n _ IH]. intros s ->.
  apply Hstep. intros t Ht. by apply (IH (String.length t)).
Qed.

(** [trimStart] cuts white spaces off the start until the text starts
    with none. *)
Lemma trimStart_spec (s : string) :
  ¬ starts_with_space (trimStart s) ∧ ∃ lead, s = lead ++ trimStart s.
Proof.
  induction s as [s IH] using by_length. rewrite trimStart_unfold.
  destruct (after_space s) as [rest|] eqn:E.
  - destruct (IH rest (after_space_shorter _ _ E)) as [Hno [lead Hlead]].
    split; [done|]. apply after_space_Some in E as (w & _ & ->).
    exists (w ++ lead). by rewrite append_assoc, <- Hlead.
  - split; [by apply after_space_None|]. by exists "".
Qed.

Lemma trimEnd_spec (s : string) :
  ¬ ends_with_space (trimEnd s) ∧ ∃ tail, s = trimEnd s ++ tail.
Proof.
  induction s as [s IH] using by_length. rewrite trimEnd_unfold.
  destruct (before_space s) as [rest|] eqn:E.
  - destruct (IH rest (before_space_shorter _ _ E)) as [Hno [tail Htail]].
    split; [done|]. apply before_space_Some in E as (w & _ & ->).
    exists (tail ++ w). by rewrite <- append_assoc, <- Htail.
  - split; [by apply before_space_None|]. exists "". by rewrite append_empty_r.
Qed.

Lemma trimStart_fixed (s : string) : ¬ starts_with_space s → trimStart s = s.
Proof. intros Hno. rewrite trimStart_unfold. by apply after_space_None in Hno as ->. Qed.

Lemma trimEnd_fixed (s : string) : ¬ ends_with_space s → trimEnd s = s.
Proof. intros Hno. rewrite trimEnd_unfold. by apply before_space_None in Hno as ->. Qed.

(** [trim] gives a text with no white space at either end, cut out of
    the text it was given. *)
Lemma trim_spec (s : string) :
  ¬ starts_with_space (trim s) ∧ ¬ ends_with_space (trim s) ∧
  ∃ lead tail, s = lead ++ trim s ++ tail.
Proof.
  unfold trim.
  destruct (trimStart_spec s) as [Hstart [lead Hlead]].
  destruct (trimEnd_spec (trimStart s)) as [Hend [tail Htail]].
  split_conj; [|done|].
  - intros (w & rest & Hw & E). apply Hstart. exists w, (rest ++ tail).
    split; [done|]. by rewrite Htail, E, append_assoc.
  - exists lead, tail. by rewrite <- Htail.
Qed.

Lemma trim_fixed (t : string) :
  ¬ starts_with_space t → ¬ ends_with_space t → trim t = t.
Proof. intros Hs He. unfold trim. rewrite trimStart_fixed by done. by apply trimEnd_fixed. Qed.

Lemma free_of_trim (c : ascii) (s : string) :
  free_of c s = true → free_of c (trim s) = true.
Proof.
  destruct (trim_spec s) as (_ & _ & lead & tail & E). intros Hs.
  rewrite E, !free_of_app in Hs.
  by apply andb_true_iff in Hs as [_ [? _]%andb_true_iff].
Qed.

Lemma trim_leading_space (t : string) : trim (String " " t) = trim t.
Proof.
  unfold trim. rewrite (trimStart_unfold (String " " t)).
  by assert (after_space (String " " t) = Some t) as -> by (vm_compute; reflexivity).
Qed.

Lemma strip_prefix_snoc (sp : ascii) (w s : string) :
  free_of sp w = true →
  strip_prefix w (s ++ String sp "")
  = option_map (λ r, r ++ String sp "") (strip_prefix w s).
Proof.
  revert s. induction w as [|c w IH]; intros s Hw; [done|].
  cbn [free_of] in Hw. apply andb_true_iff in Hw as [Hc Hw].
  apply negb_true_iff in Hc.
  destruct s as [|d s]; push_append; cbn [strip_prefix].
  - rewrite Ascii.eqb_sym in Hc. by rewrite Hc.
  - destruct (Ascii.eqb d c); [by apply IH|done].
Qed.

Lemma after_space_snoc (s : string) :
  s ≠ "" →
  after_space (s ++ " ") = option_map (λ r, r ++ " ") (after_space s).
Proof.
  intros Hs. unfold after_space. apply head_omap_map. intros w Hw.
  apply (white_space_check (λ w, String.eqb w " " || free_of " " w)) in Hw;
    [|vm_compute; reflexivity].
  apply orb_true_iff in Hw as [Hw | Hw].
  - apply String.eqb_eq in Hw as ->. destruct s as [|d s]; [done|].
    push_append. cbn [strip_prefix]. by destruct (Ascii.eqb d " ").
  - by apply strip_prefix_snoc.
Qed.

Lemma trimStart_snoc (s : string) :
  trimStart (s ++ " ")
  = if String.eqb (trimStart s) "" then "" else trimStart s ++ " ".
Proof.
  induction s as [s IH] using by_length.
  destruct (String.eqb_spec s "") as [->|Hs]; [by vm_compute|].
  rewrite (trimStart_unfold (s ++ " ")), (trimStart_unfold s), after_space_snoc by done.
  destruct (after_space s) as [rest|] eqn:E; cbn [option_map].
  - apply IH. by apply after_space_shorter.
  - by apply String.eqb_neq in Hs as ->.
Qed.

Lemma drop_suffix_char (c d : ascii) (u : string) :
  drop_suffix (String c "") (u ++ String d "")
  = if Ascii.eqb d c then Some u else None.
Proof.
  induction u as [|e u IH]; push_append; rewrite drop_suffix_eq.
  - cbn. by destruct (Ascii.eqb d c).
  - assert (String.eqb (String e (u ++ String d "")) (String c "") = false) as ->.
    { apply String.eqb_neq. intros [= _ E]. by destruct u. }
    rewrite IH. by destruct (Ascii.eqb d c).
Qed.

Lemma before_space_snoc (u : string) : before_space (u ++ " ") = Some u.
Proof.
  unfold before_space.
  let ws := eval vm_compute in white_space in change white_space with ws.
  do 6 (rewrite head_omap_cons, drop_suffix_char; simpl (Ascii.eqb _ _); cbv iota).
  done.
Qed.

Lemma trimEnd_snoc (u : string) : trimEnd (u ++ " ") = trimEnd u.
Proof. by rewrite (trimEnd_unfold (u ++ " ")), before_space_snoc. Qed.

Lemma trim_trailing_space (s : string) : trim (s ++ " ") = trim s.
Proof.
  unfold trim. rewrite trimStart_snoc.
  destruct (String.eqb_spec (trimStart s) "") as [->|_]; [done|].
  apply trimEnd_snoc.
Qed.

(* ===================================================================== *)
(** ** The tags field of the frontmatter form *)
(* ===================================================================== *)

Lemma split_on_free (sep : ascii) (s : string) :
  Forall (λ seg, free_of sep seg = true) (RepoSpec.split_on sep s).
Proof.
  induction s as [|c s IH]; cbn [RepoSpec.split_on]; [by repeat constructor|].
  destruct (Ascii.eqb c sep) eqn:Hc; [by constructor|].
  destruct (RepoSpec.split_on sep s) as [|seg segs]; [by repeat constructor; cbn; rewrite Hc|].
  inversion_clear IH as [|? ? Hseg Hsegs]. constructor; [|done].
  cbn. by rewrite Hc, Hseg.
Qed.

Lemma tags_of_text_clean (text : string) : Forall clean_tag (tags_of_text text).
Proof.
  unfold tags_of_text. apply Forall_forall. intros t Ht.
  apply list_elem_of_filter in Ht as [Hne Ht].
  apply list_elem_of_fmap in Ht as (seg & -> & Hseg).
  destruct (trim_spec seg) as (Hstart & Hend & _).
  unfold clean_tag. split_conj; [done..|].
  apply free_of_trim.
  pose proof (split_on_free comma text) as Hall.
  rewrite Forall_forall in Hall. by apply Hall.
Qed.

(** X15. Every tag that the tags field produces is not empty, has no
    white space at either end and contains no comma. *)
Theorem tags_are_clean (text : string) : Forall clean_tag (tags_of_text text).
Proof. exact (tags_of_text_clean text). Qed.

Lemma split_on_cons_other (sep c : ascii) (s : string) :
  Ascii.eqb c sep = false →
  RepoSpec.split_on sep (String c s)
  = match RepoSpec.split_on sep s with
    | seg :: segs => String c seg :: segs
    | [] => [String c ""]
    end.
Proof. intros Hc. cbn [RepoSpec.split_on]. by rewrite Hc. Qed.

Lemma split_on_cons_sep (sep : ascii) (s : string) :
  RepoSpec.split_on sep (String sep s) = "" :: RepoSpec.split_on sep s.
Proof. cbn [RepoSpec.split_on]. by rewrite Ascii.eqb_refl. Qed.

Lemma split_on_not_nil (sep : ascii) (s : string) : RepoSpec.split_on sep s ≠ [].
Proof.
  destruct s as [|c s]; [done|]. cbn [RepoSpec.split_on].
  destruct (Ascii.eqb c sep); [done|]. by destruct (RepoSpec.split_on sep s).
Qed.

Lemma split_on_single (sep : ascii) (a : string) :
  free_of sep a = true → RepoSpec.split_on sep a = [a].
Proof.
  induction a as [|c a IH]; [done|]. cbn [free_of].
  intros [Hc Ha]%andb_true_iff. apply negb_true_iff in Hc.
  rewrite split_on_cons_other by done. by rewrite IH.
Qed.

Lemma split_on_app_sep (sep : ascii) (a rest : string) :
  free_of sep a = true →
  RepoSpec.split_on sep (a ++ String sep rest) = a :: RepoSpec.split_on sep rest.
Proof.
  induction a as [|c a IH]; push_append.
  - intros _. apply split_on_cons_sep.
  - cbn [free_of]. intros [Hc Ha]%andb_true_iff. apply negb_true_iff in Hc.
    rewrite split_on_cons_other by done. by rewrite IH.
Qed.

Lemma str_join_cons (x y : string) (l : list string) :
  str_join ", " (x :: y :: l)
  = x ++ String comma (String " " (str_join ", " (y :: l))).
Proof. reflexivity. Qed.

Lemma split_on_joined (l : list string) :
  Forall (λ t, free_of comma t = true) l →
  RepoSpec.split_on comma (str_join ", " l)
  = match l with
    | [] => [""]
    | x :: rest => x :: map (String " ") rest
    end.
Proof.
  induction l as [|x l IH]; [done|]. intros Hall.
  inversion_clear Hall as [|? ? Hx Hl]. specialize (IH Hl).
  destruct l as [|y l].
  - by apply split_on_single.
  - rewrite str_join_cons, split_on_app_sep by done.
    rewrite split_on_cons_other by done. by rewrite IH.
Qed.

Lemma clean_tag_free (t : string) : clean_tag t → free_of comma t = true.
Proof. by intros (_ & _ & _ & ?). Qed.

Lemma clean_tag_trim (t : string) : clean_tag t → trim t = t.
Proof. intros (_ & Hs & He & _). by apply trim_fixed. Qed.

(** Parsing the joined text of clean tags gives the tags back. *)
Lemma tags_of_joined (l : list string) :
  Forall clean_tag l → tags_of_text (str_join ", " l) = l.
Proof.
  intros Hall. unfold tags_of_text.
  rewrite split_on_joined by (eapply Forall_impl; [exact Hall|apply clean_tag_free]).
  destruct l as [|x l]; [done|].
  inversion_clear Hall as [|? ? Hx Hl].
  cbn [map]. rewrite (clean_tag_trim x Hx), filter_cons_True by apply Hx. f_equal.
  induction l as [|y l IH]; [done|].
  inversion_clear Hl as [|? ? Hy Hl'].
  cbn [map]. rewrite trim_leading_space, (clean_tag_trim y Hy), filter_cons_True by apply Hy.
  f_equal. by apply IH.
Qed.

Lemma js_join_strings (sep : string) (l : list string) :
  js_join sep (map JStr l) = str_join sep l.
Proof.
  induction l as [|x l IH]; [done|]. cbn [map js_join str_join to_string].
  destruct l as [|y l]; [done|]. cbn [map] in *. by rewrite IH.
Qed.

Lemma assoc_with_property (key : string) (v : value) (obj : list (string * value)) :
  assoc key (with_property key v obj) = v ∧
  ∀ k, k ≠ key → assoc k (with_property key v obj) = assoc k obj.
Proof.
  induction obj as [|[k w] obj [IH1 IH2]]; cbn [with_property assoc].
  - rewrite String.eqb_refl. split; [done|]. intros k Hk.
    apply String.eqb_neq in Hk. by rewrite Hk.
  - destruct (String.eqb key k) eqn:E; cbn [assoc].
    + apply String.eqb_eq in E as <-. rewrite String.eqb_refl. split; [done|].
      intros k' Hk. apply String.eqb_neq in Hk. by rewrite Hk.
    + rewrite E. split; [done|]. intros k' Hk. rewrite IH2 by done. done.
Qed.

Lemma with_property_idem (key : string) (v : value) (obj : list (string * value)) :
  with_property key v (with_property key v obj) = with_property key v obj.
Proof.
  induction obj as [|[k w] obj IH]; cbn [with_property].
  - by rewrite String.eqb_refl.
  - destruct (String.eqb key k) eqn:E; cbn [with_property]; rewrite E; [done|].
    by rewrite IH.
Qed.

(** X16. After any change of the tags field the form shows the tags
    joined by ", ", and that text parses back to the same tags, so a
    further change event with the shown text alters nothing; no other
    property of the frontmatter is touched. *)
Theorem tags_field_round_trip (text : string) (fm : list (string * value)) :
  tags_text (onTagsChange text fm) = str_join ", " (tags_of_text text) ∧
  tags_of_text (tags_text (onTagsChange text fm)) = tags_of_text text ∧
  onTagsChange (tags_text (onTagsChange text fm)) (onTagsChange text fm)
    = onTagsChange text fm ∧
  ∀ k, k ≠ "tags" → assoc k (onTagsChange text fm) = assoc k fm.
Proof.
  assert (tags_text (onTagsChange text fm) = str_join ", " (tags_of_text text)) as Hshown.
  { unfold tags_text, onTagsChange.
    rewrite (proj1 (assoc_with_property _ _ _)). apply js_join_strings. }
  assert (tags_of_text (tags_text (onTagsChange text fm)) = tags_of_text text) as Hback.
  { rewrite Hshown. apply tags_of_joined, tags_of_text_clean. }
  split_conj; [done|done| |].
  - unfold onTagsChange at 1. rewrite Hback. apply with_property_idem.
  - intros k Hk. unfold onTagsChange. by apply assoc_with_property.
Qed.

Lemma split_on_trailing_sep (sep : ascii) (s : string) :
  RepoSpec.split_on sep (s ++ String sep "")
  = (RepoSpec.split_on sep s ++ [""])%list.
Proof.
  induction s as [|c s IH]; push_append.
  - by rewrite split_on_cons_sep.
  - cbn [RepoSpec.split_on]. destruct (Ascii.eqb c sep); rewrite IH; [done|].
    pose proof (split_on_not_nil sep s).
    by destruct (RepoSpec.split_on sep s).
Qed.

Lemma split_on_trailing_other (sep c : ascii) (s : string) :
  Ascii.eqb c sep = false →
  RepoSpec.split_on sep (s ++ String c "")
  = map_last (λ seg, seg ++ String c "") (RepoSpec.split_on sep s).
Proof.
  intros Hc. induction s as [|d s IH]; push_append.
  - cbn [RepoSpec.split_on]. by rewrite Hc.
  - cbn [RepoSpec.split_on]. destruct (Ascii.eqb d sep); rewrite IH.
    + pose proof (split_on_not_nil sep s).
      by destruct (RepoSpec.split_on sep s).
    + pose proof (split_on_not_nil sep s).
      destruct (RepoSpec.split_on sep s) as [|seg [|seg' segs]]; done.
Qed.

Lemma map_trim_last (l : list string) :
  map trim (map_last (λ seg, seg ++ " ") l) = map trim l.
Proof.
  induction l as [|x [|y l] IH]; [done| |].
  - cbn [map_last map]. by rewrite trim_trailing_space.
  - change (map_last ?f (x :: y :: l)) with (x :: map_last f (y :: l)).
    cbn [map] in *. by rewrite IH.
Qed.

(** X17. A comma or a space typed at the end of the tags field is lost:
    the change produces the same frontmatter as the text without it, so
    the field, which shows the tags joined again, does not keep the
    separator. *)
Theorem trailing_separator_is_dropped (text : string) (fm : list (string * value)) :
  onTagsChange (text ++ ",") fm = onTagsChange text fm ∧
  onTagsChange (text ++ " ") fm = onTagsChange text fm ∧
  tags_text (onTagsChange (text ++ ",") fm) = tags_text (onTagsChange text fm) ∧
  tags_text (onTagsChange (text ++ " ") fm) = tags_text (onTagsChange text fm).
Proof.
  assert (tags_of_text (text ++ ",") = tags_of_text text) as Hcomma.
  { unfold tags_of_text. change (text ++ ",") with (text ++ String comma "").
    rewrite split_on_trailing_sep, map_app, filter_app. cbn [map].
    change (trim "") with "". rewrite filter_cons_False by (by intros ?).
    by rewrite filter_nil, app_nil_r. }
  assert (tags_of_text (text ++ " ") = tags_of_text text) as Hspace.
  { unfold tags_of_text. change (text ++ " ") with (text ++ String " " "").
    rewrite split_on_trailing_other by done. by rewrite map_trim_last. }
  unfold onTagsChange. rewrite Hcomma, Hspace. done.
Qed.

(* ===================================================================== *)
(** ** The link to the live page *)
(* ===================================================================== *)

Lemma rmatch_md_ext {R} (s : string) (caps : captures) (k : string → captures → option R) :
  rmatch re_md_ext s caps k = if is_md_ext s then k "" caps else None.
Proof.
  unfold re_md_ext, is_md_ext. rewrite rmatch_word.
  destruct (strip_prefix ".md" s) as [[|c [|d t]]|]; cbn [rmatch accepts]; try done.
  - destruct (Ascii.eqb c "x") eqn:E.
    + apply Ascii.eqb_eq in E as ->. by destruct (k "" caps).
    + destruct c as [[] [] [] [] [] [] [] []]; done.
  - destruct c as [[] [] [] [] [] [] [] []]; done.
Qed.

Lemma is_md_ext_true (s : string) : is_md_ext s = true → s = ".md" ∨ s = ".mdx".
Proof.
  unfold is_md_ext. destruct (strip_prefix ".md" s) as [t|] eqn:E; [|done].
  apply strip_prefix_Some in E as ->. intros Ht.
  destruct t as [|c [|d t]].
  - by left.
  - destruct c as [[] [] [] [] [] [] [] []]; try done. by right.
  - destruct c as [[] [] [] [] [] [] [] []]; done.
Qed.

Lemma search_md_ext (pre s : string) :
  match search re_md_ext pre s with
  | Some f => f_pre f ++ f_post f
  | None => pre ++ s
  end = pre ++ strip_md_ext s.
Proof.
  revert pre. induction s as [|c s IH]; intros pre.
  - cbn [search]. rewrite rmatch_md_ext. done.
  - cbn [search strip_md_ext]. rewrite rmatch_md_ext.
    destruct (is_md_ext (String c s)); [done|].
    specialize (IH (Str.snoc pre c)). unfold Str.snoc in *.
    destruct (search re_md_ext (pre ++ String c "") s);
      rewrite !append_assoc in IH; by push_append in IH.
Qed.

Lemma replace_md_ext (s : string) : Regex.replace re_md_ext "" s = strip_md_ext s.
Proof.
  unfold Regex.replace. pose proof (search_md_ext "" s) as Hs.
  destruct (search re_md_ext "" s); push_append; done.
Qed.

Lemma strip_md_ext_name (name ext : string) :
  ext = ".md" ∨ ext = ".mdx" → strip_md_ext (name ++ ext) = name.
Proof.
  intros Hext. induction name as [|c name IH]; push_append.
  - by destruct Hext as [-> | ->].
  - cbn [strip_md_ext]. rewrite IH.
    destruct (is_md_ext (String c (name ++ ext))) eqn:E; [|done].
    apply is_md_ext_true in E. exfalso.
    assert (String.length (String c (name ++ ext)) ≤ 4)%nat as Hlen
      by (destruct E as [-> | ->]; cbn; lia).
    cbn in Hlen. rewrite length_append in Hlen.
    destruct Hext as [-> | ->]; cbn in Hlen; [|lia].
    destruct name as [|d name]; [|cbn in Hlen; lia].
    destruct E as [E | E]; by injection E.
Qed.

Lemma strip_prefix_longer (w a b : string) (r : string) :
  strip_prefix w a = Some r → strip_prefix w (a ++ b) = Some (r ++ b).
Proof.
  revert a. induction w as [|c w IH]; intros a; cbn [strip_prefix].
  - by intros [= ->].
  - destruct a as [|d a]; [done|]. push_append.
    destruct (Ascii.eqb d c); [apply IH|done].
Qed.

Lemma strip_prefix_across (w a b : string) (c : ascii) :
  free_of c w = true → strip_prefix w a = None →
  strip_prefix w (a ++ String c b) = None.
Proof.
  revert a. induction w as [|e w IH]; intros a Hw; [done|].
  cbn [free_of] in Hw. apply andb_true_iff in Hw as [He Hw].
  apply negb_true_iff in He.
  destruct a as [|d a]; push_append; cbn [strip_prefix].
  - intros _. rewrite Ascii.eqb_sym in He. by rewrite He.
  - destruct (Ascii.eqb d e); [by apply IH|done].
Qed.

(** A prefix without a dot is found in a file name with its extension
    where it is found in the name. *)
Lemma drop_prefix_ext (w name ext : string) :
  free_of "." w = true → ext = ".md" ∨ ext = ".mdx" →
  drop_prefix w (name ++ ext) = drop_prefix w name ++ ext.
Proof.
  intros Hw Hext. unfold drop_prefix.
  destruct (strip_prefix w name) as [r|] eqn:E.
  - by rewrite (strip_prefix_longer w name ext r E).
  - destruct Hext as [-> | ->]; by rewrite strip_prefix_across.
Qed.

(** X18. The slug of a post [src/content/posts/<name>] with the
    extension [.md] or [.mdx] is [<name>]; the slug of such a page
    under [src/content/pages/] is [<name>] too, unless the name itself
    starts with [src/content/posts/], which is then removed as well
    (the two prefixes are taken off in turn).  With a site URL, the
    link to the live page of any path is the site URL without one
    trailing slash, a slash, and the slug; without a site URL there is
    no link. *)
Theorem live_url_of_content_file (siteUrl name ext : string) :
  ext = ".md" ∨ ext = ".mdx" →
  siteUrl ≠ "" →
  slug ("src/content/posts/" ++ name ++ ext) = name ∧
  slug ("src/content/pages/" ++ name ++ ext) = drop_prefix "src/content/posts/" name ∧
  (∀ path, liveUrl siteUrl path
           = RepoSpec.strip_suffix "/" siteUrl ++ "/" ++ slug path) ∧
  (∀ path, liveUrl "" path = "").
Proof.
  intros Hext Hsite. split_conj.
  - unfold slug. rewrite replace_md_ext.
    assert (drop_prefix "src/content/pages/" ("src/content/posts/" ++ name ++ ext)
            = "src/content/posts/" ++ name ++ ext) as -> by done.
    unfold drop_prefix. rewrite strip_prefix_app. by apply strip_md_ext_name.
  - unfold slug. rewrite replace_md_ext.
    unfold drop_prefix at 2. rewrite strip_prefix_app.
    rewrite drop_prefix_ext by done. by apply strip_md_ext_name.
  - intros path. unfold liveUrl. apply String.eqb_neq in Hsite. rewrite Hsite.
    cbn [negb]. unfold re_trailing_slash. by rewrite replace_word_eos.
  - done.
Qed.

(* ===================================================================== *)
(** ** The service worker *)
(* ===================================================================== *)

Module WorkerFacts.
Import Worker.

Lemma cache_match_put (url : string) (r : Resp) (c : Cache) :
  cache_match url (cache_put url r c) = Some r.
Proof.
  induction c as [|[u r'] c IH]; cbn [cache_put cache_match].
  - by rewrite String.eqb_refl.
  - destruct (String.eqb u url) eqn:E; cbn [cache_match]; by rewrite E.
Qed.

Lemma cache_match_put_other (url url' : string) (r : Resp) (c : Cache) :
  url' ≠ url → cache_match url' (cache_put url r c) = cache_match url' c.
Proof.
  intros Hne. induction c as [|[u r'] c IH]; cbn [cache_put cache_match].
  - apply String.eqb_neq in Hne. rewrite String.eqb_sym in Hne. by rewrite Hne.
  - destruct (String.eqb u url) eqn:E; cbn [cache_match].
    + apply String.eqb_eq in E as ->.
      assert (String.eqb url url' = false) as ->; [|done].
      apply String.eqb_neq. congruence.
    + by rewrite IH.
Qed.

Lemma has_cache_false (name : string) (cs : Caches) :
  has_cache name cs = false → filter (λ c : string * Cache, c.1 = name) cs = [].
Proof.
  unfold has_cache. induction cs as [|[n c] cs IH]; [done|].
  cbn [existsb fst]. intros [Hn Hcs]%orb_false_iff.
  apply String.eqb_neq in Hn. rewrite filter_cons_False by done. by apply IH.
Qed.

Lemma has_cache_true (name : string) (cs : Caches) :
  has_cache name cs = true → ∃ c, (name, c) ∈ cs.
Proof.
  unfold has_cache. induction cs as [|[n c] cs IH]; [done|].
  cbn [existsb fst]. intros [Hn | Hcs]%orb_true_iff.
  - apply String.eqb_eq in Hn as ->. exists c. apply list_elem_of_here.
  - destruct (IH Hcs) as [c' Hc']. exists c'. by apply list_elem_of_further.
Qed.

(** After [activate] the storage is empty or holds the one cache of the
    worker, with the entries it had. *)
Lemma activate_shape (cs : Caches) :
  well_formed cs →
  (has_cache CACHE_NAME cs = false ∧ activate cs = []) ∨
  (∃ c, has_cache CACHE_NAME cs = true ∧ (CACHE_NAME, c) ∈ cs ∧
        activate cs = [(CACHE_NAME, c)]).
Proof.
  unfold well_formed, activate. induction cs as [|[n c] cs IH]; [by left|].
  cbn [map fst]. intros Hnd. apply NoDup_cons in Hnd as [Hn Hnd].
  unfold has_cache. cbn [existsb fst].
  destruct (String.eqb n CACHE_NAME) eqn:E.
  - apply String.eqb_eq in E as ->. right. exists c.
    split; [done|]. split; [apply list_elem_of_here|].
    rewrite filter_cons_True by done. f_equal.
    apply has_cache_false. destruct (has_cache CACHE_NAME cs) eqn:Hh; [|done].
    destruct (has_cache_true _ _ Hh) as [c' Hc']. destruct Hn.
    apply list_elem_of_fmap. by exists (CACHE_NAME, c').
  - apply String.eqb_neq in E. rewrite filter_cons_False by done. cbn [orb].
    destruct (IH Hnd) as [[Hh Ha] | (c' & Hh & Hin & Ha)].
    + left. by split.
    + right. exists c'. split; [done|]. split; [by apply list_elem_of_further|done].
Qed.

Lemma activate_put_in (url : string) (r : Resp) (cs : Caches) :
  activate (put_in CACHE_NAME url r cs) = put_in CACHE_NAME url r (activate cs).
Proof.
  unfold activate. induction cs as [|[n c] cs IH]; [done|]. cbn [put_in].
  destruct (String.eqb n CACHE_NAME) eqn:E.
  - apply String.eqb_eq in E as ->. rewrite !filter_cons_True by done.
    cbn [put_in]. by rewrite String.eqb_refl.
  - apply String.eqb_neq in E. rewrite !filter_cons_False by done. done.
Qed.

Lemma activate_activated (cs : Caches) : well_formed cs → activated (activate cs).
Proof.
  intros Hwf. destruct (activate_shape cs Hwf) as [[_ ->] | (c & _ & _ & ->)].
  - by left.
  - right. by exists c.
Qed.

Lemma caches_match_single (url : string) (c : Cache) :
  caches_match url [(CACHE_NAME, c)] = cache_match url c.
Proof. cbn. by destruct (cache_match url c). Qed.

Lemma only_own_put_in (url : string) (r : Resp) (cs : Caches) :
  only_own url cs → only_own url (put_in CACHE_NAME url r cs).
Proof.
  unfold only_own. induction cs as [|[n c] cs IH]; [done|]. cbn [put_in].
  intros Hall. apply Forall_cons in Hall as [Hhead Hrest].
  destruct (String.eqb n CACHE_NAME) eqn:E.
  - apply String.eqb_eq in E as ->. constructor; [by left|done].
  - constructor; [done|by apply IH].
Qed.

Lemma only_own_caches_open (url : string) (cs : Caches) :
  only_own url cs →
  only_own url (caches_open CACHE_NAME cs) ∧
  has_cache CACHE_NAME (caches_open CACHE_NAME cs) = true.
Proof.
  intros Hown. unfold caches_open.
  destruct (has_cache CACHE_NAME cs) eqn:Hh; [done|]. split.
  - apply Forall_app. split; [done|]. constructor; [by left|constructor].
  - unfold has_cache. rewrite existsb_app. cbn. by rewrite orb_true_r.
Qed.

Lemma caches_match_put_in (url : string) (r : Resp) (cs : Caches) :
  only_own url cs → has_cache CACHE_NAME cs = true →
  caches_match url (put_in CACHE_NAME url r cs) = Some r.
Proof.
  unfold only_own, has_cache. induction cs as [|[n c] cs IH]; [done|].
  intros Hall Hh. apply Forall_cons in Hall as [Hhead Hrest].
  cbn [existsb fst] in Hh. cbn [put_in].
  destruct (String.eqb n CACHE_NAME) eqn:E.
  - cbn [caches_match]. by rewrite cache_match_put.
  - cbn [caches_match]. destruct Hhead as [Hn | Hc].
    + apply String.eqb_neq in E. by destruct E.
    + cbn [snd] in Hc. rewrite Hc. by apply IH.
Qed.

(** Every answer of the network is stored where the next visit finds
    it. *)
Lemma open_and_put_stored (url : string) (r : Resp) (cs : Caches) :
  only_own url cs →
  only_own url (open_and_put CACHE_NAME url r cs) ∧
  caches_match url (open_and_put CACHE_NAME url r cs) = Some r.
Proof.
  intros Hown. unfold open_and_put.
  destruct (only_own_caches_open url cs Hown) as [Hown' Hh].
  split; [by apply only_own_put_in|by apply caches_match_put_in].
Qed.

(** X19. A navigation under [/mobile] is answered with the stored
    response when a cache holds one, even when the network is
    available, and with the answer of the network otherwise; with
    neither it fails, and nothing is stored.  Every answer of the
    network is put into the cache of the worker: when no other cache
    holds the request (as after activation), a visit that the network
    answers makes the next visit show that answer, with or without
    network, and a fresh answer is shown one visit later. *)
Theorem navigation_is_one_visit_behind (rq : Req) (cs : Caches) :
  shell_navigation rq = true →
  (∀ answer,
     fst (on_fetch rq answer cs)
     = Responds (match caches_match (rq_url rq) cs with
                 | Some r => Some r
                 | None => answer
                 end)) ∧
  (caches_match (rq_url rq) cs = None →
     fst (on_fetch rq None cs) = Responds None ∧ snd (on_fetch rq None cs) = cs) ∧
  (only_own (rq_url rq) cs →
     ∀ r1, let cs1 := snd (on_fetch rq (Some r1) cs) in
       only_own (rq_url rq) cs1 ∧
       fst (on_fetch rq None cs1) = Responds (Some r1) ∧
       ∀ r2, fst (on_fetch rq (Some r2) cs1) = Responds (Some r1) ∧
             fst (on_fetch rq None (snd (on_fetch rq (Some r2) cs1)))
             = Responds (Some r2)).
Proof.
  intros Hnav. unfold on_fetch. rewrite Hnav. cbn [fst snd].
  split; [done|]. split; [by intros ->|].
  intros Hown r1. cbn zeta.
  destruct (open_and_put_stored (rq_url rq) r1 cs Hown) as [Hown1 Hc1].
  split; [done|]. rewrite Hc1. split; [done|].
  intros r2. split; [done|].
  destruct (open_and_put_stored (rq_url rq) r2 _ Hown1) as [_ Hc2].
  by rewrite Hc2.
Qed.

Lemma activated_only_own (url : string) (cs : Caches) : activated cs → only_own url cs.
Proof.
  intros [-> | [c ->]]; [constructor|]. constructor; [by left|constructor].
Qed.

Lemma put_in_activated_cache (url : string) (r : Resp) (c : Cache) :
  put_in CACHE_NAME url r [(CACHE_NAME, c)] = [(CACHE_NAME, cache_put url r c)].
Proof. cbn [put_in]. by rewrite String.eqb_refl. Qed.

Lemma activate_caches_open (cs : Caches) :
  well_formed cs →
  ∃ c, activate (caches_open CACHE_NAME cs) = [(CACHE_NAME, c)] ∧
       ∀ url, cache_match url c = caches_match url (activate cs).
Proof.
  intros Hwf. unfold caches_open.
  destruct (activate_shape cs Hwf) as [[Hh Ha] | (c & Hh & _ & Ha)]; rewrite Hh.
  - exists []. unfold activate in *. rewrite filter_app, Ha. split; [done|].
    intros url. done.
  - exists c. split; [done|]. intros url. by rewrite Ha, caches_match_single.
Qed.

(** X20. When the network gives an ok response for [/mobile/], the
    installation stores it, and after activation every navigation to
    [/mobile/] is answered with a stored response even without network.
    When the request fails or its response is not ok, the installation
    fails and stores nothing. *)
Theorem installed_shell_loads_offline (net : string → option Resp) (cs : Caches) :
  well_formed cs →
  let cs' := activate (snd (install net cs)) in
  (∀ r, net "/mobile/" = Some r → r_ok r = true →
     fst (install net cs) = true ∧
     caches_match "/mobile/" cs' = Some r ∧
     ∀ rq, rq_url rq = "/mobile/" → shell_navigation rq = true →
           fst (on_fetch rq None cs') = Responds (Some r)) ∧
  ((net "/mobile/" = None ∨ ∃ r, net "/mobile/" = Some r ∧ r_ok r = false) →
     fst (install net cs) = false ∧
     ∀ url, caches_match url cs' = caches_match url (activate cs)).
Proof.
  intros Hwf. cbn zeta.
  destruct (activate_caches_open cs Hwf) as (c & Hopen & Hsame).
  unfold install, SHELL_URLS. cbn [fetch_all]. split.
  - intros r Hnet Hok. rewrite Hnet, Hok. cbn [fst snd fold_left].
    rewrite activate_put_in, Hopen, put_in_activated_cache.
    rewrite caches_match_single, cache_match_put.
    split; [done|]. split; [done|].
    intros rq Hurl Hnav. unfold on_fetch. rewrite Hnav, Hurl. cbn [fst].
    by rewrite caches_match_single, cache_match_put.
  - intros Hfail.
    assert (match net "/mobile/" with
            | Some r => if r_ok r then Some [("/mobile/", r)] else None
            | None => None
            end = None) as Hnone.
    { destruct Hfail as [-> | (r & -> & ->)]; done. }
    destruct (net "/mobile/") as [r|]; [destruct (r_ok r)|]; try done;
      cbn [fst snd]; rewrite Hopen; split; try done;
      intros url; by rewrite caches_match_single.
Qed.

End WorkerFacts.

(* ===================================================================== *)
(** ** The additional properties on examples *)
(* ===================================================================== *)

Lemma recursive_listing_walks_the_tree_witness :
  ∃ n', @listFilesRecursive Shelf.env 2 "ghp_valid" "danrichardson" "loomwork"
          (JStr "src/content") (@mkNet Shelf.env tt [])
        = (Ok [Shelf.about; Shelf.hello], n') ∧ True.
Proof.
  apply (@recursive_listing_walks_the_tree Shelf.env (λ _, True)
           "ghp_valid" "danrichardson" "loomwork" 2 Shelf.content
           [Leaf Shelf.about;
            Folder Shelf.posts [Leaf Shelf.hello; Leaf Shelf.latest];
            Leaf Shelf.theme]
           (@mkNet Shelf.env tt [])).
  - cbn [holds].
    repeat match goal with
           | |- _ ∧ _ => split
           | |- True => exact I
           | |- ∀ n, _ → ∃ _, _ =>
               intros n _; eexists; split; [vm_compute; reflexivity|exact I]
           | |- _ = _ => reflexivity
           end.
  - vm_compute. lia.
  - exact I.
Defined.

Section MoreOnTheHub.
Local Existing Instance Hub.env.

Lemma commit_sends_one_request_witness :
  let rq := commit_request Hub.saved Hub.me Hub.hello_file in
  let sys' := handleCommit Hub.saved in
  sent (net sys') = (sent (net Hub.saved) ++ [rq])%list ∧
  remote (net sys') = snd (fetch rq (remote (net Hub.saved))) ∧
  req_method rq = "PUT" ∧
  req_url rq = contents_url (cred_owner Hub.me) (cred_repo Hub.me) (fc_path Hub.hello_file) ∧
  get (req_body rq) "message" = Ok (JStr (commitMessage (app Hub.saved))) ∧
  get (req_body rq) "content"
    = Ok (JStr (btoa_utf8 (serializeFile (frontmatter (app Hub.saved))
                             (body (app Hub.saved))))) ∧
  get (req_body rq) "sha"
    = Ok (if truthy (currentSha (app Hub.saved)) then currentSha (app Hub.saved)
          else JUndefined).
Proof.
  apply (commit_sends_one_request Hub.saved Hub.me Hub.hello_file);
    vm_compute; reflexivity.
Defined.

Lemma read_without_content_fails_witness :
  let sys' := openFile HubMore.posts_dir Hub.sys0 in
  ∃ e, fst (getFile (token Hub.me) (cred_owner Hub.me) (cred_repo Hub.me)
              (rf_path HubMore.posts_dir) (net Hub.sys0)) = Throw e ∧
       err_name e = "TypeError" ∧
       error (app sys') = Some (err_message e) ∧
       screen (app sys') = screen (app Hub.sys0) ∧
       currentFile (app sys') = currentFile (app Hub.sys0) ∧
       store sys' = store Hub.sys0.
Proof.
  eapply (read_without_content_fails Hub.sys0 HubMore.posts_dir Hub.me).
  - vm_compute. reflexivity.
  - vm_compute. reflexivity.
  - reflexivity.
  - reflexivity.
  - vm_compute. reflexivity.
  - intros s. discriminate.
Defined.

Lemma login_with_invalid_repo_witness :
  let sys' := handleLogin 1 "noslash" "ghp_valid" Hub.sys0 in
  error (app sys') = Some "Invalid repo format. Use owner/repo or a GitHub URL." ∧
  loading (app sys') = false ∧
  net sys' = net Hub.sys0 ∧
  store sys' = store Hub.sys0 ∧
  creds (app sys') = creds (app Hub.sys0) ∧
  screen (app sys') = screen (app Hub.sys0).
Proof.
  apply (login_with_invalid_repo 1 "noslash" "ghp_valid" Hub.sys0
           (Error "Invalid repo format. Use owner/repo or a GitHub URL.")).
  vm_compute. reflexivity.
Defined.

Lemma login_refused_witness :
  let r := mkRepoRef "danrichardson" "loomwork" in
  let sys' := handleLogin 1 "danrichardson/loomwork" "ghp_expired" Hub.sys0 in
  error (app sys') = Some "Invalid token or no access to repo." ∧
  loading (app sys') = false ∧
  store sys' = store Hub.sys0 ∧
  creds (app sys') = creds (app Hub.sys0) ∧
  screen (app sys') = screen (app Hub.sys0) ∧
  sent (net sys')
    = (sent (net Hub.sys0) ++ [validate_request "ghp_expired" (owner r) (repo r)])%list.
Proof.
  eapply (login_refused 1 "danrichardson/loomwork" "ghp_expired" Hub.sys0
            (mkRepoRef "danrichardson" "loomwork")).
  - vm_compute. reflexivity.
  - vm_compute. reflexivity.
  - reflexivity.
Defined.

Lemma login_accepted_survives_reload_witness :
  let c := mkCredentials "ghp_valid" "danrichardson" "loomwork" in
  let sys' := handleLogin 2 "https://github.com/danrichardson/loomwork.git"
                "ghp_valid" Hub.sys0 in
  credentials (store sys') = Some c ∧
  drafts (store sys') = drafts (store Hub.sys0) ∧
  creds (app sys') = Some c ∧
  screen (app sys') = browser ∧
  ∀ fuel' n t,
    let reloaded := init fuel' (mount (store sys') n t) in
    creds (app reloaded) = Some c ∧ screen (app reloaded) = browser.
Proof.
  eapply (login_accepted_survives_reload 2
            "https://github.com/danrichardson/loomwork.git" "ghp_valid" Hub.sys0
            (mkRepoRef "danrichardson" "loomwork")).
  - vm_compute. reflexivity.
  - vm_compute. reflexivity.
  - reflexivity.
Defined.

Lemma edit_then_back_is_not_saved_witness :
  let left := goBack 1 (elapse 500 (apply_edit (EditBody "Lost words") Hub.opened)) in
  pending_autosaves left = [] ∧
  ∀ dt, store (elapse dt left) = store Hub.opened.
Proof.
  apply (edit_then_back_is_not_saved 1 Hub.opened Hub.hello_file
           (EditBody "Lost words") 500).
  - left. vm_compute. reflexivity.
  - vm_compute. reflexivity.
  - vm_compute. reflexivity.
  - lia.
Defined.


Lemma open_with_draft_saves_it_again_witness :
  let again := mkDraft (JStr Hub.hello) "New body" [] (now Hub.back + 1000) in
  let sys' := elapse 1000 (openFile Hub.hello_entry Hub.back) in
  draft_writes (store sys') = (draft_writes (store Hub.back) ++ [again])%list ∧
  getDraft (JStr Hub.hello) (store sys') = Some again.
Proof.
  eapply (open_with_draft_saves_it_again Hub.back Hub.hello_entry Hub.me
            Hub.hello_file _ Hub.hello_draft 1000).
  - left. vm_compute. reflexivity.
  - vm_compute. reflexivity.
  - vm_compute. reflexivity.
  - vm_compute. reflexivity.
  - vm_compute. reflexivity.
  - lia.
Defined.

Lemma open_without_draft_saves_nothing_witness :
  pending_autosaves (openFile Hub.hello_entry Hub.sys0) = [] ∧
  ∀ dt, store (elapse dt (openFile Hub.hello_entry Hub.sys0)) = store Hub.sys0.
Proof.
  eapply (open_without_draft_saves_nothing Hub.sys0 Hub.hello_entry Hub.me).
  - left. vm_compute. reflexivity.
  - vm_compute. reflexivity.
  - vm_compute. reflexivity.
  - intros d Hd. vm_compute in Hd. discriminate.
Defined.

Lemma at_most_one_autosave_in_every_run_witness :
  let sys := play [Open Hub.hello_entry; TypeBody "New body"; TypeBody "New body!"]
               HubMore.mounted in
  (length (pending_autosaves sys) ≤ 1)%nat ∧ dirty (app sys) = true.
Proof.
  destruct (at_most_one_autosave_in_every_run 2 (mkStorage ∅ (Some Hub.me) [])
              (@mkNet Hub.env Hub.files0 []) 5000
              [Open Hub.hello_entry; TypeBody "New body"; TypeBody "New body!"])
    as [Hone Hdirty].
  split; [exact Hone|]. apply Hdirty. vm_compute. discriminate.
Defined.

End MoreOnTheHub.

Section MoreOnTheMuteStore.
Local Existing Instance Mute.env.

Lemma accepted_write_with_unreadable_answer_witness :
  let sys' := handleCommit Mute.editing in
  is_Some (error (app sys')) ∧
  dirty (app sys') = dirty (app Mute.editing) ∧
  store sys' = store Mute.editing ∧
  currentSha (app sys') = currentSha (app Mute.editing) ∧
  body (app sys') = body (app Mute.editing) ∧
  remote (net sys') = tt.
Proof.
  apply (accepted_write_with_unreadable_answer Mute.editing Mute.me Mute.file
           (mkResponse true 200
              (inl (mkError "SyntaxError" "Unexpected end of JSON input"))) tt).
  - reflexivity.
  - reflexivity.
  - reflexivity.
  - reflexivity.
  - exact I.
Defined.

Lemma deleteFile_outcome_witness :
  deleteFile "ghp_any" "danrichardson" "loomwork" (JStr "src/content/posts/hello.mdx")
    (JStr "blob-0") "Remove hello" (net Mute.editing)
  = (Ok tt,
     {| remote := tt;
        sent := sent (net Mute.editing)
                ++ [delete_request "ghp_any" "danrichardson" "loomwork"
                      (JStr "src/content/posts/hello.mdx") (JStr "blob-0") "Remove hello"] |}).
Proof.
  apply (deleteFile_outcome "ghp_any" "danrichardson" "loomwork"
           (JStr "src/content/posts/hello.mdx") (JStr "blob-0") "Remove hello"
           (net Mute.editing)
           (mkResponse true 200
              (inl (mkError "SyntaxError" "Unexpected end of JSON input"))) tt).
  reflexivity.
Defined.

End MoreOnTheMuteStore.

Lemma tags_field_round_trip_witness :
  tags_text (onTagsChange " rocq , voilà,,web　" HubMore.front) = "rocq, voilà, web" ∧
  assoc "title" (onTagsChange " rocq , voilà,,web　" HubMore.front)
    = assoc "title" HubMore.front.
Proof.
  destruct (tags_field_round_trip " rocq , voilà,,web　" HubMore.front)
    as (Hshown & _ & _ & Hother).
  split; [rewrite Hshown; vm_compute; reflexivity|].
  apply Hother. discriminate.
Defined.

Lemma live_url_of_content_file_witness :
  slug ("src/content/posts/" ++ "src/content/posts/launch" ++ ".mdx")
    = "src/content/posts/launch" ∧
  slug ("src/content/pages/" ++ "src/content/posts/launch" ++ ".mdx")
    = drop_prefix "src/content/posts/" "src/content/posts/launch" ∧
  (∀ path, liveUrl "https://loomwork.dev/" path
           = RepoSpec.strip_suffix "/" "https://loomwork.dev/" ++ "/" ++ slug path) ∧
  (∀ path, liveUrl "" path = "").
Proof.
  apply (live_url_of_content_file "https://loomwork.dev/" "src/content/posts/launch" ".mdx").
  - by right.
  - discriminate.
Defined.

Lemma navigation_is_one_visit_behind_witness :
  let rq := Worker.mkReq "/mobile/edit?file=hello" "navigate" "/mobile/edit" in
  let cs := [("loomwork-mobile-v1", [("/mobile/", Worker.mkResp true "shell")])] in
  (∀ answer,
     fst (Worker.on_fetch rq answer cs)
     = Worker.Responds (match Worker.caches_match (Worker.rq_url rq) cs with
                        | Some r => Some r
                        | None => answer
                        end)) ∧
  (fst (Worker.on_fetch rq None cs) = Worker.Responds None ∧
   snd (Worker.on_fetch rq None cs) = cs) ∧
  (∀ r1, let cs1 := snd (Worker.on_fetch rq (Some r1) cs) in
     Worker.only_own (Worker.rq_url rq) cs1 ∧
     fst (Worker.on_fetch rq None cs1) = Worker.Responds (Some r1) ∧
     ∀ r2, fst (Worker.on_fetch rq (Some r2) cs1) = Worker.Responds (Some r1) ∧
           fst (Worker.on_fetch rq None (snd (Worker.on_fetch rq (Some r2) cs1)))
           = Worker.Responds (Some r2)).
Proof.
  destruct (WorkerFacts.navigation_is_one_visit_behind
              (Worker.mkReq "/mobile/edit?file=hello" "navigate" "/mobile/edit")
              [("loomwork-mobile-v1", [("/mobile/", Worker.mkResp true "shell")])])
    as (Hgets & Hnone & Hstored).
  - reflexivity.
  - split; [exact Hgets|]. split; [apply Hnone; reflexivity|].
    apply Hstored. constructor; [by left|constructor].
Defined.

Lemma installed_shell_loads_offline_witness :
  let net := λ _ : string, Some (Worker.mkResp true "shell v1") in
  let cs := [("loomwork-mobile-v0", [("/mobile/", Worker.mkResp true "shell v0")])] in
  let cs' := Worker.activate (snd (Worker.install net cs)) in
  fst (Worker.install net cs) = true ∧
  Worker.caches_match "/mobile/" cs' = Some (Worker.mkResp true "shell v1") ∧
  ∀ rq, Worker.rq_url rq = "/mobile/" → Worker.shell_navigation rq = true →
        fst (Worker.on_fetch rq None cs') = Worker.Responds (Some (Worker.mkResp true "shell v1")).
Proof.
  destruct (WorkerFacts.installed_shell_loads_offline
              (λ _ : string, Some (Worker.mkResp true "shell v1"))
              [("loomwork-mobile-v0", [("/mobile/", Worker.mkResp true "shell v0")])])
    as [Hok _].
  - apply NoDup_singleton.
  - apply (Hok (Worker.mkResp true "shell v1")); reflexivity.
Defined.
